(** * appwrite-ctl: a shallow embedding of the migration runner

    The development follows the TypeScript sources of the repository:
    - [lib/cli.ts]    : [pushSnapshot] (schema sync adapter),
    - [lib/runner.ts] : [runMigrations] and [waitForAttributes],
    - [lib/appwrite.ts] : [getAppliedMigrations] and [recordMigration].

    Everything outside the process (file system, the appwrite command line
    tool, the remote document store, the user's migration scripts) is an
    explicit argument of the embedded functions; what the program prints or
    asks of the outside is collected in a list of events. *)

From Stdlib Require Import ZArith Lia Ascii.
From stdpp Require Import base strings list gmap sorting pretty.

Open Scope string_scope.
Open Scope list_scope.
Open Scope Z_scope.

(** ** What the process does to the outside *)

(** One entry per console line, child process, remote call or timer, in the
    order the program issues them.  Messages are the sources' texts, without
    the chalk colouring and without the non-ASCII glyphs that lead some of
    them; an error object printed after a message is left out. *)
Inductive event : Type :=
| Log (msg : string)                         (* console.log *)
| Warn (msg : string)                        (* console.warn *)
| Error (msg : string)                       (* console.error *)
| Exec (cmd : string)                        (* execAsync(cmd) *)
| Import (file : string)                     (* jiti.import(file) *)
| PushSnapshot (snapshotPath : string)       (* pushSnapshot(snapshotPath) *)
| ListDocuments (database collection : string)
| CreateDocument (database collection id name : string)
| ListAttributes (databaseId collectionId : string)
| Sleep (ms : Z)                             (* setTimeout(resolve, ms) *)
| Up (version : string).                     (* migration.up(context) *)

(** How an async function ends. *)
Inductive completion : Type :=
| Returned : completion
| Thrown (message : string) : completion.

(** [AppConfig] of [lib/config.ts]. *)
Record AppConfig : Type := {
  endpoint : string;
  projectId : string;
  apiKey : string;
  migrationCollectionId : string;
  database : string;
  backupCommand : option string;
}.

(** ** JavaScript built-ins used by the sources *)

Module JS.

(** A JavaScript number as the sources use it: the result of [parseInt]
    and of a subtraction of two such results.  The integer case is exact;
    IEEE rounding is outside the model, which is therefore faithful for
    magnitudes up to 2^53. *)
Inductive number : Type :=
| NaN : number
| Int (z : Z) : number.

(** [numA - numB] *)
Definition sub (a b : number) : number :=
  match a, b with
  | Int x, Int y => Int (x - y)
  | _, _ => NaN
  end.

Definition MAX_SAFE_INTEGER : Z := 2 ^ 53 - 1.

Definition isSafeInteger (n : number) : bool :=
  match n with
  | NaN => false
  | Int z => (- MAX_SAFE_INTEGER <=? z) && (z <=? MAX_SAFE_INTEGER)
  end.

Definition code (c : Ascii.ascii) : Z := Z.of_N (Ascii.N_of_ascii c).

(** StrWhiteSpaceChar of ECMA-262 (WhiteSpace and LineTerminator).  A
    string of the model is the UTF-8 encoding of the JavaScript string,
    the bytes a directory entry has on disk, so that a white space
    character is one, two or three characters of the model:
    - one byte: TAB, LF, VT, FF, CR and SP;
    - two bytes: U+00A0 (C2 A0);
    - three bytes: U+1680 (E1 9A 80), U+2000 to U+200A (E2 80 80 to
      E2 80 8A), U+2028 and U+2029 (E2 80 A8, E2 80 A9), U+202F
      (E2 80 AF), U+205F (E2 81 9F), U+3000 (E3 80 80) and U+FEFF
      (EF BB BF). *)
Definition isWhiteSpace1 (c : Ascii.ascii) : bool :=
  ((9 <=? code c) && (code c <=? 13)) || (code c =? 32).

Definition isWhiteSpace2 (c1 c2 : Ascii.ascii) : bool :=
  (code c1 =? 194) && (code c2 =? 160).

Definition isWhiteSpace3 (c1 c2 c3 : Ascii.ascii) : bool :=
  ((code c1 =? 225) && (code c2 =? 154) && (code c3 =? 128))
  || ((code c1 =? 226) && (code c2 =? 128)
      && (((128 <=? code c3) && (code c3 <=? 138))
          || (code c3 =? 168) || (code c3 =? 169) || (code c3 =? 175)))
  || ((code c1 =? 226) && (code c2 =? 129) && (code c3 =? 159))
  || ((code c1 =? 227) && (code c2 =? 128) && (code c3 =? 128))
  || ((code c1 =? 239) && (code c2 =? 187) && (code c3 =? 191)).

(** The string without its leading white space characters. *)
Fixpoint trimStart (s : string) : string :=
  match s with
  | String c1 s1 =>
      if isWhiteSpace1 c1 then trimStart s1
      else
        match s1 with
        | String c2 s2 =>
            if isWhiteSpace2 c1 c2 then trimStart s2
            else
              match s2 with
              | String c3 s3 => if isWhiteSpace3 c1 c2 c3 then trimStart s3 else s
              | EmptyString => s
              end
        | EmptyString => s
        end
  | EmptyString => EmptyString
  end.

(** The string without its trailing white space characters: it ends
    where what is left is white space only. *)
Fixpoint trimEnd (s : string) : string :=
  match s with
  | String c t =>
      match trimStart s with
      | EmptyString => EmptyString
      | String _ _ => String c (trimEnd t)
      end
  | EmptyString => EmptyString
  end.

(** Value of [c] as a digit, when it is one in radix [r] (r is 10 or 16). *)
Definition digitValue (r : Z) (c : Ascii.ascii) : option Z :=
  let n := code c in
  let v :=
    if (48 <=? n) && (n <=? 57) then Some (n - 48)
    else if (97 <=? n) && (n <=? 122) then Some (n - 87)
    else if (65 <=? n) && (n <=? 90) then Some (n - 55)
    else None in
  match v with
  | Some d => if d <? r then Some d else None
  | None => None
  end.

(** The longest prefix of radix-[r] digits, accumulated left to right;
    [None] when there is no digit at all. *)
Fixpoint digits (r : Z) (acc : option Z) (s : string) : option Z :=
  match s with
  | String c s' =>
      match digitValue r c with
      | Some d => digits r (Some (r * default 0 acc + d)) s'
      | None => acc
      end
  | EmptyString => acc
  end.

(** Steps 4 to 6 of [parseInt]: the sign and the string after it. *)
Definition stripSign (s : string) : Z * string :=
  match s with
  | String c t =>
      if Ascii.eqb c "-" then (-1, t)
      else if Ascii.eqb c "+" then (1, t)
      else (1, s)
  | EmptyString => (1, s)
  end.

(** Steps 8 to 10 with the radix left out: a leading 0x or 0X selects
    radix 16 and is dropped; the radix is 10 otherwise. *)
Definition stripPrefix (s : string) : Z * string :=
  match s with
  | String c (String x t) =>
      if Ascii.eqb c "0" && (Ascii.eqb x "x" || Ascii.eqb x "X") then (16, t)
      else (10, s)
  | _ => (10, s)
  end.

(** [parseInt(s)] with the radix left out, after ECMA-262 19.2.5. *)
Definition parseInt (s : string) : number :=
  let '(sign, s2) := stripSign (trimStart s) in
  let '(r, s3) := stripPrefix s2 in
  match digits r None s3 with
  | Some m => Int (sign * m)
  | None => NaN
  end.

(** [s.substring(1)] *)
Definition substring1 (s : string) : string :=
  match s with
  | String _ t => t
  | EmptyString => EmptyString
  end.

(** [s.trim()], over the same white space. *)
Definition trim (s : string) : string := trimEnd (trimStart s).

(** [s.startsWith('v')] *)
Definition startsWith_v (s : string) : bool :=
  match s with
  | String "v"%char _ => true
  | _ => false
  end.

Section Sort.
Context {A : Type} (comparefn : A -> A -> number).

(** SortCompare of ECMA-262 23.1.3.30.2: a comparator result of NaN
    counts as +0. *)
Definition SortCompare (x y : A) : Z :=
  match comparefn x y with
  | NaN => 0
  | Int z => z
  end.

Fixpoint insert_sorted (x : A) (l : list A) : list A :=
  match l with
  | [] => [x]
  | y :: l' =>
      if SortCompare x y <=? 0 then x :: y :: l'
      else y :: insert_sorted x l'
  end.

(** [Array.prototype.sort(comparefn)].  The language fixes the result
    only for a consistent comparator, where every stable sort returns
    the same array; a stable insertion sort stands for it. *)
Fixpoint sort (l : list A) : list A :=
  match l with
  | [] => []
  | x :: l' => insert_sorted x (sort l')
  end.

End Sort.

(** [a + b] *)
Definition add (a b : number) : number :=
  match a, b with
  | Int x, Int y => Int (x + y)
  | _, _ => NaN
  end.

(** The number as a template literal prints it; decimal digits for an
    integer, which is what the language does below 10^21. *)
Definition toString (n : number) : string :=
  match n with
  | NaN => "NaN"
  | Int z => pretty z
  end.

End JS.

(** ** Discovery of version directories ([runMigrations], step 1) *)

Module Discovery.
Import JS.

(** The sequence number read off a directory name:
    [parseInt(a.substring(1))]. *)
Definition seqNum (dir : string) : number := parseInt (substring1 dir).

(** The comparator handed to [sort]. *)
Definition compareDirs (a b : string) : number :=
  let numA := seqNum a in
  let numB := seqNum b in
  sub numA numB.

(** [readdirSync(migrationsDir).filter(...)]; [entries] is what
    [readdirSync] returns and [isDirectory] answers [statSync]. *)
Definition kept (isDirectory : string → bool) (entries : list string) : list string :=
  List.filter (λ dir, startsWith_v dir && isDirectory dir) entries.

(** [readdirSync(migrationsDir).filter(...).sort(...)] *)
Definition versionDirs (isDirectory : string → bool) (entries : list string)
  : list string :=
  sort compareDirs (kept isDirectory entries).

(** [a] may stand before [b] in ascending numeric order. *)
Definition ascending (a b : string) : Prop :=
  ∃ x y, seqNum a = Int x ∧ seqNum b = Int y ∧ x ≤ y.

(** The sequence number as an integer, where it is one. *)
Definition seqZ (dir : string) : Z :=
  match seqNum dir with
  | Int z => z
  | NaN => 0
  end.

Definition isDecimalDigit (c : Ascii.ascii) : bool :=
  (48 <=? code c) && (code c <=? 57).




End Discovery.

(** ** Schema sync adapter ([lib/cli.ts]) *)

Module Cli.

Definition SNAPSHOT_FILENAME : string := "appwrite.config.json".

(** Configure the Appwrite CLI client for non-interactive use via API key.
    [exec] runs the command line: [None] when it exits with 0, the message
    of the rejection otherwise. *)
Definition configureClient (exec : string → option string) (config : AppConfig)
  : list event * completion :=
  let args :=
    "--endpoint " +:+ endpoint config +:+ " " +:+
    "--project-id " +:+ projectId config +:+ " " +:+
    "--key " +:+ apiKey config in
  let cmd := "appwrite client " +:+ args in
  match exec cmd with
  | None => ([Exec cmd; Log "Appwrite CLI configured successfully."], Returned)
  | Some message =>
      ([Exec cmd],
       Thrown ("Failed to configure Appwrite CLI: " +:+ message
               +:+ ". Ensure 'appwrite-cli' is installed."))
  end.

(** Resource types to sync (excludes 'settings' which requires interactive
    login). *)
Definition RESOURCES : list string := ["tables"; "buckets"; "teams"; "topics"].

(** The files of the machine: path to content. *)
Abbreviation FS := (gmap string string).

Definition existsSync (fs : FS) (p : string) : bool := bool_decide (is_Some (fs !! p)).

(** [fs.copyFileSync(src, dst)].  Node throws when [src] is missing; every
    call in [pushSnapshot] is guarded by [existsSync(src)], and the file
    system is returned as it is in that case. *)
Definition copyFileSync (src dst : string) (fs : FS) : FS :=
  match fs !! src with
  | Some c => <[dst := c]> fs
  | None => fs
  end.

Definition writeFileSync (p content : string) (fs : FS) : FS := <[p := content]> fs.

(** [fs.unlinkSync(p)], called on existing files only. *)
Definition unlinkSync (p : string) (fs : FS) : FS := delete p fs.

(** [path.join(dir, name)] for the plain directory and file names the
    sources pass. *)
Definition path_join (dir name : string) : string := dir +:+ "/" +:+ name.

Section PushSnapshot.
(** Decoded JSON values and the three library operations on them:
    [JSON.parse] ([None]: SyntaxError), the assignment
    [data.projectId = id] ([None]: TypeError, the value is null or a
    primitive) and [JSON.stringify(data, null, 2)]. *)
Context {J : Type}.
Variable JSON_parse : string → option J.
Variable set_projectId : J → string → option J.
Variable JSON_stringify : J → string.

(** The appwrite command line tool, run in [rootDir]: what it leaves on
    disk, and the message of the rejection when it exits non-zero or
    runs into the timeout. *)
Variable execAsync : string → FS → FS * option string.

(** [process.cwd()] *)
Variable rootDir : string.

Definition rootConfig : string := path_join rootDir SNAPSHOT_FILENAME.
Definition backupPath : string := rootConfig +:+ ".bak".

Definition pushCommand (resource : string) : string :=
  let extraFlags := if String.eqb resource "tables" then "--attempts 60" else "" in
  JS.trim ("appwrite push " +:+ resource +:+ " --all --force " +:+ extraFlags).

(** The [for] loop inside the [try]: stops at the first resource whose
    push is rejected and rethrows its error. *)
Fixpoint pushResources (resources : list string) (fs : FS)
  : FS * list event * option string :=
  match resources with
  | [] => (fs, [], None)
  | resource :: rest =>
      let cmd := pushCommand resource in
      match execAsync cmd fs with
      | (fs', None) =>
          let '(fs'', evs, err) := pushResources rest fs' in
          (fs'',
           Log ("Pushing " +:+ resource +:+ "...") :: Exec cmd
             :: Log ("  " +:+ resource) :: evs,
           err)
      | (fs', Some message) =>
          (fs',
           [Log ("Pushing " +:+ resource +:+ "..."); Exec cmd;
            Error ("  Failed to push " +:+ resource +:+ ": " +:+ message)],
           Some message)
      end
  end.

(** The [catch] block. *)
Definition restoreOnFailure (originalExists : bool) (fs : FS) : FS * list event :=
  if originalExists && existsSync fs backupPath then
    (copyFileSync backupPath rootConfig fs,
     [Log "Root config restored from backup after push failure."])
  else (fs, []).

(** The [finally] block. *)
Definition restoreOriginal (originalExists : bool) (fs : FS) : FS :=
  if originalExists then
    if existsSync fs backupPath then
      unlinkSync backupPath (copyFileSync backupPath rootConfig fs)
    else fs
  else
    if existsSync fs rootConfig then unlinkSync rootConfig fs else fs.

Definition pushSnapshot (snapshotPath : string) (config : AppConfig) (fs : FS)
  : FS * list event * completion :=
  if negb (existsSync fs snapshotPath) then
    (fs, [], Thrown ("Snapshot not found: " +:+ snapshotPath))
  else
    (* Backup current root config before overwriting. *)
    let originalExists := existsSync fs rootConfig in
    let fs1 := if originalExists then copyFileSync rootConfig backupPath fs else fs in
    (* Copy snapshot to root and rewrite projectId. *)
    match JSON_parse (default "" (fs1 !! snapshotPath)) with
    | None => (fs1, [], Thrown "SyntaxError")
    | Some snapshotData =>
        match set_projectId snapshotData (projectId config) with
        | None => (fs1, [], Thrown "TypeError")
        | Some snapshotData' =>
            let fs2 := writeFileSync rootConfig (JSON_stringify snapshotData') fs1 in
            let copied :=
              Log ("Snapshot copied to project root (projectId: "
                   +:+ projectId config +:+ ").") in
            match pushResources RESOURCES fs2 with
            | (fs3, evs, None) =>
                (restoreOriginal originalExists fs3, copied :: evs, Returned)
            | (fs3, evs, Some message) =>
                let '(fs4, evs') := restoreOnFailure originalExists fs3 in
                (restoreOriginal originalExists fs4, copied :: evs ++ evs',
                 Thrown message)
            end
        end
    end.

(** The tool does not touch the backup file. *)
Definition keepsBackup : Prop :=
  ∀ cmd (fs : FS), (execAsync cmd fs).1 !! backupPath = fs !! backupPath.
End PushSnapshot.

Section PullSnapshot.
(** The appwrite command line tool and [process.cwd()], as for
    [pushSnapshot]. *)
Variable execAsync : string → FS → FS * option string.
Variable rootDir : string.

Definition pullCommand (resource : string) : string := "appwrite pull " +:+ resource.

(** The [for] loop of [pullSnapshot]: every resource is pulled, a
    rejection is warned about and the loop goes on. *)
Fixpoint pullResources (resources : list string) (fs : FS) : FS * list event :=
  match resources with
  | [] => (fs, [])
  | resource :: rest =>
      let cmd := pullCommand resource in
      match execAsync cmd fs with
      | (fs', None) =>
          let '(fs'', evs) := pullResources rest fs' in
          (fs'',
           Log ("Pulling " +:+ resource +:+ "...") :: Exec cmd
             :: Log ("  " +:+ resource) :: evs)
      | (fs', Some message) =>
          let '(fs'', evs) := pullResources rest fs' in
          (fs'',
           Log ("Pulling " +:+ resource +:+ "...") :: Exec cmd
             :: Warn ("  Failed to pull " +:+ resource +:+ ": " +:+ message) :: evs)
      end
  end.

(** Pull a full snapshot from Appwrite into a target directory; the
    result is the path of the copy, or the message of the error thrown.
    The target directory exists: both callers make sure of it before the
    call. *)
Definition pullSnapshot (targetDir : string) (fs : FS)
  : FS * list event * (string + string) :=
  let rootConfig := rootConfig rootDir in
  let '(fs1, evs) := pullResources RESOURCES fs in
  if negb (existsSync fs1 rootConfig) then
    (fs1, evs,
     inl ("appwrite.config.json not found at project root after pull. "
          +:+ "Ensure the CLI is configured correctly."))
  else
    (* Copy the updated root config into the target version directory *)
    let targetPath := path_join targetDir SNAPSHOT_FILENAME in
    let fs2 := copyFileSync rootConfig targetPath fs1 in
    (* Cleanup: Remove the root appwrite.config.json created by the pull command. *)
    let fs3 := if existsSync fs2 rootConfig then unlinkSync rootConfig fs2 else fs2 in
    (fs3, evs ++ [Log ("Snapshot saved to " +:+ targetPath)], inr targetPath).
End PullSnapshot.

(** Get the snapshot filename used for versioned snapshots. *)
Definition getSnapshotFilename : string := SNAPSHOT_FILENAME.

(** The command lines handed to [execAsync], in order. *)
Definition execs (evs : list event) : list string :=
  omap (λ e, match e with Exec cmd => Some cmd | _ => None end) evs.

End Cli.

(** ** State store client ([lib/appwrite.ts]) *)

Module Appwrite.

(** An error thrown by the SDK: [error.code] and [error.message]. *)
Record RemoteError : Type := {
  code : option Z;
  message : string;
}.

(** A document of the tracking collection: [$id] and [name]
    ([appliedAt], the wall-clock time of the write, is not modelled). *)
Record Document : Type := {
  doc_id : string;
  doc_name : string;
}.

(** The remote side of the tracking collection as the client can observe
    it: the collection (or its database) is missing, every call is
    rejected with one error (bad key, outage), or the collection holds
    documents in creation order. *)
Inductive Store : Type :=
| Missing : Store
| Failing (e : RemoteError) : Store
| Collection (docs : list Document) : Store.

Definition notFound : RemoteError := {| code := Some 404; message := "not found" |}.
Definition conflict : RemoteError := {| code := Some 409; message := "document already exists" |}.

(** [databases.listDocuments(database, collection, [Query.limit(n)])] *)
Definition listDocuments (limit : nat) (store : Store) : RemoteError + list Document :=
  match store with
  | Missing => inl notFound
  | Failing e => inl e
  | Collection docs => inr (take limit docs)
  end.

(** [databases.createDocument(database, collection, id, data)]: the
    remote refuses an id that is taken. *)
Definition createDocument (id name : string) (store : Store) : RemoteError + Store :=
  match store with
  | Missing => inl notFound
  | Failing e => inl e
  | Collection docs =>
      if bool_decide (id ∈ doc_id <$> docs) then inl conflict
      else inr (Collection (docs ++ [{| doc_id := id; doc_name := name |}]))
  end.

(** The identifiers on record, in creation order. *)
Definition documentIds (store : Store) : list string :=
  match store with
  | Collection docs => doc_id <$> docs
  | _ => []
  end.

(** Get list of applied migration IDs. *)
Definition getAppliedMigrations (config : AppConfig) (store : Store)
  : list event * (string + list string) :=
  let call := ListDocuments (database config) (migrationCollectionId config) in
  match listDocuments 5000 store with
  | inr documents => ([call], inr (doc_id <$> documents))
  | inl error =>
      if bool_decide (code error = Some 404) then ([call], inr [])
      else ([call], inl (message error))
  end.

(** Record a successfully applied migration. *)
Definition recordMigration (config : AppConfig) (migrationId name : string) (store : Store)
  : list event * (string + Store) :=
  let call :=
    CreateDocument (database config) (migrationCollectionId config) migrationId name in
  match createDocument migrationId name store with
  | inr store' => ([call], inr store')
  | inl error => ([call], inl (message error))
  end.

End Appwrite.

(** ** Attribute-availability poller ([waitForAttributes] of [lib/runner.ts]) *)

Module Poller.
Import Appwrite.

(** An attribute descriptor of the remote answer; only [status] is read. *)
Record Attribute : Type := {
  key : string;
  status : string;
}.

(** A table of the snapshot: [$id], [name] and [databaseId] (which may be
    missing). *)
Record Table : Type := {
  table_id : string;
  name : string;
  databaseId : option string;
}.

(** The decoded snapshot, as far as the poller reads it: [schema.tables];
    [schema.tablesDB] only feeds a map that is never consulted. *)
Record Schema : Type := {
  tables : option (list Table);
}.

(** JavaScript truthiness of an optional string. *)
Definition truthy (s : option string) : option string :=
  match s with
  | Some v => if String.eqb v "" then None else Some v
  | None => None
  end.

(** The lines the poller prints. *)
Definition waitingLog (pending : nat) : event :=
  Log ("Waiting for " +:+ pretty pending +:+ " attributes to be available...").

Definition serverErrorWarning (databaseId collectionId : string) : event :=
  Warn ("  Failed to list attributes for " +:+ collectionId +:+ " in DB "
        +:+ databaseId +:+ ": Server Error. Skipping polling for this collection.").

Definition retryWarning (databaseId collectionId : string) (e : RemoteError) : event :=
  Warn ("Failed to list attributes for " +:+ collectionId +:+ " in DB "
        +:+ databaseId +:+ ": " +:+ message e +:+ ". Retrying...").

Definition skipWarning (table : Table) : event :=
  Warn ("Table " +:+ name table +:+ " (" +:+ table_id table
        +:+ ") has no databaseId. Skipping polling.").

Definition checkingLog (table : Table) : event :=
  Log ("Checking attributes for table " +:+ name table +:+ " ("
       +:+ table_id table +:+ ")...").

Section Polling.
(** The answer of the remote to the [n]-th [listAttributes] call of the
    run (counted from 0), given the identifiers asked for. *)
Variable listAttributes : nat → string → string → RemoteError + list Attribute.

Definition pendingOf (attributes : list Attribute) : list Attribute :=
  List.filter (λ attr, negb (String.eqb (status attr) "available")) attributes.

(** The [while (!allAvailable)] loop of one table.  [fuel] bounds the
    number of queries; the result says whether the loop was left,
    how many calls the run has made by then, and what happened. *)
Fixpoint pollTable (fuel : nat) (calls : nat) (databaseId collectionId : string)
  : bool * nat * list event :=
  match fuel with
  | O => (false, calls, [])
  | S fuel' =>
      let query := ListAttributes databaseId collectionId in
      match listAttributes calls databaseId collectionId with
      | inr attributes =>
          let pending := pendingOf attributes in
          if (length pending =? 0)%nat then (true, S calls, [query])
          else
            let '(finished, calls', evs) :=
              pollTable fuel' (S calls) databaseId collectionId in
            (finished, calls',
             query :: waitingLog (length pending) :: Sleep 2000 :: evs)
      | inl e =>
          if bool_decide (code e = Some 500) then
            (true, S calls, [query; serverErrorWarning databaseId collectionId])
          else
            let '(finished, calls', evs) :=
              pollTable fuel' (S calls) databaseId collectionId in
            (finished, calls',
             query :: retryWarning databaseId collectionId e :: Sleep 2000 :: evs)
      end
  end.

(** The [for (const table of tables)] loop. *)
Fixpoint pollTables (fuel : nat) (calls : nat) (tbls : list Table)
  : bool * nat * list event :=
  match tbls with
  | [] => (true, calls, [])
  | table :: rest =>
      let collectionId := table_id table in
      match truthy (databaseId table) with
      | None =>
          let '(finished, calls', evs) := pollTables fuel calls rest in
          (finished, calls', skipWarning table :: evs)
      | Some databaseId =>
          match pollTable fuel calls databaseId collectionId with
          | (true, calls', evs) =>
              let '(finished, calls'', evs') := pollTables fuel calls' rest in
              (finished, calls'', checkingLog table :: evs ++ evs')
          | (false, calls', evs) => (false, calls', checkingLog table :: evs)
          end
      end
  end.

(** [schema.tables || []] *)
Definition tablesOf (schema : Schema) : list Table := default [] (tables schema).

(** [waitForAttributes(databases, snapshotPath)]; [schema] is what
    reading and parsing the snapshot gave ([None]: it threw). *)
Definition waitForAttributes (fuel : nat) (calls : nat) (schema : option Schema)
  : bool * nat * list event :=
  match schema with
  | None =>
      (true, calls,
       [Log "Polling attribute status...";
        Error "Failed to parse snapshot for attribute polling"])
  | Some schema =>
      let '(finished, calls', evs) := pollTables fuel calls (tablesOf schema) in
      (finished, calls', Log "Polling attribute status..." :: evs)
  end.

(** The tables that are polled at all, as the identifiers queried. *)
Definition polled (tbls : list Table) : list (string * string) :=
  omap (λ table, (λ db, (db, table_id table)) <$> truthy (databaseId table)) tbls.

(** Every polled table of [tbls] gets an answer without a pending
    attribute at its first query, when the first query for the list is
    call number [calls] and each table takes one call. *)
Definition readyAtFirstQuery (calls : nat) (tbls : list Table) : Prop :=
  ∀ i db col, polled tbls !! i = Some (db, col) →
    ∃ attributes,
      listAttributes (calls + i)%nat db col = inr attributes ∧
      Forall (λ attr, status attr = "available") attributes.
End Polling.

(** Number of timer waits in a list of events. *)
Definition sleeps (evs : list event) : list Z :=
  omap (λ e, match e with Sleep ms => Some ms | _ => None end) evs.

Definition queries (evs : list event) : list (string * string) :=
  omap (λ e, match e with ListAttributes d c => Some (d, c) | _ => None end) evs.

(** What the loops keep true of their result, for [tbls] polled tables
    from call number [calls] on: every query is counted, every wait is
    2000 ms, and each table is queried at most once more than it is
    waited for, exactly once more when the loop is left. *)
Definition accounted (calls : nat) (tbls : nat) (result : bool * nat * list event) : Prop :=
  let '(finished, calls', evs) := result in
  calls' = (calls + length (queries evs))%nat ∧
  Forall (λ ms, ms = 2000) (sleeps evs) ∧
  (length (queries evs) ≤ length (sleeps evs) + tbls)%nat ∧
  (finished = true → length (queries evs) = (length (sleeps evs) + tbls)%nat).

End Poller.

(** ** Migration runner ([runMigrations] of [lib/runner.ts]) *)

Module Runner.
Import Appwrite Poller.

(** [MigrationContext] of [types/index.ts]: the two logging sinks; the
    [client] and [databases] handles are those of the run. *)
Record MigrationContext : Type := {
  log : string → event;
  error : string → event;
}.

(** What a user action hands to one of the sinks of its context. *)
Inductive line : Type :=
| ToLog (msg : string) : line
| ToError (msg : string) : line.

(** A user action ([MigrationFunction]), by what the run can see of it:
    the lines it hands to its context, in order, and how its promise
    settles.  Its writes to the project's own collections are not
    modelled, and it is taken not to touch the tracking collection. *)
Record MigrationFunction : Type := {
  lines : list line;
  settles : completion;
}.

(** The call [action(context)]. *)
Definition call (action : MigrationFunction) (context : MigrationContext)
  : list event * completion :=
  ((λ l, match l with ToLog msg => log context msg | ToError msg => error context msg end)
     <$> lines action,
   settles action).

(** [Migration] of [types/index.ts], as a loaded module can really hold
    it: the loader casts through [any], so every field may be missing. *)
Record Migration : Type := {
  id : option string;
  description : option string;
  requiresBackup : option bool;
  up : option MigrationFunction;
  down : option MigrationFunction;
}.

(** What [jiti.import(file)] gives: it throws, or there is a module whose
    [default] export may be missing. *)
Inductive imported : Type :=
| ImportThrows : imported
| Module_ (default : option Migration) : imported.

(** Everything local and remote the run reads; none of it changes during
    the run except the tracking collection, which is threaded apart. *)
Record World : Type := {
  cwd : string;                                   (* process.cwd() *)
  execClient : string → option string;            (* the appwrite client command *)
  existsSync : string → bool;                     (* fs.existsSync *)
  readdirSync : list string;                      (* of the migrations directory *)
  isDirectory : string → bool;                    (* fs.statSync(p).isDirectory() *)
  jitiImport : string → imported;
  execAsync : string → string → completion;       (* version, command *)
  pushSnapshot : string → completion;             (* snapshot path *)
  readSnapshot : string → option Schema;          (* JSON.parse(readFileSync(p)) *)
  listAttributes : nat → string → string → RemoteError + list Attribute;
}.

(** How the run ends: the loop is left normally, [process.exit(code)], a
    rejected promise reaches the caller, or the poller is still waiting
    when the query budget of the model is used up. *)
Inductive outcome : Type :=
| Completed : outcome
| Exited (code : Z) : outcome
| Rejected (message : string) : outcome
| Waiting : outcome.

Definition truthyBool (b : option bool) : bool := default false b.

Definition migrationsDir (w : World) : string :=
  Cli.path_join (Cli.path_join (cwd w) "appwrite") "migration".

Definition versionPath (w : World) (version : string) : string :=
  Cli.path_join (migrationsDir w) version.

Definition discover (w : World) : list string :=
  Discovery.versionDirs (λ dir, isDirectory w (versionPath w dir)) (readdirSync w).

Definition snapshotFilename : string := Cli.SNAPSHOT_FILENAME.

Definition snapshotPath (w : World) (version : string) : string :=
  Cli.path_join (versionPath w version) snapshotFilename.

(** Which index file of a version is loaded, if any. *)
Definition validIndexFile (w : World) (version : string) : option string :=
  let indexFile := Cli.path_join (versionPath w version) "index.ts" in
  let indexFileJs := Cli.path_join (versionPath w version) "index.js" in
  if existsSync w indexFile then Some indexFile
  else if existsSync w indexFileJs then Some indexFileJs
  else None.

(** The lines the runner prints. *)
Definition noIndexWarning (version : string) : event :=
  Warn ("Skipping " +:+ version +:+ ": No index.ts or index.js found.").
Definition loadError (file : string) : event :=
  Error ("Failed to load migration file " +:+ file +:+ ":").
Definition invalidError (version : string) : event :=
  Error ("Invalid migration file in " +:+ version +:+ ": Missing default export or id.").
Definition skippingLog (version migrationId : string) : event :=
  Log ("Version " +:+ version +:+ " (" +:+ migrationId +:+ ") already applied. Skipping.").
Definition applyingLog (version migrationId : string) : event :=
  Log ("Applying version " +:+ version +:+ " (" +:+ migrationId +:+ ")...").
Definition backupWarning : event :=
  Warn "Migration requires backup but BACKUP_COMMAND is not set. Proceeding with caution...".
Definition pushingLog (version : string) : event :=
  Log ("Pushing schema snapshot for " +:+ version +:+ "...").
Definition noSnapshotWarning (version : string) : event :=
  Warn ("No " +:+ snapshotFilename +:+ " found in " +:+ version +:+ ". Skipping schema sync.").
Definition appliedLog (version : string) : event :=
  Log ("Version " +:+ version +:+ " applied successfully.").

(** A stage of the per-version pipeline either lets the pipeline go on or
    ends the run. *)
Definition stage : Type := list event * option outcome.

(** 3. Backup hook. *)
Definition backupStage (w : World) (config : AppConfig) (version : string)
           (migration : Migration) : stage :=
  match truthyBool (requiresBackup migration), truthy (backupCommand config) with
  | true, Some command =>
      match execAsync w version command with
      | Returned => ([Log "Running backup command..."; Exec command], None)
      | Thrown _ =>
          ([Log "Running backup command..."; Exec command; Error "Backup failed:"],
           Some (Exited 1))
      end
  | true, None => ([backupWarning], None)
  | false, _ => ([], None)
  end.

(** 4. Schema sync via CLI push. *)
Definition pushStage (w : World) (version : string) : stage :=
  if existsSync w (snapshotPath w version) then
    match pushSnapshot w (snapshotPath w version) with
    | Returned =>
        ([pushingLog version; PushSnapshot (snapshotPath w version)], None)
    | Thrown message =>
        ([pushingLog version; PushSnapshot (snapshotPath w version);
          Error ("Schema push failed: " +:+ message);
          Error "Ensure 'appwrite-cli' is installed and accessible."],
         Some (Exited 1))
    end
  else ([noSnapshotWarning version], None).

(** 5. Attribute polling. *)
Definition pollStage (fuel : nat) (w : World) (version : string) (calls : nat)
  : nat * stage :=
  if existsSync w (snapshotPath w version) then
    match waitForAttributes (listAttributes w) fuel calls
            (readSnapshot w (snapshotPath w version)) with
    | (true, calls', evs) => (calls', (evs, None))
    | (false, calls', evs) => (calls', (evs, Some Waiting))
    end
  else (calls, ([], None)).

(** The context built for a version: both sinks prefix the version. *)
Definition context (version : string) : MigrationContext :=
  {| log := λ msg, Log ("[" +:+ version +:+ "] " +:+ msg);
     error := λ msg, Error ("[" +:+ version +:+ "] " +:+ msg) |}.

(** 6. Data execution. *)
Definition upStage (version : string) (migration : Migration) : stage :=
  match up migration with
  | Some action =>
      match call action (context version) with
      | (evs, Returned) =>
          (Log "Executing migration script..." :: Up version :: evs, None)
      | (evs, Thrown _) =>
          (Log "Executing migration script..." :: Up version :: evs
             ++ [Error "Migration script failed:"],
           Some (Exited 1))
      end
  | None => ([Log "Executing migration script..."], None)
  end.

(** 7. Finalization. *)
Definition recordStage (config : AppConfig) (version migrationId : string) (store : Store)
  : Store * stage :=
  match recordMigration config migrationId version store with
  | (evs, inr store') =>
      (store', (Log "Finalizing..." :: evs ++ [appliedLog version], None))
  | (evs, inl message) =>
      (store, (Log "Finalizing..." :: evs, Some (Rejected message)))
  end.

(** Stages 3 to 5, which make the remote schema ready for the script. *)
Definition prepare (fuel : nat) (w : World) (config : AppConfig) (version : string)
           (migration : Migration) (calls : nat) : nat * stage :=
  match backupStage w config version migration with
  | (e3, Some o) => (calls, (e3, Some o))
  | (e3, None) =>
      match pushStage w version with
      | (e4, Some o) => (calls, (e3 ++ e4, Some o))
      | (e4, None) =>
          let '(calls', (e5, o)) := pollStage fuel w version calls in
          (calls', (e3 ++ e4 ++ e5, o))
      end
  end.

(** Stages 3 to 7 for a migration that is to be applied. *)
Definition pipeline (fuel : nat) (w : World) (config : AppConfig) (version : string)
           (migration : Migration) (migrationId : string) (calls : nat) (store : Store)
  : nat * Store * stage :=
  match prepare fuel w config version migration calls with
  | (calls', (e, Some o)) => (calls', store, (e, Some o))
  | (calls', (e, None)) =>
      match upStage version migration with
      | (e6, Some o) => (calls', store, (e ++ e6, Some o))
      | (e6, None) =>
          let '(store', (e7, o)) := recordStage config version migrationId store in
          (calls', store', (e ++ e6 ++ e7, o))
      end
  end.

(** The [if (!migration || !migration.id)] branch. *)
Definition invalidMigration (version file : string) : stage :=
  ([Import file; invalidError version], Some (Exited 1)).

(** The body of the [for (const version of versionDirs)] loop. *)
Definition applyVersion (fuel : nat) (w : World) (config : AppConfig)
           (appliedSet : gset string) (version : string) (calls : nat) (store : Store)
  : nat * Store * stage :=
  match validIndexFile w version with
  | None => (calls, store, ([noIndexWarning version], None))
  | Some file =>
      match jitiImport w file with
      | ImportThrows => (calls, store, ([Import file; loadError file], Some (Exited 1)))
      | Module_ None => (calls, store, invalidMigration version file)
      | Module_ (Some migration) =>
          match truthy (id migration) with
          | None => (calls, store, invalidMigration version file)
          | Some migrationId =>
              if bool_decide (migrationId ∈ appliedSet) then
                (calls, store, ([Import file; skippingLog version migrationId], None))
              else
                let '(calls', store', (evs, o)) :=
                  pipeline fuel w config version migration migrationId calls store in
                (calls', store',
                 (Import file :: applyingLog version migrationId :: evs, o))
          end
      end
  end.

(** The result of a run: how it ended, what was printed before and after
    the loop, what each version that was reached contributed, and the
    tracking collection afterwards. *)
Record Run : Type := {
  ending : outcome;
  prologue : list event;
  versions : list (string * list event);
  epilogue : list event;
  final : Store;
}.

Fixpoint applyVersions (fuel : nat) (w : World) (config : AppConfig)
         (appliedSet : gset string) (versionDirs : list string) (calls : nat) (store : Store)
  : outcome * list (string * list event) * Store :=
  match versionDirs with
  | [] => (Completed, [], store)
  | version :: rest =>
      match applyVersion fuel w config appliedSet version calls store with
      | (calls', store', (evs, None)) =>
          let '(o, segs, store'') :=
            applyVersions fuel w config appliedSet rest calls' store' in
          (o, (version, evs) :: segs, store'')
      | (_, store', (evs, Some o)) => (o, [(version, evs)], store')
      end
  end.

(** Run pending migrations.  [config] is what [loadConfig] returned. *)
Definition runMigrations (fuel : nat) (w : World) (config : AppConfig) (store : Store) : Run :=
  let starting :=
    [Log "Starting migration process..."; Log "Configuring Appwrite CLI..."] in
  match Cli.configureClient (execClient w) config with
  | (evs, Thrown message) =>
      {| ending := Rejected message; prologue := starting ++ evs; versions := [];
         epilogue := []; final := store |}
  | (evs, Returned) =>
      let configured := starting ++ evs in
      if negb (existsSync w (migrationsDir w)) then
        {| ending := Exited 1;
           prologue := configured
             ++ [Error ("Migrations directory not found at " +:+ migrationsDir w)];
           versions := []; epilogue := []; final := store |}
      else
        let versionDirs := discover w in
        let found :=
          configured
            ++ [Log ("Found " +:+ pretty (length versionDirs) +:+ " versions.")] in
        match getAppliedMigrations config store with
        | (evs, inl message) =>
            {| ending := Rejected message; prologue := found ++ evs; versions := [];
               epilogue := []; final := store |}
        | (evs, inr appliedMigrationIds) =>
            let appliedSet : gset string := list_to_set appliedMigrationIds in
            let '(o, segs, store') :=
              applyVersions fuel w config appliedSet versionDirs 0%nat store in
            {| ending := o; prologue := found ++ evs; versions := segs;
               epilogue :=
                 match o with Completed => [Log "All migrations applied."] | _ => [] end;
               final := store' |}
        end
  end.

(** The whole run as one sequence of events. *)
Definition trace (r : Run) : list event :=
  prologue r ++ concat (snd <$> versions r) ++ epilogue r.

(** The identifiers the run fetched at its start. *)
Definition fetched (config : AppConfig) (store : Store) : option (list string) :=
  match (getAppliedMigrations config store).2 with
  | inr ids => Some ids
  | inl _ => None
  end.

(** The definition a version directory loads, with its usable id. *)
Definition definition (w : World) (version : string) : option (string * Migration * string) :=
  file ← validIndexFile w version;
  match jitiImport w file with
  | Module_ (Some migration) =>
      migrationId ← truthy (id migration); Some (file, migration, migrationId)
  | _ => None
  end.

(** The part of a run that belongs to its [n]-th version. *)
Definition segment (n : nat) (r : Run) : list event :=
  (nth n (versions r) ("", [])).2.

(** Kinds of events. *)
Definition isUp (e : event) : bool :=
  match e with Up _ => true | _ => false end.
Definition isRecord (e : event) : bool :=
  match e with CreateDocument _ _ _ _ => true | _ => false end.
Definition isFetch (e : event) : bool :=
  match e with ListDocuments _ _ => true | _ => false end.
Definition isPush (e : event) : bool :=
  match e with PushSnapshot _ => true | _ => false end.

(** What the poller and the stages before the script can issue. *)
Definition isPreparing (e : event) : bool :=
  match e with
  | Log _ | Warn _ | Error _ | Exec _ | PushSnapshot _ | ListAttributes _ _ | Sleep _ => true
  | Import _ | ListDocuments _ _ | CreateDocument _ _ _ _ | Up _ => false
  end.

(** A console line. *)
Definition isConsole (e : event) : bool :=
  match e with
  | Log _ | Warn _ | Error _ => true
  | _ => false
  end.

(** Neither the user action nor a write of an applied record. *)
Definition isQuiet (e : event) : bool := negb (isUp e) && negb (isRecord e).

(** What reaches outside the process on behalf of a version: a child
    process, a schema push, a remote query or write, the user action. *)
Definition isSideEffect (e : event) : bool :=
  match e with
  | Exec _ | PushSnapshot _ | ListAttributes _ _ | ListDocuments _ _
  | CreateDocument _ _ _ _ | Sleep _ | Up _ => true
  | Log _ | Warn _ | Error _ | Import _ => false
  end.

(** [store'] is [store] with further identifiers on record after those
    it held: new ones, pairwise different, each with the property [P]. *)
Definition appended (P : string → Prop) (store store' : Store) : Prop :=
  ∃ added,
    documentIds store' = documentIds store ++ added ∧
    NoDup added ∧
    ∀ j, j ∈ added → (j ∉ documentIds store) ∧ P j.

(** The identifiers of the versions that load and are not among
    [applied], in the order of [dirs]. *)
Definition pendingIds (w : World) (applied : list string) (dirs : list string)
  : list string :=
  omap (λ version,
          match definition w version with
          | Some (_, _, i) => if bool_decide (i ∈ applied) then None else Some i
          | None => None
          end) dirs.

End Runner.

(** ** Sample data for the examples *)

Module Sample.

(** A stand-in for the JSON library, enough to tell an object from text
    that is no JSON at all: a document is kept as its text. *)
Definition parse (text : string) : option string :=
  match text with
  | String c _ => if Ascii.eqb c "{" then Some text else None
  | EmptyString => None
  end.
Definition setProjectId (data project : string) : option string := Some data.
Definition stringify (data : string) : string := data.

(** A tool that succeeds and leaves the disk alone. *)
Definition tool (cmd : string) (fs : Cli.FS) : Cli.FS * option string := (fs, None).

Definition config : AppConfig :=
  {| endpoint := "https://cloud.appwrite.io/v1"; projectId := "prod";
     apiKey := "secret"; migrationCollectionId := "migrations";
     database := "system"; backupCommand := None |}.

Definition rootDir : string := "/srv/app".
Definition snapshotPath : string := "/srv/app/appwrite/migration/v1/appwrite.config.json".

(** A project whose root snapshot is an empty object and whose version
    snapshot was overwritten by an HTML error page. *)
Definition disk : Cli.FS :=
  {[ "/srv/app/appwrite.config.json" := "{}";
     snapshotPath := "<html>502 Bad Gateway</html>" ]}.


Definition users : Poller.Table :=
  {| Poller.table_id := "users"; Poller.name := "Users";
     Poller.databaseId := Some "main" |}.
Definition legacy : Poller.Table :=
  {| Poller.table_id := "legacy"; Poller.name := "Legacy";
     Poller.databaseId := None |}.

Definition email (status : string) : Poller.Attribute :=
  {| Poller.key := "email"; Poller.status := status |}.

Definition timeout : Appwrite.RemoteError :=
  {| Appwrite.code := None; Appwrite.message := "fetch failed" |}.

(** Three remotes: one whose first answer is a server error, one whose
    first answer is a network failure, one where the attribute is still
    processing at the first query; later answers are all fine. *)
Definition remoteAfter (first : Appwrite.RemoteError + list Poller.Attribute)
  : nat → string → string → Appwrite.RemoteError + list Poller.Attribute :=
  λ n _ _, match n with O => first | S _ => inr [email "available"] end.

Definition schema : Poller.Schema := {| Poller.tables := Some [legacy; users] |}.


(** A project with two version directories, each with an [index.ts] and
    without a snapshot; [load] is what the index files export and
    [backup] how the backup command ends. *)
Definition v1_index : string := "/srv/app/appwrite/migration/v1/index.ts".
Definition v2_index : string := "/srv/app/appwrite/migration/v2/index.ts".

Definition world (load : string → Runner.imported) (backup : completion) : Runner.World :=
  {| Runner.cwd := rootDir;
     Runner.execClient := λ _, None;
     Runner.existsSync :=
       λ p, bool_decide (p ∈ ["/srv/app/appwrite/migration"; v1_index; v2_index]);
     Runner.readdirSync := ["v2"; "config.json"; "v1"];
     Runner.isDirectory :=
       λ p, negb (String.eqb p "/srv/app/appwrite/migration/config.json");
     Runner.jitiImport := load;
     Runner.execAsync := λ _ _, backup;
     Runner.pushSnapshot := λ _, Returned;
     Runner.readSnapshot := λ _, None;
     Runner.listAttributes := remoteAfter (inr []) |}.

Definition exports (v1 v2 : option Runner.Migration) : string → Runner.imported :=
  λ file, if String.eqb file v1_index then Runner.Module_ v1 else Runner.Module_ v2.

Definition seed : Runner.MigrationFunction :=
  {| Runner.lines := [Runner.ToLog "seeding"]; Runner.settles := Returned |}.

Definition migration (i : option string) (backup : bool)
           (action : option Runner.MigrationFunction) : Runner.Migration :=
  {| Runner.id := i; Runner.description := None; Runner.requiresBackup := Some backup;
     Runner.up := action; Runner.down := None |}.

Definition withBackup : AppConfig :=
  {| endpoint := "https://cloud.appwrite.io/v1"; projectId := "prod";
     apiKey := "secret"; migrationCollectionId := "migrations";
     database := "system"; backupCommand := Some "pg_dump app" |}.

Definition applied (ids : list string) : Appwrite.Store :=
  Appwrite.Collection ((λ i, {| Appwrite.doc_id := i; Appwrite.doc_name := "v" |}) <$> ids).

(** Both versions applied before: ids A and B are on record. *)
Definition bothApplied : Runner.World :=
  world (exports (Some (migration (Some "A") false (Some seed)))
                 (Some (migration (Some "B") true (Some seed))))
    Returned.

(** v1 requires a backup and the backup command fails. *)
Definition backupFails : Runner.World :=
  world (exports (Some (migration (Some "A") true (Some seed)))
                 (Some (migration (Some "B") false (Some seed))))
    (Thrown "Command failed: pg_dump app").

(** v1 has an id and no up action. *)
Definition withoutUp : Runner.World :=
  world (exports (Some (migration (Some "A") false None))
                 (Some (migration (Some "B") false (Some seed))))
    Returned.

(** v1 exports nothing by default. *)
Definition withoutDefault : Runner.World :=
  world (exports None (Some (migration (Some "B") false (Some seed)))) Returned.

(** v1 and v2 carry the same id. *)
Definition sameId : Runner.World :=
  world (exports (Some (migration (Some "A") false (Some seed)))
                 (Some (migration (Some "A") false (Some seed))))
    Returned.

(** The scenario of two versions: v1 (id A, no snapshot, no backup) and
    v2 (id B, with a snapshot, backup required and succeeding), where the
    one attribute of the one polled table is still processing at the
    first query. *)
Definition v2_snapshot : string :=
  "/srv/app/appwrite/migration/v2/appwrite.config.json".

Definition twoVersions : Runner.World :=
  {| Runner.cwd := rootDir;
     Runner.execClient := λ _, None;
     Runner.existsSync :=
       λ p, bool_decide (p ∈ ["/srv/app/appwrite/migration"; v1_index; v2_index;
                              v2_snapshot]);
     Runner.readdirSync := ["v2"; "config.json"; "v1"];
     Runner.isDirectory :=
       λ p, negb (String.eqb p "/srv/app/appwrite/migration/config.json");
     Runner.jitiImport :=
       exports (Some (migration (Some "A") false (Some seed)))
               (Some (migration (Some "B") true (Some seed)));
     Runner.execAsync := λ _ _, Returned;
     Runner.pushSnapshot := λ _, Returned;
     Runner.readSnapshot := λ _, Some schema;
     Runner.listAttributes := remoteAfter (inr [email "processing"]) |}.

End Sample.

(** ** Configuration resolver ([loadConfig] of [lib/config.ts]) *)

Module Config.
Import Poller.

(** What [JSON.parse] of [appwrite/migration/config.json] gives, as far
    as it is read: the three keys, each of which may be missing.  Their
    values are strings; a file that sets one of them to a number or an
    object is outside the model. *)
Record FileConfig : Type := {
  file_collection : option string;
  file_database : option string;
  file_databaseId : option string;
}.

(** Load configuration from environment variables or .env file.  [env]
    is [process.env] once [dotenv] has read the file; [configFile] is [None]
    when there is no [config.json], [Some None] when reading or parsing it
    throws, and the decoded object otherwise. *)
Definition loadConfig (env : gmap string string) (configFile : option (option FileConfig))
  : list event * (string + AppConfig) :=
  let endpoint := env !! "APPWRITE_ENDPOINT" in
  let projectId := env !! "APPWRITE_PROJECT_ID" in
  let apiKey := env !! "APPWRITE_API_KEY" in
  let backupCommand := env !! "BACKUP_COMMAND" in
  match truthy endpoint, truthy projectId, truthy apiKey with
  | Some endpoint, Some projectId, Some apiKey =>
      let migrationCollectionId := "migrations" in
      let database := "system" in
      let '(evs, migrationCollectionId, database) :=
        match configFile with
        | None => ([], migrationCollectionId, database)
        | Some None =>
            ([Warn "Could not parse config.json, using defaults."],
             migrationCollectionId, database)
        | Some (Some fileConfig) =>
            ([],
             default migrationCollectionId (truthy (file_collection fileConfig)),
             match truthy (file_database fileConfig) with
             | Some d => d
             | None => default database (truthy (file_databaseId fileConfig))
             end)
        end in
      (evs,
       inr {| endpoint := endpoint; projectId := projectId; apiKey := apiKey;
              migrationCollectionId := migrationCollectionId; database := database;
              backupCommand := backupCommand |})
  | _, _, _ =>
      ([],
       inl ("Missing required environment variables: "
            +:+ "APPWRITE_ENDPOINT, APPWRITE_PROJECT_ID, APPWRITE_API_KEY"))
  end.

End Config.

(** ** Setup of the tracking collection ([ensureMigrationCollection] of
    [lib/appwrite.ts]) *)

Module Setup.
Import Appwrite.

(** An attribute as [createStringAttribute] and [createDatetimeAttribute]
    declare it. *)
Inductive AttributeSpec : Type :=
| StringAttribute (key : string) (size : Z) (required : bool)
| DatetimeAttribute (key : string) (required : bool).

Definition attributeKey (a : AttributeSpec) : string :=
  match a with
  | StringAttribute key _ _ => key
  | DatetimeAttribute key _ => key
  end.

Record RemoteCollection : Type := {
  collection_name : string;
  attributes : list AttributeSpec;
  documents : list Document;
}.

(** The remote project as the setup sees it: databases by id (with their
    names) and collections by database and id. *)
Record Remote : Type := {
  databases : gmap string string;
  collections : gmap (string * string) RemoteCollection;
}.

(** The calls of the SDK that the setup makes. *)
Inductive call : Type :=
| GetDatabase (id : string)
| CreateDatabase (id name : string)
| GetCollection (databaseId id : string)
| CreateCollection (databaseId id name : string)
| CreateStringAttribute (databaseId collectionId key : string) (size : Z) (required : bool)
| CreateDatetimeAttribute (databaseId collectionId key : string) (required : bool).

Definition alreadyExists : RemoteError :=
  {| code := Some 409; message := "already exists" |}.

Definition addAttribute (a : AttributeSpec) (databaseId collectionId : string) (r : Remote)
  : RemoteError + Remote :=
  match collections r !! (databaseId, collectionId) with
  | None => inl notFound
  | Some c =>
      if bool_decide (attributeKey a ∈ attributeKey <$> attributes c) then inl alreadyExists
      else
        inr {| databases := databases r;
               collections :=
                 <[(databaseId, collectionId) :=
                     {| collection_name := collection_name c;
                        attributes := attributes c ++ [a];
                        documents := documents c |}]> (collections r) |}
  end.

(** The answer of a remote that works: what is asked for is there or the
    call is rejected with 404, what is created is new or the call is
    rejected with 409. *)
Definition respond (c : call) (r : Remote) : RemoteError + Remote :=
  match c with
  | GetDatabase id =>
      if bool_decide (is_Some (databases r !! id)) then inr r else inl notFound
  | CreateDatabase id name =>
      if bool_decide (is_Some (databases r !! id)) then inl alreadyExists
      else inr {| databases := <[id := name]> (databases r); collections := collections r |}
  | GetCollection databaseId id =>
      if bool_decide (is_Some (collections r !! (databaseId, id))) then inr r
      else inl notFound
  | CreateCollection databaseId id name =>
      if bool_decide (is_Some (databases r !! databaseId)) then
        if bool_decide (is_Some (collections r !! (databaseId, id))) then inl alreadyExists
        else
          inr {| databases := databases r;
                 collections :=
                   <[(databaseId, id) :=
                       {| collection_name := name; attributes := []; documents := [] |}]>
                     (collections r) |}
      else inl notFound
  | CreateStringAttribute databaseId collectionId key size required =>
      addAttribute (StringAttribute key size required) databaseId collectionId r
  | CreateDatetimeAttribute databaseId collectionId key required =>
      addAttribute (DatetimeAttribute key required) databaseId collectionId r
  end.

(** A call against a remote that may also reject calls for reasons of its
    own ([faults]: bad key, outage). *)
Definition perform (faults : call → option RemoteError) (c : call) (r : Remote)
  : RemoteError + Remote :=
  match faults c with
  | Some e => inl e
  | None => respond c r
  end.

(** What the setup does, in order: a console line or a call. *)
Definition step : Type := event + call.

(** Calls awaited one after the other; the first rejection is thrown. *)
Fixpoint performAll (faults : call → option RemoteError) (cs : list call) (r : Remote)
  : Remote * list step * completion :=
  match cs with
  | [] => (r, [], Returned)
  | c :: rest =>
      match perform faults c r with
      | inl e => (r, [inr c], Thrown (message e))
      | inr r' =>
          let '(r'', steps, result) := performAll faults rest r' in
          (r'', inr c :: steps, result)
      end
  end.

(** One [try { get } catch { if 404 create else throw }] block. *)
Definition ensure (faults : call → option RemoteError) (get : call) (creating : event)
           (create : list call) (r : Remote) : Remote * list step * completion :=
  match perform faults get r with
  | inr r' => (r', [inr get], Returned)
  | inl e =>
      if bool_decide (code e = Some 404) then
        let '(r', steps, result) := performAll faults create r in
        (r', inr get :: inl creating :: steps, result)
      else (r, [inr get], Thrown (message e))
  end.

(** Ensure the system database and migrations collection exist. *)
Definition ensureMigrationCollection (faults : call → option RemoteError) (config : AppConfig)
           (r : Remote) : Remote * list step * completion :=
  let db := database config in
  let coll := migrationCollectionId config in
  match ensure faults (GetDatabase db)
          (Log ("Creating system database '" +:+ db +:+ "'..."))
          [CreateDatabase db db] r with
  | (r1, steps, Thrown message) => (r1, steps, Thrown message)
  | (r1, steps, Returned) =>
      let '(r2, steps', result) :=
        ensure faults (GetCollection db coll)
          (Log ("Creating migration collection '" +:+ coll +:+ "'..."))
          [CreateCollection db coll coll;
           CreateStringAttribute db coll "name" 255 true;
           CreateDatetimeAttribute db coll "appliedAt" true] r1 in
      (r2, steps ++ steps', result)
  end.

(** A remote without faults of its own. *)
Definition reliable : call → option RemoteError := λ _, None.

(** The tracking collection of a remote, as the state store client of the
    runner sees it. *)
Definition storeOf (config : AppConfig) (r : Remote) : Store :=
  match collections r !! (database config, migrationCollectionId config) with
  | Some c => Collection (documents c)
  | None => Missing
  end.

(** The calls among the steps. *)
Definition calls (steps : list step) : list call :=
  omap (λ s, match s with inr c => Some c | inl _ => None end) steps.

(** A remote that rejects the creation of attributes with [e] and works
    otherwise. *)
Definition attributesRejected (e : RemoteError) : call → option RemoteError :=
  λ c, match c with
       | CreateStringAttribute _ _ _ _ _ | CreateDatetimeAttribute _ _ _ _ => Some e
       | _ => None
       end.

End Setup.

(** ** The [migrations create] command ([cli/index.ts]) *)

Module Create.
Import JS Discovery Cli.

Definition quote : string := String (Ascii.ascii_of_nat 34) EmptyString.
Definition newline : string := String (Ascii.ascii_of_nat 10) EmptyString.
Definition quoted (s : string) : string := quote +:+ s +:+ quote.

(** The [index.ts] written for a new version. *)
Definition indexContent (uuid name : string) : string :=
  String.concat newline
    [ "import { Migration } from " +:+ quoted "appwrite-ctl" +:+ ";";
      EmptyString;
      "const migration: Migration = {";
      "  id: " +:+ quoted uuid +:+ ",";
      "  description: " +:+ quoted name +:+ ",";
      "  requiresBackup: false,";
      "  up: async ({ client, databases, log, error }) => {";
      "    log(" +:+ quoted ("Executing up migration for " +:+ name) +:+ ");";
      "    // Write your migration logic here";
      "  },";
      "  down: async ({ client, databases, log, error }) => {";
      "    log(" +:+ quoted ("Executing down migration for " +:+ name) +:+ ");";
      "  }";
      "};";
      EmptyString;
      "export default migration;";
      EmptyString ].

(** [JSON.stringify(emptySnapshot, null, 2)] *)
Definition emptySnapshot : string :=
  String.concat newline
    [ "{";
      "  " +:+ quoted "projectId" +:+ ": " +:+ quoted EmptyString +:+ ",";
      "  " +:+ quoted "projectName" +:+ ": " +:+ quoted EmptyString +:+ ",";
      "  " +:+ quoted "settings" +:+ ": {},";
      "  " +:+ quoted "tablesDB" +:+ ": [],";
      "  " +:+ quoted "tables" +:+ ": [],";
      "  " +:+ quoted "buckets" +:+ ": [],";
      "  " +:+ quoted "teams" +:+ ": [],";
      "  " +:+ quoted "topics" +:+ ": []";
      "}" ].

(** [versionDirs] of the command: the numbers of the version
    directories, sorted with the comparator [a - b]. *)
Definition versionNumbers (isDirectory : string → bool) (entries : list string)
  : list number :=
  JS.sort JS.sub (seqNum <$> kept isDirectory entries).

(** [(versionDirs.length > 0 ? versionDirs[versionDirs.length - 1] : 0) + 1] *)
Definition nextVersion (versionDirs : list number) : number :=
  JS.add (default (Int 0) (last versionDirs)) (Int 1).

Definition versionName (n : number) : string := "v" +:+ toString n.

(** The number as an integer, where it is one. *)
Definition asInteger (n : number) : Z :=
  match n with
  | Int z => z
  | NaN => 0
  end.

Section Command.
(** What [loadConfig] reads, the two faces of the command line tool,
    [process.cwd()] and the identifier [uuidv4()] draws. *)
Variable env : gmap string string.
Variable configFile : option (option Config.FileConfig).
Variable execClient : string → option string.
Variable execAsync : string → FS → FS * option string.
Variable rootDir : string.
Variable uuid : string.

Definition migrationsDir : string := path_join (path_join rootDir "appwrite") "migration".

(** The body of the [try]: the error message when one of the three calls
    throws. *)
Definition pullInto (versionPath : string) (fs : FS) : FS * list event * option string :=
  match Config.loadConfig env configFile with
  | (evs, inl message) => (fs, evs, Some message)
  | (evs, inr config) =>
      match configureClient execClient config with
      | (evs', Thrown message) => (fs, evs ++ evs', Some message)
      | (evs', Returned) =>
          let '(fs', evs'', result) := pullSnapshot execAsync rootDir versionPath fs in
          (fs', evs ++ evs' ++ evs'',
           match result with inl message => Some message | inr _ => None end)
      end
  end.

(** The snapshot the new version starts from, if there is one on disk:
    that of the directory named after the last number, or the one at the
    project root. *)
Definition snapshotSource (versionDirs : list number) (fs : FS) : option string :=
  let snapshotFilename := getSnapshotFilename in
  let fromLast :=
    match last versionDirs with
    | Some n =>
        let lastVersionPath :=
          path_join (path_join migrationsDir (versionName n)) snapshotFilename in
        if existsSync fs lastVersionPath then Some lastVersionPath else None
    | None => None
    end in
  match fromLast with
  | Some source => Some source
  | None =>
      let rootConfig := path_join rootDir snapshotFilename in
      if existsSync fs rootConfig then Some rootConfig else None
  end.

(** Create a new migration version.  [entries] is what [readdirSync]
    gives for the migrations directory (made first when missing, and empty
    then), [isDirectory] answers [statSync] for its entries; [mkdirSync]
    of the new directory throws when an entry of that name is there. *)
Definition create (isDirectory : string → bool) (entries : list string) (fs : FS)
  : FS * list event * completion :=
  let snapshotFilename := getSnapshotFilename in
  let versionDirs := versionNumbers isDirectory entries in
  let nextVersion := nextVersion versionDirs in
  let versionPath := path_join migrationsDir (versionName nextVersion) in
  let name := "migration_v" +:+ toString nextVersion in
  if bool_decide (versionName nextVersion ∈ entries) then
    (fs, [], Thrown ("EEXIST: file already exists, mkdir '" +:+ versionPath +:+ "'"))
  else
    let fs1 := writeFileSync (path_join versionPath "index.ts") (indexContent uuid name) fs in
    let created :=
      Log ("Created migration v" +:+ toString nextVersion +:+ " at " +:+ versionPath) in
    match snapshotSource versionDirs fs1 with
    | Some source =>
        (copyFileSync source (path_join versionPath snapshotFilename) fs1,
         [Log ("Copied snapshot from " +:+ source); created], Returned)
    | None =>
        (* No local snapshot - pull from Appwrite via CLI. *)
        let pulling := Log "No previous snapshot found. Pulling from Appwrite via CLI..." in
        match pullInto versionPath fs1 with
        | (fs2, evs, None) =>
            (fs2,
             pulling :: evs ++ [Log "Successfully pulled snapshot from Appwrite."; created],
             Returned)
        | (fs2, evs, Some message) =>
            (writeFileSync (path_join versionPath snapshotFilename) emptySnapshot fs2,
             pulling :: evs
               ++ [Error ("Failed to pull snapshot: " +:+ message);
                   Warn "Creating empty snapshot placeholder."; created],
             Returned)
        end
    end.
End Command.

End Create.

(** ** Export of the project schema ([fetchProjectSchema]) *)

Module SchemaExport.
Import Appwrite.

(** A collection as the SDK returns it, a JavaScript object: field name
    to value. *)
Abbreviation object := (gmap string string).

(** The project on the remote side: the identifiers of its databases in
    listing order, and the collections of each, or the error the remote
    answers with. *)
Record Remote : Type := {
  listing : RemoteError + list string;
  collectionsOf : string → RemoteError + list object;
}.

(** [databases.list([Query.limit(n)])] and
    [databases.listCollections(db, [Query.limit(n)])] *)
Definition listDatabases (limit : nat) (remote : Remote) : RemoteError + list string :=
  match listing remote with
  | inr dbs => inr (take limit dbs)
  | inl err => inl err
  end.
Definition listCollections (db : string) (limit : nat) (remote : Remote)
  : RemoteError + list object :=
  match collectionsOf remote db with
  | inr cols => inr (take limit cols)
  | inl err => inl err
  end.

(** What the export does, in order: a console line or a query. *)
Inductive step : Type :=
| Printed (e : event)
| ListDatabases (limit : nat)
| ListCollections (db : string) (limit : nat).

Record ProjectSchema : Type := {
  schema_projectId : string;
  schema_projectName : string;
  schema_collections : list object;
}.

(** [{ ...col, databaseId: db.$id }] *)
Definition collectionData (db : string) (col : object) : object :=
  <["databaseId" := db]> col.

(** The loop over the databases; [allCollections] is what has been
    pushed so far. *)
Fixpoint fetchCollections (remote : Remote) (dbs : list string) (allCollections : list object)
  : list step * (RemoteError + list object) :=
  match dbs with
  | [] => ([], inr allCollections)
  | db :: rest =>
      if String.eqb db "system" then fetchCollections remote rest allCollections
      else
        let fetching := Printed (Log ("Fetching collections for database " +:+ db +:+ "...")) in
        match listCollections db 100 remote with
        | inr cols =>
            let '(steps, result) :=
              fetchCollections remote rest (allCollections ++ (collectionData db <$> cols)) in
            (fetching :: ListCollections db 100
               :: Printed (Log ("Found " +:+ pretty (length cols) +:+ " collections in "
                                +:+ db +:+ "."))
               :: steps,
             result)
        | inl err =>
            ([fetching; ListCollections db 100;
              Printed (Error ("Error fetching collections for DB " +:+ db +:+ ": "
                              +:+ message err))],
             inl err)
        end
  end.

Definition fetchProjectSchema (config : AppConfig) (remote : Remote)
  : list step * (RemoteError + ProjectSchema) :=
  match listDatabases 100 remote with
  | inl err => ([ListDatabases 100], inl err)
  | inr dbs =>
      let '(steps, result) := fetchCollections remote dbs [] in
      (ListDatabases 100
         :: Printed (Log ("Found " +:+ pretty (length dbs) +:+ " databases."))
         :: steps,
       match result with
       | inr allCollections =>
           inr {| schema_projectId := projectId config;
                  schema_projectName := projectId config;
                  schema_collections := allCollections |}
       | inl err => inl err
       end)
  end.

(** The databases whose collections are asked for. *)
Definition asked (steps : list step) : list string :=
  omap (λ s, match s with ListCollections db _ => Some db | _ => None end) steps.

(** The databases of a listing that are exported. *)
Definition exported (dbs : list string) : list string :=
  List.filter (λ db, negb (String.eqb db "system")) (take 100 dbs).

(** What one database adds to the export. *)
Definition collectionsFor (remote : Remote) (db : string) : list object :=
  match listCollections db 100 remote with
  | inr cols => collectionData db <$> cols
  | inl _ => []
  end.

End SchemaExport.

(** ** Sample data for the further properties *)

Module Fixture.

(** A project with a root snapshot and a version snapshot that decodes. *)
Definition healthy : Cli.FS :=
  {[ "/srv/app/appwrite.config.json" := "{}";
     Sample.snapshotPath := "{tables}";
     "/srv/app/package.json" := "{name}" ]}.

(** A tool whose push of the buckets is rejected. *)
Definition bucketsFail (cmd : string) (fs : Cli.FS) : Cli.FS * option string :=
  (fs, if String.eqb cmd "appwrite push buckets --all --force" then Some "exit code 1"
       else None).

(** A tool whose every pull writes the root snapshot. *)
Definition pulling (cmd : string) (fs : Cli.FS) : Cli.FS * option string :=
  (<["/srv/app/appwrite.config.json" := "{pulled}"]> fs, None).

(** A tool that cannot reach the server. *)
Definition offline (cmd : string) (fs : Cli.FS) : Cli.FS * option string :=
  (fs, Some "fetch failed").

Definition v3 : string := "/srv/app/appwrite/migration/v3".

(** [n] records of migrations applied long ago. *)
Definition older (n : nat) : list Appwrite.Document :=
  (λ k, {| Appwrite.doc_id := "m" +:+ pretty k; Appwrite.doc_name := "v0" |}) <$> seq 0 n.

(** A remote on which the one attribute of every table has failed for
    good. *)
Definition stuck : nat → string → string → Appwrite.RemoteError + list Poller.Attribute :=
  λ _ _ _, inr [Sample.email "failed"].

(** The project of [Sample.twoVersions] with a tool that rejects the
    schema push. *)
Definition pushRejected : Runner.World :=
  {| Runner.cwd := Sample.rootDir;
     Runner.execClient := λ _, None;
     Runner.existsSync :=
       λ p, bool_decide (p ∈ ["/srv/app/appwrite/migration"; Sample.v1_index;
                              Sample.v2_index; Sample.v2_snapshot]);
     Runner.readdirSync := ["v2"; "config.json"; "v1"];
     Runner.isDirectory :=
       λ p, negb (String.eqb p "/srv/app/appwrite/migration/config.json");
     Runner.jitiImport :=
       Sample.exports (Some (Sample.migration (Some "A") false (Some Sample.seed)))
                      (Some (Sample.migration (Some "B") true (Some Sample.seed)));
     Runner.execAsync := λ _ _, Returned;
     Runner.pushSnapshot := λ _, Thrown "exit code 1";
     Runner.readSnapshot := λ _, Some Sample.schema;
     Runner.listAttributes := Sample.remoteAfter (inr [Sample.email "processing"]) |}.

(** A user action that reports and rejects. *)
Definition failing : Runner.MigrationFunction :=
  {| Runner.lines := [Runner.ToError "no such table"];
     Runner.settles := Thrown "no such table" |}.

(** v1 is fine, the action of v2 rejects. *)
Definition upRejected : Runner.World :=
  Sample.world
    (Sample.exports (Some (Sample.migration (Some "A") false (Some Sample.seed)))
                    (Some (Sample.migration (Some "B") false (Some failing))))
    Returned.

(** A remote project with one database of its own and nothing else. *)
Definition bare : Setup.Remote :=
  {| Setup.databases := {[ "main" := "Main" ]}; Setup.collections := ∅ |}.

Definition quota : Appwrite.RemoteError :=
  {| Appwrite.code := Some 400; Appwrite.message := "attribute limit exceeded" |}.

(** An environment with the three credentials and a backup command. *)
Definition env : gmap string string :=
  {[ "APPWRITE_ENDPOINT" := "https://cloud.appwrite.io/v1";
     "APPWRITE_PROJECT_ID" := "prod";
     "APPWRITE_API_KEY" := "secret";
     "BACKUP_COMMAND" := "pg_dump app" ]}.

(** A migrations directory with three versions and the configuration
    file, and one where the only directory carries no number. *)
Definition listing : list string := ["v2"; "config.json"; "v10"; "v1"].
Definition isDirectory : string → bool := λ dir, negb (String.eqb dir "config.json").
Definition unnumbered : list string := ["config.json"; "vnext"].

(** A project without a root snapshot. *)
Definition rootless : Cli.FS := {[ Sample.snapshotPath := "{tables}" ]}.

End Fixture.

(** * Properties *)

(** ** Sorting *)

Section SortFacts.
Context {A : Type} (comparefn : A → A → JS.number).

Lemma insert_sorted_Permutation (x : A) (l : list A) :
  JS.insert_sorted comparefn x l ≡ₚ x :: l.
Proof.
  induction l as [|y l IH]; simpl; [done|].
  destruct (JS.SortCompare comparefn x y <=? 0); [done|].
  rewrite IH. apply Permutation_swap.
Qed.

Lemma sort_Permutation (l : list A) : JS.sort comparefn l ≡ₚ l.
Proof.
  induction l as [|x l IH]; simpl; [done|].
  by rewrite insert_sorted_Permutation, IH.
Qed.

(** Where the comparator is the difference of integer keys, the result is
    in ascending key order. *)
Section Keyed.
Variable key : A → Z.

Lemma insert_sorted_keyed (x : A) (l : list A) :
  (∀ y, y ∈ l → JS.SortCompare comparefn x y = key x - key y) →
  StronglySorted (λ a b, key a ≤ key b) l →
  StronglySorted (λ a b, key a ≤ key b) (JS.insert_sorted comparefn x l).
Proof.
  induction l as [|y l IH]; intros Hcmp Hs; simpl.
  - repeat constructor.
  - apply StronglySorted_cons in Hs as [Hy Hs].
    rewrite (Hcmp y) by set_solver.
    destruct (Z.leb_spec (key x - key y) 0) as [Hle|Hgt].
    + apply StronglySorted_cons; split.
      * constructor; [lia|].
        eapply Forall_impl; [exact Hy|]. simpl. intros; lia.
      * by apply StronglySorted_cons.
    + apply StronglySorted_cons; split.
      * rewrite insert_sorted_Permutation. constructor; [lia|done].
      * apply IH; [|done]. intros z Hz. apply Hcmp. set_solver.
Qed.

Lemma sort_keyed (l : list A) :
  (∀ x y, x ∈ l → y ∈ l → JS.SortCompare comparefn x y = key x - key y) →
  StronglySorted (λ a b, key a ≤ key b) (JS.sort comparefn l).
Proof.
  induction l as [|x l IH]; intros Hcmp; simpl; [constructor|].
  apply insert_sorted_keyed.
  - intros y Hy. rewrite sort_Permutation in Hy. apply Hcmp; set_solver.
  - apply IH. intros; apply Hcmp; set_solver.
Qed.
End Keyed.
End SortFacts.

Lemma StronglySorted_weaken {A : Type} (R R' : relation A) (P : A → Prop) (l : list A) :
  (∀ a b, P a → P b → R a b → R' a b) →
  Forall P l → StronglySorted R l → StronglySorted R' l.
Proof.
  intros HR HP Hs. induction Hs as [|x l Hs IH Hx]; [constructor|].
  apply Forall_cons in HP as [Px Pl].
  constructor; [by apply IH|].
  rewrite Forall_forall in *. intros y Hy. apply HR; auto.
Qed.

(** ** Discovery *)

Section DiscoveryFacts.
Import JS Discovery.

Lemma versionDirs_kept isDirectory entries :
  versionDirs isDirectory entries = sort compareDirs (kept isDirectory entries).
Proof. reflexivity. Qed.

Lemma versionDirs_Permutation isDirectory entries :
  versionDirs isDirectory entries ≡ₚ kept isDirectory entries.
Proof. rewrite versionDirs_kept. apply sort_Permutation. Qed.


Lemma isSafeInteger_Int n :
  isSafeInteger n = true → ∃ z, n = Int z.
Proof. destruct n; [discriminate|eauto]. Qed.

Lemma compareDirs_keyed a b :
  isSafeInteger (seqNum a) = true → isSafeInteger (seqNum b) = true →
  SortCompare compareDirs a b = seqZ a - seqZ b.
Proof.
  intros [x Hx]%isSafeInteger_Int [y Hy]%isSafeInteger_Int.
  unfold SortCompare, compareDirs, seqZ. by rewrite Hx, Hy.
Qed.

Lemma versionDirs_keyed isDirectory entries :
  Forall (λ dir, isSafeInteger (seqNum dir) = true) (kept isDirectory entries) →
  StronglySorted (λ a b, seqZ a ≤ seqZ b) (versionDirs isDirectory entries).
Proof.
  intros Hsafe. rewrite versionDirs_kept. apply sort_keyed.
  rewrite Forall_forall in Hsafe.
  intros x y Hx Hy. apply compareDirs_keyed; auto.
Qed.

Lemma NoDup_fmap_eq {A B : Type} (f : A → B) (l : list A) x y :
  NoDup (f <$> l) → x ∈ l → y ∈ l → f x = f y → x = y.
Proof.
  induction l as [|a l IH]; intros Hnd Hx Hy Hxy; [by apply elem_of_nil in Hx|].
  rewrite fmap_cons in Hnd. apply NoDup_cons in Hnd as [Ha Hnd].
  apply elem_of_cons in Hx as [->|Hx]; apply elem_of_cons in Hy as [->|Hy]; auto.
  - exfalso. apply Ha. rewrite Hxy. by apply list_elem_of_fmap_2.
  - exfalso. apply Ha. rewrite <- Hxy. by apply list_elem_of_fmap_2.
Qed.

(** X26. With pairwise different sequence numbers the ascending order is
    the only one: whatever stable or unstable sorting procedure the engine
    runs, an output that holds the kept directories in ascending numeric
    order is the list computed here. *)
Lemma versionDirs_unique isDirectory entries out :
  Forall (λ dir, isSafeInteger (seqNum dir) = true) (kept isDirectory entries) →
  NoDup (seqZ <$> kept isDirectory entries) →
  out ≡ₚ kept isDirectory entries →
  StronglySorted (λ a b, seqZ a ≤ seqZ b) out →
  out = versionDirs isDirectory entries.
Proof.
  intros Hsafe Hnd Hperm Hsorted.
  apply (StronglySorted_unique_strong (λ a b, seqZ a ≤ seqZ b)); [|done| |].
  - intros x1 x2 H1 H2 H12 H21.
    rewrite Hperm in H1. rewrite versionDirs_Permutation in H2.
    apply (NoDup_fmap_eq seqZ _ _ _ Hnd H1 H2). lia.
  - by apply versionDirs_keyed.
  - by rewrite versionDirs_Permutation.
Qed.

(** C3. Discovery orders the version directories by the integer that
    [parseInt] reads after the leading 'v', ascending: the result holds
    exactly the kept directories, each one's number is at most that of
    every later one, and three directories numbered 2, 10 and 1, listed
    in any order among other entries, come out as 1, 2, 10. *)
Theorem versionDirs_numeric_order isDirectory entries :
  Forall (λ dir, isSafeInteger (seqNum dir) = true) (kept isDirectory entries) →
  versionDirs isDirectory entries ≡ₚ kept isDirectory entries ∧
  StronglySorted ascending (versionDirs isDirectory entries) ∧
  ∀ a b c,
    kept isDirectory entries ≡ₚ [a; b; c] →
    seqNum a = Int 1 → seqNum b = Int 2 → seqNum c = Int 10 →
    versionDirs isDirectory entries = [a; b; c].
Proof.
  intros Hsafe.
  pose proof (versionDirs_keyed _ _ Hsafe) as Hsorted.
  pose proof (versionDirs_Permutation isDirectory entries) as Hperm.
  split; [done|]. split.
  - eapply (StronglySorted_weaken _ _ (λ dir, isSafeInteger (seqNum dir) = true));
      [| by rewrite Hperm | exact Hsorted].
    intros a b [x Hx]%isSafeInteger_Int [y Hy]%isSafeInteger_Int Hle.
    exists x, y. unfold seqZ in Hle. rewrite Hx, Hy in Hle. done.
  - intros a b c Habc Ha Hb Hc.
    assert (seqZ a = 1 ∧ seqZ b = 2 ∧ seqZ c = 10) as (Ka & Kb & Kc)
      by (unfold seqZ; by rewrite Ha, Hb, Hc).
    apply (StronglySorted_unique_strong (λ a b, seqZ a ≤ seqZ b)); [|done| |by etrans].
    + intros x1 x2 H1 H2 H12 H21.
      rewrite Hperm, Habc in H1.
      set_unfold. destruct_or!; subst; (done || lia).
    + repeat (apply StronglySorted_cons; split); repeat constructor; lia.
Qed.

Lemma versionDirs_numeric_order_witness :
  versionDirs (λ dir, negb (String.eqb dir "vendor.txt"))
    ["v2"; "README.md"; "v10"; "vendor.txt"; "v1"] = ["v1"; "v2"; "v10"].
Proof.
  assert (kept (λ dir, negb (String.eqb dir "vendor.txt"))
            ["v2"; "README.md"; "v10"; "vendor.txt"; "v1"] = ["v2"; "v10"; "v1"]) as Hkept
    by (vm_compute; reflexivity).
  refine (proj2 (proj2 (versionDirs_numeric_order _ _ _)) "v1" "v2" "v10" _ _ _ _).
  - rewrite Hkept. repeat (constructor; [vm_compute; reflexivity|]). constructor.
  - rewrite Hkept. apply Permutation_sym, perm_trans with (l' := ["v2"; "v1"; "v10"]).
    + apply perm_swap.
    + apply perm_skip, perm_swap.
  - vm_compute; reflexivity.
  - vm_compute; reflexivity.
  - vm_compute; reflexivity.
Defined.

Lemma digitValue_not_decimal c :
  isDecimalDigit c = false → digitValue 10 c = None.
Proof.
  unfold isDecimalDigit, digitValue. generalize (code c). intros n Hn.
  rewrite Hn.
  repeat case_match; simplify_eq; try done; lia.
Qed.






(** A character below 128 that is no white space of one byte starts no
    white space character. *)
Lemma trimStart_head c t :
  code c < 128 → isWhiteSpace1 c = false → trimStart (String c t) = String c t.
Proof.
  intros Hc Hws. cbn [trimStart]. rewrite Hws.
  assert (∀ k, 128 ≤ k → (code c =? k) = false) as Hne by (intros; lia).
  destruct t as [|c2 [|c3 t]]; [done| |]; unfold isWhiteSpace2, isWhiteSpace3;
    by rewrite !Hne by lia.
Qed.

Lemma pretty_N_char_digit d :
  (0 < d < 10)%N →
  digitValue 10 (pretty_N_char d) = Some (Z.of_N d) ∧
  (∀ t, trimStart (String (pretty_N_char d) t) = String (pretty_N_char d) t) ∧
  Ascii.eqb (pretty_N_char d) "-" = false ∧
  Ascii.eqb (pretty_N_char d) "+" = false ∧
  Ascii.eqb (pretty_N_char d) "0" = false.
Proof.
  intros Hd.
  assert (d = 1 ∨ d = 2 ∨ d = 3 ∨ d = 4 ∨ d = 5 ∨ d = 6 ∨ d = 7 ∨ d = 8 ∨ d = 9)%N
    as Hcases by lia.
  destruct_or!; subst d;
    (split; [by vm_compute|]); (split; [|by vm_compute]);
    intros t; by apply trimStart_head.
Qed.

Lemma digitValue_pretty_N_char d :
  (d < 10)%N → digitValue 10 (pretty_N_char d) = Some (Z.of_N d).
Proof.
  intros Hd. destruct (decide (d = 0%N)) as [->|]; [done|].
  apply pretty_N_char_digit. lia.
Qed.

(** The digits [pretty] writes for [x] are read back as [x]. *)
Lemma digits_pretty_N_go x s acc :
  (0 < x)%N →
  ∃ k, 0 ≤ k ∧
    digits 10 acc (pretty_N_go x s)
    = digits 10 (Some (default 0 acc * 10 ^ k + Z.of_N x)) s.
Proof.
  revert s. induction (N.lt_wf_0 x) as [x _ IH]; intros s Hx.
  rewrite pretty_N_go_step by done.
  assert (x `mod` 10 < 10)%N as Hmod by (apply N.mod_lt; lia).
  pose proof (N.div_mod x 10 ltac:(lia)) as Hdiv.
  destruct (decide (x `div` 10 = 0)%N) as [Hzero|Hpos].
  - rewrite Hzero, pretty_N_go_0. exists 1. split; [lia|].
    simpl. rewrite (digitValue_pretty_N_char _ Hmod). do 2 f_equal. lia.
  - destruct (IH (x `div` 10)%N) with (s := String (pretty_N_char (x `mod` 10)) s)
      as (k & Hk & ->).
    + apply N.div_lt; lia.
    + lia.
    + exists (k + 1). split; [lia|].
      simpl. rewrite (digitValue_pretty_N_char _ Hmod). simpl. do 2 f_equal.
      rewrite Z.pow_add_r by lia. lia.
Qed.

(** ... and start with a digit other than 0. *)
Lemma pretty_N_go_head x s :
  (0 < x)%N → ∃ d t, pretty_N_go x s = String (pretty_N_char d) t ∧ (0 < d < 10)%N.
Proof.
  revert s. induction (N.lt_wf_0 x) as [x _ IH]; intros s Hx.
  rewrite pretty_N_go_step by done.
  assert (x `mod` 10 < 10)%N as Hmod by (apply N.mod_lt; lia).
  pose proof (N.div_mod x 10 ltac:(lia)) as Hdiv.
  destruct (decide (x `div` 10 = 0)%N) as [Hzero|Hpos].
  - rewrite Hzero, pretty_N_go_0. exists (x `mod` 10)%N, s. split; [done|]. lia.
  - apply IH; [apply N.div_lt; lia|lia].
Qed.


(** [parseInt] reads the decimal digits of a positive number, with or
    without a minus sign before them, up to what does not go on with a
    digit. *)
Lemma parseInt_digits_then p rest :
  match rest with String c _ => isDecimalDigit c | EmptyString => false end = false →
  parseInt (pretty_N_go (N.pos p) rest) = Int (Z.pos p) ∧
  parseInt ("-" +:+ pretty_N_go (N.pos p) rest) = Int (Z.neg p).
Proof.
  intros Hrest.
  destruct (digits_pretty_N_go (N.pos p) rest None) as (k & _ & Hdigits); [lia|].
  destruct (pretty_N_go_head (N.pos p) rest) as (d & t & Hhead & Hd); [lia|].
  destruct (pretty_N_char_digit d Hd) as (_ & Hws & Hminus & Hplus & Hzero).
  assert (digits 10 None (pretty_N_go (N.pos p) rest) = Some (Z.pos p)) as Hread.
  { rewrite Hdigits. simpl. destruct rest as [|c rest']; [done|].
    simpl. by rewrite (digitValue_not_decimal c Hrest). }
  rewrite Hhead in *.
  assert (stripPrefix (String (pretty_N_char d) t) = (10, String (pretty_N_char d) t))
    as Hprefix.
  { unfold stripPrefix. destruct t; [done|]. by rewrite Hzero. }
  split.
  - unfold parseInt. rewrite Hws. unfold stripSign.
    rewrite Hminus, Hplus, Hprefix, Hread. f_equal.
  - unfold parseInt.
    change ("-" +:+ String (pretty_N_char d) t)
      with (String "-" (String (pretty_N_char d) t)).
    rewrite trimStart_head by (vm_compute; done).
    unfold stripSign. change (Ascii.eqb "-" "-") with true. cbv iota.
    rewrite Hprefix, Hread. f_equal.
Qed.

Lemma parseInt_toString z : parseInt (toString (Int z)) = Int z.
Proof.
  destruct z as [|p|p]; [done| |];
    unfold toString, pretty, pretty_Z, pretty, pretty_positive, pretty, pretty_N;
    rewrite decide_False by done; by apply parseInt_digits_then.
Qed.




(** White space before the digits is skipped in all its forms: a no-break
    space (the bytes C2 A0) after the 'v' does not keep a directory from
    being numbered. *)
Example seqNum_after_no_break_space :
  seqNum (String "v" (String (Ascii.ascii_of_nat 194) (String (Ascii.ascii_of_nat 160) "7")))
  = Int 7.
Proof. vm_compute; reflexivity. Qed.
End DiscoveryFacts.

(** ** Schema sync adapter *)

Section PushSnapshotFacts.
Import Cli.
Context {J : Type}.
Variable JSON_parse : string → option J.
Variable set_projectId : J → string → option J.
Variable JSON_stringify : J → string.
Variable execAsync : string → FS → FS * option string.
Variable rootDir : string.

Local Abbreviation root := (rootConfig rootDir).
Local Abbreviation backup := (backupPath rootDir).
Local Abbreviation push :=
  (pushSnapshot JSON_parse set_projectId JSON_stringify execAsync rootDir).

Lemma string_app_nil_r (s : string) : s +:+ "" = s.
Proof.
  induction s as [|c s IH]; [done|].
  change (String c (s +:+ "") = String c s). by f_equal.
Qed.

Lemma rootConfig_ne_backupPath : root ≠ backup.
Proof.
  unfold backupPath. intros H.
  rewrite <- (string_app_nil_r root) in H at 1.
  by apply String.app_inj in H.
Qed.

Lemma existsSync_true (fs : FS) p : existsSync fs p = true ↔ is_Some (fs !! p).
Proof. unfold existsSync. apply bool_decide_eq_true. Qed.

Lemma existsSync_false (fs : FS) p : existsSync fs p = false ↔ fs !! p = None.
Proof.
  unfold existsSync. rewrite bool_decide_eq_false. symmetry. apply eq_None_not_Some.
Qed.

Lemma pushResources_backup resources (fs : FS) :
  keepsBackup execAsync rootDir →
  (pushResources execAsync resources fs).1.1 !! backup = fs !! backup.
Proof.
  intros Hkeep. revert fs.
  induction resources as [|resource rest IH]; intros fs; simpl; [done|].
  specialize (Hkeep (pushCommand resource) fs).
  destruct (execAsync (pushCommand resource) fs) as [fs' [message|]]; simpl in *; [done|].
  specialize (IH fs').
  destruct (pushResources execAsync rest fs') as [[fs'' evs] err]; simpl in *.
  congruence.
Qed.

Lemma restoreOriginal_present (fs : FS) original :
  fs !! backup = Some original →
  restoreOriginal rootDir true fs !! root = Some original ∧
  restoreOriginal rootDir true fs !! backup = None.
Proof.
  intros Hb. unfold restoreOriginal, unlinkSync, copyFileSync.
  assert (existsSync fs backup = true) as -> by (apply existsSync_true; eauto).
  rewrite Hb. pose proof rootConfig_ne_backupPath.
  by simplify_map_eq.
Qed.

Lemma restoreOriginal_absent (fs : FS) :
  restoreOriginal rootDir false fs !! root = None.
Proof.
  unfold restoreOriginal, unlinkSync.
  destruct (existsSync fs root) eqn:He.
  - by simplify_map_eq.
  - by apply existsSync_false.
Qed.

Lemma restoreOnFailure_backup originalExists (fs : FS) :
  (restoreOnFailure rootDir originalExists fs).1 !! backup = fs !! backup.
Proof.
  unfold restoreOnFailure, copyFileSync.
  destruct (originalExists && existsSync fs backup); [|done].
  destruct (fs !! backup) eqn:Hb; simpl; [|done].
  pose proof rootConfig_ne_backupPath. by simplify_map_eq.
Qed.

Local Arguments pushResources : simpl never.

Lemma copyFileSync_Some src dst (fs : FS) content :
  fs !! src = Some content → copyFileSync src dst fs = <[dst := content]> fs.
Proof. unfold copyFileSync. by intros ->. Qed.

(** X6. Whatever way [pushSnapshot] ends, the working snapshot file at
    the project root is what it was before the call, for a tool that does
    not touch the backup file. *)
Lemma pushSnapshot_restores_root snapshotPath config (fs : FS) :
  keepsBackup execAsync rootDir →
  (push snapshotPath config fs).1.1 !! root = fs !! root.
Proof.
  intros Hkeep. unfold pushSnapshot.
  destruct (existsSync fs snapshotPath); simpl; [|done].
  pose proof rootConfig_ne_backupPath as Hne.
  destruct (existsSync fs root) eqn:Hroot.
  - apply existsSync_true in Hroot as [original Horig].
    rewrite (copyFileSync_Some root backup fs original Horig).
    set (fs1 := <[backup := original]> fs).
    assert (fs1 !! root = fs !! root) as H1 by (subst fs1; by simplify_map_eq).
    destruct (JSON_parse _) as [data|]; simpl; [|done].
    destruct (set_projectId _ _) as [data'|]; simpl; [|done].
    set (fs2 := writeFileSync root (JSON_stringify data') fs1).
    pose proof (pushResources_backup RESOURCES fs2 Hkeep) as H3.
    assert (fs2 !! backup = Some original) as H2
      by (subst fs2 fs1; unfold writeFileSync; by simplify_map_eq).
    rewrite H2 in H3.
    destruct (pushResources execAsync RESOURCES fs2) as [[fs3 evs] [message|]];
      simpl in *.
    + pose proof (restoreOnFailure_backup true fs3) as H4. rewrite H3 in H4.
      destruct (restoreOnFailure rootDir true fs3) as [fs4 evs']; simpl in *.
      rewrite Horig. by apply restoreOriginal_present.
    + rewrite Horig. by apply restoreOriginal_present.
  - apply existsSync_false in Hroot. rewrite Hroot.
    destruct (JSON_parse _) as [data|]; simpl; [|done].
    destruct (set_projectId _ _) as [data'|]; simpl; [|done].
    destruct (pushResources _ _ _) as [[fs3 evs] [message|]]; simpl.
    + destruct (restoreOnFailure rootDir false fs3) as [fs4 evs']; simpl.
      apply restoreOriginal_absent.
    + apply restoreOriginal_absent.
Qed.

(** X7. Once the snapshot has been decoded, the backup taken of an
    existing root file is gone when [pushSnapshot] ends, whether the pushes
    went through or not. *)
Lemma pushSnapshot_removes_backup snapshotPath config (fs : FS) original data data' :
  keepsBackup execAsync rootDir →
  fs !! root = Some original →
  is_Some (fs !! snapshotPath) →
  JSON_parse (default "" (<[backup := original]> fs !! snapshotPath)) = Some data →
  set_projectId data (projectId config) = Some data' →
  (push snapshotPath config fs).1.1 !! backup = None.
Proof.
  intros Hkeep Horig Hsnap Hparse Hset. unfold pushSnapshot.
  apply existsSync_true in Hsnap as ->. simpl.
  assert (existsSync fs root = true) as -> by (apply existsSync_true; eauto).
  rewrite (copyFileSync_Some root backup fs original Horig), Hparse, Hset.
  set (fs2 := writeFileSync root (JSON_stringify data') (<[backup := original]> fs)).
  pose proof rootConfig_ne_backupPath as Hne.
  pose proof (pushResources_backup RESOURCES fs2 Hkeep) as H3.
  assert (fs2 !! backup = Some original) as H2
    by (subst fs2; unfold writeFileSync; by simplify_map_eq).
  rewrite H2 in H3.
  destruct (pushResources execAsync RESOURCES fs2) as [[fs3 evs] [message|]];
    simpl in *.
  - pose proof (restoreOnFailure_backup true fs3) as H4. rewrite H3 in H4.
    destruct (restoreOnFailure rootDir true fs3) as [fs4 evs']; simpl in *.
    by destruct (restoreOriginal_present fs4 original H4) as [_ ?].
  - by destruct (restoreOriginal_present fs3 original H3) as [_ ?].
Qed.

(** X8. Without a root file at the start no backup is written: the
    backup path holds afterwards what it held before. *)
Lemma pushSnapshot_without_root snapshotPath config (fs : FS) :
  keepsBackup execAsync rootDir →
  fs !! root = None →
  (push snapshotPath config fs).1.1 !! backup = fs !! backup.
Proof.
  intros Hkeep Hroot. unfold pushSnapshot.
  destruct (existsSync fs snapshotPath); simpl; [|done].
  assert (existsSync fs root = false) as -> by by apply existsSync_false.
  destruct (JSON_parse _) as [data|]; simpl; [|done].
  destruct (set_projectId _ _) as [data'|]; simpl; [|done].
  set (fs2 := writeFileSync root (JSON_stringify data') fs).
  pose proof rootConfig_ne_backupPath as Hne.
  pose proof (pushResources_backup RESOURCES fs2 Hkeep) as H3.
  assert (fs2 !! backup = fs !! backup) as H2
    by (subst fs2; unfold writeFileSync; by simplify_map_eq).
  rewrite H2 in H3.
  assert (∀ fs' : FS, restoreOriginal rootDir false fs' !! backup = fs' !! backup) as Hfin.
  { intros fs'. unfold restoreOriginal, unlinkSync.
    destruct (existsSync fs' root); [|done]. by simplify_map_eq. }
  destruct (pushResources execAsync RESOURCES fs2) as [[fs3 evs] [message|]]; simpl in *.
  - unfold restoreOnFailure. simpl. by rewrite Hfin.
  - by rewrite Hfin.
Qed.

(** C2, where the code departs from it. With a root snapshot file on
    disk and a version snapshot that is no JSON, [pushSnapshot] throws
    out of [JSON.parse], after the backup copy was written and before
    the [try] that would remove it: the root file is untouched, the
    backup file stays behind. *)
Theorem pushSnapshot_leaves_backup snapshotPath config (fs : FS) original content :
  fs !! root = Some original →
  fs !! snapshotPath = Some content →
  snapshotPath ≠ backup →
  JSON_parse content = None →
  push snapshotPath config fs = (<[backup := original]> fs, [], Thrown "SyntaxError") ∧
  (push snapshotPath config fs).1.1 !! root = Some original ∧
  (push snapshotPath config fs).1.1 !! backup = Some original.
Proof.
  intros Horig Hsnap Hne Hparse.
  assert (push snapshotPath config fs
          = (<[backup := original]> fs, [], Thrown "SyntaxError")) as Heq.
  { unfold pushSnapshot.
    assert (existsSync fs snapshotPath = true) as -> by (apply existsSync_true; eauto).
    assert (existsSync fs root = true) as -> by (apply existsSync_true; eauto).
    simpl. rewrite (copyFileSync_Some root backup fs original Horig).
    rewrite lookup_insert_ne by done. rewrite Hsnap. simpl. by rewrite Hparse. }
  rewrite Heq. simpl. pose proof rootConfig_ne_backupPath.
  split; [done|]. by simplify_map_eq.
Qed.
End PushSnapshotFacts.

Lemma pushSnapshot_leaves_backup_witness :
  (Cli.pushSnapshot Sample.parse Sample.setProjectId Sample.stringify Sample.tool
     Sample.rootDir Sample.snapshotPath Sample.config Sample.disk).1.1
    !! "/srv/app/appwrite.config.json.bak" = Some "{}".
Proof.
  refine (proj2 (proj2 (pushSnapshot_leaves_backup Sample.parse Sample.setProjectId
    Sample.stringify Sample.tool Sample.rootDir Sample.snapshotPath Sample.config
    Sample.disk "{}" "<html>502 Bad Gateway</html>" _ _ _ _))).
  - vm_compute; reflexivity.
  - vm_compute; reflexivity.
  - vm_compute. discriminate.
  - vm_compute; reflexivity.
Defined.

(** ** Attribute-availability poller *)

Section PollerFacts.
Import Appwrite Poller.
Variable listAttributes : nat → string → string → RemoteError + list Attribute.

Local Abbreviation pollTable := (Poller.pollTable listAttributes).
Local Abbreviation pollTables := (Poller.pollTables listAttributes).
Local Abbreviation waitForAttributes := (Poller.waitForAttributes listAttributes).

Lemma truthy_Some s v : truthy s = Some v → s = Some v ∧ v ≠ "".
Proof.
  destruct s as [x|]; simpl; [|done].
  destruct (String.eqb_spec x ""); [done|]. by intros [= <-].
Qed.

Lemma queries_app evs evs' : queries (evs ++ evs') = queries evs ++ queries evs'.
Proof. unfold queries. apply omap_app. Qed.

Lemma sleeps_app evs evs' : sleeps (evs ++ evs') = sleeps evs ++ sleeps evs'.
Proof. unfold sleeps. apply omap_app. Qed.




End PollerFacts.


Section PollerTermination.
Import Appwrite Poller.
Variable listAttributes : nat → string → string → RemoteError + list Attribute.

Local Abbreviation pollTable := (Poller.pollTable listAttributes).
Local Abbreviation pollTables := (Poller.pollTables listAttributes).
Local Abbreviation waitForAttributes := (Poller.waitForAttributes listAttributes).
Local Abbreviation ready := (readyAtFirstQuery listAttributes).

Lemma pendingOf_available attributes :
  Forall (λ attr, status attr = "available") attributes → pendingOf attributes = [].
Proof.
  induction 1 as [|attr attributes Hattr _ IH]; [done|].
  unfold pendingOf in *. simpl. by rewrite Hattr, IH.
Qed.

Lemma pollTable_available fuel calls db col attributes :
  listAttributes calls db col = inr attributes →
  Forall (λ attr, status attr = "available") attributes →
  pollTable (S fuel) calls db col = (true, S calls, [ListAttributes db col]).
Proof.
  intros Hanswer Hall. simpl. rewrite Hanswer.
  by rewrite (pendingOf_available _ Hall).
Qed.

Lemma ready_skip calls table rest :
  truthy (databaseId table) = None → ready calls (table :: rest) → ready calls rest.
Proof.
  intros Hdb Hready i db col Hi. apply Hready.
  unfold polled in *. simpl. by rewrite Hdb.
Qed.

Lemma ready_cons calls table rest db :
  truthy (databaseId table) = Some db → ready calls (table :: rest) →
  (∃ attributes,
     listAttributes calls db (table_id table) = inr attributes ∧
     Forall (λ attr, status attr = "available") attributes) ∧
  ready (S calls) rest.
Proof.
  intros Hdb Hready. split.
  - destruct (Hready 0%nat db (table_id table)) as (attributes & Ha & Hall).
    + unfold polled. simpl. by rewrite Hdb.
    + exists attributes. by rewrite Nat.add_0_r in Ha.
  - intros i d c Hi.
    destruct (Hready (S i) d c) as (attributes & Ha & Hall).
    + unfold polled in *. simpl. by rewrite Hdb.
    + exists attributes. by rewrite Nat.add_succ_r in Ha.
Qed.

(** Tables that are ready at their first query are passed with one query
    each and without a wait. *)
Lemma pollTables_ready fuel calls tbls :
  ready calls tbls →
  ∃ evs,
    pollTables (S fuel) calls tbls = (true, (calls + length (polled tbls))%nat, evs) ∧
    sleeps evs = [] ∧ queries evs = polled tbls.
Proof.
  revert calls. induction tbls as [|table rest IH]; intros calls Hready.
  - exists []. by rewrite Nat.add_0_r.
  - cbn [Poller.pollTables]. unfold polled. cbn [omap list_omap]. fold (polled rest).
    destruct (truthy (databaseId table)) as [db|] eqn:Hdb.
    + destruct (ready_cons _ _ _ _ Hdb Hready) as [(attributes & Ha & Hall) Hrest].
      rewrite (pollTable_available fuel calls db _ attributes Ha Hall).
      destruct (IH (S calls) Hrest) as (evs & -> & Hs & Hq).
      eexists. split; [|split].
      * cbn. by rewrite Nat.add_succ_r.
      * done.
      * cbn. f_equal. exact Hq.
    + destruct (IH calls (ready_skip _ _ _ Hdb Hready)) as (evs & -> & Hs & Hq).
      eexists. by split; [|split].
Qed.

Lemma pollTables_app fuel calls l1 l2 calls1 evs1 :
  pollTables fuel calls l1 = (true, calls1, evs1) →
  pollTables fuel calls (l1 ++ l2) =
    let '(finished, calls2, evs2) := pollTables fuel calls1 l2 in
    (finished, calls2, evs1 ++ evs2).
Proof.
  revert calls calls1 evs1.
  induction l1 as [|table rest IH]; intros calls calls1 evs1 H1.
  - injection H1 as <- <-. cbn [app].
    by destruct (pollTables fuel calls l2) as [[f c] evs].
  - cbn [app Poller.pollTables] in *.
    destruct (truthy (databaseId table)) as [db|].
    + destruct (pollTable fuel calls db (table_id table)) as [[[] c] evs]; [|done].
      destruct (pollTables fuel c rest) as [[f c'] evs'] eqn:Hrest.
      injection H1 as -> -> <-.
      rewrite (IH _ _ _ Hrest).
      destruct (pollTables fuel calls1 l2) as [[f2 c2] evs2].
      cbn [app]. by rewrite <- app_assoc.
    + destruct (pollTables fuel calls rest) as [[f c'] evs'] eqn:Hrest.
      injection H1 as -> -> <-.
      rewrite (IH _ _ _ Hrest).
      by destruct (pollTables fuel calls1 l2) as [[f2 c2] evs2].
Qed.

(** C5. A snapshot whose tables all answer the first query without a
    pending attribute is passed without a wait; one with a single
    pending attribute, which is available at the second query for its
    table, is passed after exactly one wait of 2000 ms. *)
Theorem waitForAttributes_sleeps fuel calls schema :
  (ready calls (tablesOf schema) →
     ∃ calls' evs,
       waitForAttributes (S fuel) calls (Some schema) = (true, calls', evs) ∧
       sleeps evs = []) ∧
  (∀ pre table post db first second,
     tablesOf schema = pre ++ table :: post →
     truthy (databaseId table) = Some db →
     ready calls pre →
     listAttributes (calls + length (polled pre))%nat db (table_id table) = inr first →
     length (pendingOf first) = 1%nat →
     listAttributes (S (calls + length (polled pre))) db (table_id table) = inr second →
     Forall (λ attr, status attr = "available") second →
     ready (S (S (calls + length (polled pre)))) post →
     ∃ calls' evs,
       waitForAttributes (S (S fuel)) calls (Some schema) = (true, calls', evs) ∧
       sleeps evs = [2000]).
Proof.
  split.
  - intros Hready. unfold Poller.waitForAttributes.
    destruct (pollTables_ready fuel calls _ Hready) as (evs & -> & Hs & _).
    by eexists _, _.
  - intros pre table post db first second Htables Hdb Hpre Hfirst Hone Hsecond Hall Hpost.
    unfold Poller.waitForAttributes. rewrite Htables.
    destruct (pollTables_ready (S fuel) calls _ Hpre) as (evs1 & H1 & Hs1 & _).
    rewrite (pollTables_app _ _ _ _ _ _ H1).
    set (n := (calls + length (polled pre))%nat) in *.
    destruct (pollTables_ready (S fuel) (S (S n)) _ Hpost) as (evs3 & H3 & Hs3 & _).
    cbn [Poller.pollTables]. rewrite Hdb.
    cbn [Poller.pollTable]. rewrite Hfirst, Hone. cbn [Nat.eqb].
    rewrite Hsecond, (pendingOf_available _ Hall). cbn [length Nat.eqb].
    rewrite H3. eexists _, _. split; [done|].
    unfold sleeps in *. cbn. rewrite omap_app, Hs1. cbn. by rewrite Hs3.
Qed.
End PollerTermination.

Lemma waitForAttributes_sleeps_witness :
  (∃ calls' evs,
     Poller.waitForAttributes (Sample.remoteAfter (inr [Sample.email "available"])) 1 0
       (Some Sample.schema) = (true, calls', evs) ∧ Poller.sleeps evs = []) ∧
  (∃ calls' evs,
     Poller.waitForAttributes (Sample.remoteAfter (inr [Sample.email "processing"])) 2 0
       (Some Sample.schema) = (true, calls', evs) ∧ Poller.sleeps evs = [2000]).
Proof.
  split.
  - apply (waitForAttributes_sleeps (Sample.remoteAfter (inr [Sample.email "available"]))
             0 0 Sample.schema).
    intros [|[|i]] db col Hi; simplify_eq/=.
    eexists; split; [reflexivity|]. by repeat constructor.
  - apply (proj2 (waitForAttributes_sleeps
                    (Sample.remoteAfter (inr [Sample.email "processing"]))
                    0 0 Sample.schema)
             [Sample.legacy] Sample.users [] "main"
             [Sample.email "processing"] [Sample.email "available"]).
    + reflexivity.
    + reflexivity.
    + intros i db col Hi. by destruct i.
    + reflexivity.
    + reflexivity.
    + reflexivity.
    + by repeat constructor.
    + intros i db col Hi. by destruct i.
Defined.

(** ** Migration runner *)

(** [H] says that an event is among finitely many others, none of which
    it can be. *)
Ltac not_among H :=
  repeat (apply elem_of_cons in H as [H|H]; [discriminate H|]);
  apply elem_of_nil in H; destruct H.

Section RunnerFacts.
Import Appwrite Poller Runner.
Variable fuel : nat.
Variable w : World.
Variable config : AppConfig.

Lemma definition_Some version file m i :
  definition w version = Some (file, m, i) ↔
  validIndexFile w version = Some file ∧
  jitiImport w file = Module_ (Some m) ∧
  truthy (id m) = Some i.
Proof.
  unfold definition. split.
  - destruct (validIndexFile w version) as [f|]; simpl; [|done].
    destruct (jitiImport w f) as [|[m'|]] eqn:Himp; simpl; [done| |done].
    destruct (truthy (id m')) as [i'|] eqn:Hid; simpl; [|done].
    intros [= <- <- <-]. by rewrite Himp.
  - intros (-> & Himp & Hid). simpl. by rewrite Himp, Hid.
Qed.

(** The body of the loop on a version that is already applied. *)
Lemma applyVersion_applied appliedSet version file m i calls store :
  definition w version = Some (file, m, i) → i ∈ appliedSet →
  applyVersion fuel w config appliedSet version calls store
  = (calls, store, ([Import file; skippingLog version i], None)).
Proof.
  intros (Hf & Hm & Hi)%definition_Some Hin. unfold applyVersion.
  rewrite Hf, Hm, Hi. by rewrite bool_decide_eq_true_2.
Qed.

(** ... and on one that is pending. *)
Lemma applyVersion_pending appliedSet version file m i calls store :
  definition w version = Some (file, m, i) → i ∉ appliedSet →
  applyVersion fuel w config appliedSet version calls store
  = let '(calls', store', (evs, o)) := pipeline fuel w config version m i calls store in
    (calls', store', (Import file :: applyingLog version i :: evs, o)).
Proof.
  intros (Hf & Hm & Hi)%definition_Some Hin. unfold applyVersion.
  rewrite Hf, Hm, Hi. by rewrite bool_decide_eq_false_2.
Qed.

(** ... and on one whose module gives no usable definition. *)
Lemma applyVersion_invalid appliedSet version file calls store :
  validIndexFile w version = Some file →
  (jitiImport w file = Module_ None ∨
   ∃ m, jitiImport w file = Module_ (Some m) ∧ (id m = None ∨ id m = Some "")) →
  applyVersion fuel w config appliedSet version calls store
  = (calls, store, ([Import file; invalidError version], Some (Exited 1))).
Proof.
  intros Hf Hm. unfold applyVersion. rewrite Hf.
  destruct Hm as [->|(m & -> & Hid)]; [done|].
  by destruct Hid as [-> | ->].
Qed.

(** No stage ends the run with a normal completion. *)
Lemma pipeline_not_Completed version m i calls store c' s' evs :
  pipeline fuel w config version m i calls store ≠ (c', s', (evs, Some Completed)).
Proof.
  unfold pipeline, prepare, backupStage, pushStage, pollStage, upStage, recordStage.
  repeat case_match; simplify_eq; congruence.
Qed.

Lemma applyVersion_not_Completed appliedSet version calls store c' s' evs :
  applyVersion fuel w config appliedSet version calls store ≠ (c', s', (evs, Some Completed)).
Proof.
  unfold applyVersion, invalidMigration.
  repeat case_match; simplify_eq; try congruence.
  intros [= -> -> <- ->]. by eapply pipeline_not_Completed.
Qed.

(** Every segment of the loop is the body run on that directory, and a
    body that ends the run gives the run its ending. *)
Lemma applyVersions_segments appliedSet dirs calls store o segs store' :
  applyVersions fuel w config appliedSet dirs calls store = (o, segs, store') →
  ∀ version evs, (version, evs) ∈ segs →
    version ∈ dirs ∧
    ∃ c s c' s' r,
      applyVersion fuel w config appliedSet version c s = (c', s', (evs, r)) ∧
      (∀ o', r = Some o' → o = o').
Proof.
  revert calls store o segs store'.
  induction dirs as [|dir rest IH]; intros calls store o segs store' Hrun version evs Hin;
    cbn [applyVersions] in Hrun.
  - simplify_eq. by apply elem_of_nil in Hin.
  - destruct (applyVersion fuel w config appliedSet dir calls store)
      as [[c1 s1] [evs1 [o1|]]] eqn:Hbody.
    + simplify_eq. apply list_elem_of_singleton in Hin. simplify_eq.
      split; [left|]. eexists _, _, _, _, _. split; [exact Hbody|]. by intros ? [= <-].
    + destruct (applyVersions fuel w config appliedSet rest c1 s1)
        as [[o2 segs2] s2] eqn:Hrest.
      simplify_eq. apply elem_of_cons in Hin as [Heq|Hin].
      * simplify_eq. split; [left|]. eexists _, _, _, _, _. split; [exact Hbody|done].
      * destruct (IH _ _ _ _ _ Hrest _ _ Hin) as [Hd Hseg]. split; [by right|done].
Qed.

(** A loop that is left normally has run the body on every directory. *)
Lemma applyVersions_Completed appliedSet dirs calls store segs store' :
  applyVersions fuel w config appliedSet dirs calls store = (Completed, segs, store') →
  segs.*1 = dirs.
Proof.
  revert calls store segs store'.
  induction dirs as [|dir rest IH]; intros calls store segs store' Hrun;
    cbn [applyVersions] in Hrun.
  - by simplify_eq.
  - destruct (applyVersion fuel w config appliedSet dir calls store)
      as [[c1 s1] [evs1 [o1|]]] eqn:Hbody.
    + simplify_eq. by apply applyVersion_not_Completed in Hbody.
    + destruct (applyVersions fuel w config appliedSet rest c1 s1)
        as [[o2 segs2] s2] eqn:Hrest.
      simplify_eq. cbn. f_equal. by eapply IH.
Qed.

(** The versions are processed in the order of the directory list, from
    its start. *)
Lemma applyVersions_order appliedSet dirs calls store o segs store' :
  applyVersions fuel w config appliedSet dirs calls store = (o, segs, store') →
  segs.*1 `prefix_of` dirs.
Proof.
  revert calls store o segs store'.
  induction dirs as [|dir rest IH]; intros calls store o segs store' Hrun;
    cbn [applyVersions] in Hrun.
  - by simplify_eq.
  - destruct (applyVersion fuel w config appliedSet dir calls store)
      as [[c1 s1] [evs1 [o1|]]] eqn:Hbody.
    + simplify_eq. cbn. apply prefix_cons, prefix_nil.
    + destruct (applyVersions fuel w config appliedSet rest c1 s1)
        as [[o2 segs2] s2] eqn:Hrest.
      simplify_eq. cbn. apply prefix_cons. by eapply IH.
Qed.

Lemma runMigrations_order store :
  (versions (runMigrations fuel w config store)).*1 `prefix_of` discover w.
Proof.
  unfold runMigrations.
  destruct (Cli.configureClient _ _) as [cevs [|cmsg]]; [|apply prefix_nil].
  destruct (negb _); [apply prefix_nil|].
  destruct (getAppliedMigrations config store) as [evs0 [message|ids]]; [apply prefix_nil|].
  destruct (applyVersions _ _ _ _ _ _ _) as [[o segs] store'] eqn:Hrun.
  by eapply applyVersions_order.
Qed.

Lemma runMigrations_segments store version evs :
  (version, evs) ∈ versions (runMigrations fuel w config store) →
  ∃ ids,
    fetched config store = Some ids ∧
    version ∈ discover w ∧
    ∃ c s c' s' r,
      applyVersion fuel w config (list_to_set ids) version c s = (c', s', (evs, r)) ∧
      (∀ o', r = Some o' → ending (runMigrations fuel w config store) = o').
Proof.
  unfold runMigrations, fetched.
  destruct (Cli.configureClient _ _) as [cevs [|cmsg]]; [|by intros ?%elem_of_nil].
  destruct (negb _); [by intros ?%elem_of_nil|].
  destruct (getAppliedMigrations config store) as [evs0 [message|ids]];
    [by intros ?%elem_of_nil|].
  destruct (applyVersions _ _ _ _ _ _ _) as [[o segs] store'] eqn:Hrun.
  cbn. intros Hin. exists ids. split; [done|].
  destruct (applyVersions_segments _ _ _ _ _ _ _ Hrun _ _ Hin) as [Hd Hseg].
  by split.
Qed.

Lemma runMigrations_Completed store version :
  ending (runMigrations fuel w config store) = Completed →
  version ∈ discover w →
  ∃ evs, (version, evs) ∈ versions (runMigrations fuel w config store).
Proof.
  unfold runMigrations.
  destruct (Cli.configureClient _ _) as [cevs [|cmsg]]; [|done].
  destruct (negb _); [done|].
  destruct (getAppliedMigrations config store) as [evs0 [message|ids]]; [done|].
  destruct (applyVersions _ _ _ _ _ _ _) as [[o segs] store'] eqn:Hrun.
  cbn. intros -> Hin. apply applyVersions_Completed in Hrun.
  rewrite <- Hrun in Hin. apply list_elem_of_fmap in Hin as ([v evs] & -> & Hin).
  by exists evs.
Qed.

(** C8. A version whose module has no default export, or whose
    definition has no id or the empty string for one, ends the run with
    exit code 1 as soon as it is loaded: its part of the run is the
    import and one error line, so no backup command, no schema push, no
    polling and no user action happen for it, and a run over a directory
    list that holds such a version never completes. *)
Theorem invalid_definition_aborts store version file :
  validIndexFile w version = Some file →
  (jitiImport w file = Module_ None ∨
   ∃ m, jitiImport w file = Module_ (Some m) ∧ (id m = None ∨ id m = Some "")) →
  (∀ evs, (version, evs) ∈ versions (runMigrations fuel w config store) →
     evs = [Import file; invalidError version] ∧
     Forall (λ e, isSideEffect e = false) evs ∧
     ending (runMigrations fuel w config store) = Exited 1) ∧
  (version ∈ discover w → ending (runMigrations fuel w config store) ≠ Completed).
Proof.
  intros Hf Hm.
  assert (∀ evs, (version, evs) ∈ versions (runMigrations fuel w config store) →
     evs = [Import file; invalidError version] ∧
     Forall (λ e, isSideEffect e = false) evs ∧
     ending (runMigrations fuel w config store) = Exited 1) as Hseg.
  { intros evs (ids & _ & _ & c & s & c' & s' & r & Hbody & Hend)%runMigrations_segments.
    rewrite (applyVersion_invalid _ _ _ _ _ Hf Hm) in Hbody. simplify_eq.
    split; [done|]. split; [by repeat constructor|]. by apply Hend. }
  split; [done|].
  intros Hin Hdone. destruct (runMigrations_Completed _ _ Hdone Hin) as [evs Hevs].
  destruct (Hseg _ Hevs) as (_ & _ & Hexit). congruence.
Qed.

(** *** Kinds of events per stage *)

Lemma pollTable_preparing listAttributes n calls db col :
  Forall (λ e, isPreparing e = true) (Poller.pollTable listAttributes n calls db col).2.
Proof.
  revert calls. induction n as [|n IH]; intros calls; simpl; [constructor|].
  specialize (IH (S calls)).
  destruct (listAttributes calls db col) as [e|attributes].
  - case_bool_decide; simpl; [by repeat constructor|].
    destruct (Poller.pollTable _ n (S calls) db col) as [[f c] evs]; simpl in *.
    by repeat constructor.
  - destruct (length (pendingOf attributes) =? 0)%nat; simpl; [by repeat constructor|].
    destruct (Poller.pollTable _ n (S calls) db col) as [[f c] evs]; simpl in *.
    by repeat constructor.
Qed.

Lemma pollTables_preparing listAttributes n calls tbls :
  Forall (λ e, isPreparing e = true) (Poller.pollTables listAttributes n calls tbls).2.
Proof.
  revert calls. induction tbls as [|table rest IH]; intros calls; simpl; [constructor|].
  destruct (truthy (databaseId table)) as [db|].
  - pose proof (pollTable_preparing listAttributes n calls db (table_id table)) as Ht.
    destruct (Poller.pollTable _ n calls db (table_id table)) as [[[] c] evs]; simpl in *.
    + specialize (IH c).
      destruct (Poller.pollTables _ n c rest) as [[f c'] evs']; simpl in *.
      constructor; [done|]. by apply Forall_app.
    + by constructor.
  - specialize (IH calls).
    destruct (Poller.pollTables _ n calls rest) as [[f c'] evs']; simpl in *.
    by constructor.
Qed.

Lemma waitForAttributes_preparing listAttributes n calls schema :
  Forall (λ e, isPreparing e = true)
    (Poller.waitForAttributes listAttributes n calls schema).2.
Proof.
  destruct schema as [schema|]; simpl; [|by repeat constructor].
  pose proof (pollTables_preparing listAttributes n calls (tablesOf schema)) as Ht.
  destruct (Poller.pollTables _ n calls (tablesOf schema)) as [[f c] evs]; simpl in *.
  by constructor.
Qed.

Lemma prepare_preparing version m calls :
  Forall (λ e, isPreparing e = true) (prepare fuel w config version m calls).2.1.
Proof.
  unfold prepare, backupStage, pushStage, pollStage.
  pose proof (waitForAttributes_preparing (listAttributes w) fuel calls
                (readSnapshot w (snapshotPath w version))) as Hpoll.
  destruct (waitForAttributes _ _ _ _) as [[f c] evs]; simpl in Hpoll.
  repeat case_match; simplify_eq; simpl;
    rewrite ?Forall_app, ?Forall_cons; repeat split; try done; by constructor.
Qed.

Lemma call_console action ctx :
  (∀ msg, isConsole (log ctx msg) = true) →
  (∀ msg, isConsole (error ctx msg) = true) →
  Forall (λ e, isConsole e = true) (call action ctx).1.
Proof.
  intros Hlog Herr. unfold call. simpl. apply Forall_fmap, Forall_forall.
  intros [msg|msg] _; simpl; auto.
Qed.

Lemma call_context_console action version :
  Forall (λ e, isConsole e = true) (call action (context version)).1.
Proof. by apply call_console. Qed.

Lemma Forall_kind (P Q : event → bool) evs :
  (∀ e, P e = true → Q e = true) →
  Forall (λ e, P e = true) evs → Forall (λ e, Q e = true) evs.
Proof. intros HPQ Hevs. by eapply Forall_impl. Qed.

Lemma preparing_quiet e : isPreparing e = true → isQuiet e = true.
Proof. by destruct e. Qed.

Lemma console_quiet e : isConsole e = true → isQuiet e = true.
Proof. by destruct e. Qed.

(** *** The stages one by one *)

Lemma upStage_Some version m action :
  up m = Some action →
  upStage version m =
    match settles action with
    | Returned =>
        (Log "Executing migration script..." :: Up version
           :: (call action (context version)).1, None)
    | Thrown _ =>
        (Log "Executing migration script..." :: Up version
           :: (call action (context version)).1 ++ [Error "Migration script failed:"],
         Some (Exited 1))
    end.
Proof. unfold upStage. intros ->. unfold call. simpl. by destruct (settles action). Qed.

Lemma upStage_None version m :
  up m = None → upStage version m = ([Log "Executing migration script..."], None).
Proof. unfold upStage. by intros ->. Qed.

Lemma upStage_no_record version m :
  Forall (λ e, isRecord e = false) (upStage version m).1.
Proof.
  destruct (up m) as [action|] eqn:Hup.
  - rewrite (upStage_Some _ _ _ Hup).
    pose proof (call_context_console action version) as Hcall.
    assert (Forall (λ e, isRecord e = false) (call action (context version)).1) as Hrec.
    { eapply Forall_impl; [exact Hcall|]. by intros []. }
    destruct (settles action); simpl; repeat constructor; try done.
    apply Forall_app. split; [done|by repeat constructor].
  - rewrite (upStage_None _ _ Hup). by repeat constructor.
Qed.

Lemma recordStage_events version i store :
  ∃ after,
    (recordStage config version i store).2.1
    = Log "Finalizing..."
        :: CreateDocument (database config) (migrationCollectionId config) i version
        :: after ∧
    Forall (λ e, isConsole e = true) after.
Proof.
  unfold recordStage, recordMigration.
  destruct (createDocument i version store); simpl; eexists; split; try done;
    by repeat constructor.
Qed.

Lemma not_elem_of_fetched (ids : list string) i :
  i ∉ ids → i ∉ (list_to_set ids : gset string).
Proof. by rewrite elem_of_list_to_set. Qed.

Lemma fetched_Some store ids :
  fetched config store = Some ids →
  getAppliedMigrations config store
  = ([ListDocuments (database config) (migrationCollectionId config)], inr ids).
Proof.
  unfold fetched, getAppliedMigrations.
  destruct (listDocuments 5000 store) as [e|docs]; simpl.
  - destruct (bool_decide (code e = Some 404)); simpl; [|done]. by intros [= <-].
  - by intros [= <-].
Qed.

Lemma fetched_segments store ids version evs :
  fetched config store = Some ids →
  (version, evs) ∈ versions (runMigrations fuel w config store) →
  ∃ c s c' s' r,
    applyVersion fuel w config (list_to_set ids) version c s = (c', s', (evs, r)) ∧
    (∀ o', r = Some o' → ending (runMigrations fuel w config store) = o').
Proof.
  intros Hids (ids' & Hids' & _ & Hbody)%runMigrations_segments.
  by simplify_eq.
Qed.

(** C6. For a pending version that requires a backup: without a backup
    command the runner prints the warning and goes on to the schema
    stage; with a command whose execution fails the run ends with exit
    code 1 right after it, before any schema push for that version. *)
Theorem backup_gating store ids version evs file m i :
  fetched config store = Some ids →
  (version, evs) ∈ versions (runMigrations fuel w config store) →
  definition w version = Some (file, m, i) → i ∉ ids →
  requiresBackup m = Some true →
  (truthy (backupCommand config) = None →
     ∃ rest,
       evs = Import file :: applyingLog version i :: backupWarning
               :: (pushStage w version).1 ++ rest) ∧
  (∀ command message,
     truthy (backupCommand config) = Some command →
     execAsync w version command = Thrown message →
     evs = [Import file; applyingLog version i; Log "Running backup command...";
            Exec command; Error "Backup failed:"] ∧
     Forall (λ e, isPush e = false) evs ∧
     ending (runMigrations fuel w config store) = Exited 1).
Proof.
  intros Hids Hseg Hdef Hpending Hbackup.
  destruct (fetched_segments _ _ _ _ Hids Hseg) as (c & s & c' & s' & r & Hbody & Hend).
  rewrite (applyVersion_pending _ _ _ _ _ _ _ Hdef (not_elem_of_fetched _ _ Hpending))
    in Hbody.
  unfold pipeline, prepare, backupStage in Hbody. rewrite Hbackup in Hbody.
  cbn [truthyBool default] in Hbody.
  split.
  - intros Hnone. rewrite Hnone in Hbody.
    destruct (pushStage w version) as [e4 [o4|]]; simpl in *.
    { simplify_eq. exists []. by rewrite app_nil_r. }
    destruct (pollStage fuel w version c) as [calls' [e5 [o5|]]]; simpl in *.
    { simplify_eq. by exists e5. }
    destruct (upStage version m) as [e6 [o6|]]; simpl in *.
    { simplify_eq. exists (e5 ++ e6). by rewrite <- !app_assoc. }
    destruct (recordStage config version i s) as [store' [e7 o7]]; simpl in *.
    simplify_eq. exists (e5 ++ e6 ++ e7). by rewrite <- !app_assoc.
  - intros command message Hcmd Hexec. rewrite Hcmd, Hexec in Hbody.
    simpl in Hbody. simplify_eq.
    split; [done|]. split; [by repeat constructor|]. by apply Hend.
Qed.

(** *** Versions that are already applied *)

Lemma applyVersion_all_applied appliedSet version calls store :
  (∀ file m i, definition w version = Some (file, m, i) → i ∈ appliedSet) →
  ∃ evs r,
    applyVersion fuel w config appliedSet version calls store = (calls, store, (evs, r)) ∧
    Forall (λ e, isQuiet e = true) evs.
Proof.
  intros Happlied. unfold applyVersion, invalidMigration.
  destruct (validIndexFile w version) as [file|] eqn:Hf;
    [|eexists _, _; split; [done|by repeat constructor]].
  destruct (jitiImport w file) as [|[m|]] eqn:Hm;
    try (eexists _, _; split; [done|by repeat constructor]).
  destruct (truthy (id m)) as [i|] eqn:Hi;
    [|eexists _, _; split; [done|by repeat constructor]].
  rewrite bool_decide_eq_true_2.
  - eexists _, _; split; [done|by repeat constructor].
  - apply (Happlied file m i). by apply definition_Some.
Qed.

Lemma applyVersions_all_applied appliedSet dirs calls store :
  (∀ version file m i,
     version ∈ dirs → definition w version = Some (file, m, i) → i ∈ appliedSet) →
  ∃ o segs,
    applyVersions fuel w config appliedSet dirs calls store = (o, segs, store) ∧
    Forall (λ e, isQuiet e = true) (concat segs.*2).
Proof.
  induction dirs as [|dir rest IH]; intros Happlied; cbn [applyVersions].
  - eexists _, _. split; [done|constructor].
  - destruct (applyVersion_all_applied appliedSet dir calls store) as (evs & r & -> & Hq).
    { intros file m i. apply Happlied. left. }
    destruct r as [o|].
    + eexists _, _. split; [done|]. simpl. by rewrite app_nil_r.
    + destruct IH as (o & segs & -> & Hsegs).
      { intros version file m i Hin. apply Happlied. by right. }
      eexists _, _. split; [done|]. simpl. by apply Forall_app.
Qed.

Lemma configureClient_preparing exec cfg :
  Forall (λ e, isPreparing e = true) (Cli.configureClient exec cfg).1.
Proof. unfold Cli.configureClient. destruct (exec _); by repeat constructor. Qed.

(** What is printed and asked before the loop: console lines and the
    configuration command, then at most the one fetch. *)
Lemma runMigrations_prologue store :
  ∃ before,
    Forall (λ e, isPreparing e = true) before ∧
    (prologue (runMigrations fuel w config store) = before ∨
     prologue (runMigrations fuel w config store)
     = before ++ [ListDocuments (database config) (migrationCollectionId config)]) ∧
    ((Cli.configureClient (execClient w) config).2 = Returned →
     existsSync w (migrationsDir w) = true →
     prologue (runMigrations fuel w config store)
     = before ++ [ListDocuments (database config) (migrationCollectionId config)]).
Proof.
  unfold runMigrations.
  pose proof (configureClient_preparing (execClient w) config) as Hconf.
  destruct (Cli.configureClient _ _) as [cevs [|cmsg]]; simpl in Hconf.
  2: { eexists. split; [|split; [by left|intros; simplify_eq/=]].
       simpl. by repeat constructor. }
  destruct (existsSync w (migrationsDir w)); simpl.
  2: { eexists. split; [|split; [by left|intros; simplify_eq/=]].
       repeat constructor. rewrite Forall_app. split; [done|by repeat constructor]. }
  assert ((getAppliedMigrations config store).1
          = [ListDocuments (database config) (migrationCollectionId config)]) as Hcall.
  { unfold getAppliedMigrations.
    destruct (listDocuments 5000 store) as [e|docs]; [|done].
    by destruct (bool_decide (code e = Some 404)). }
  destruct (getAppliedMigrations config store) as [evs0 [message|ids]]; simpl in Hcall;
    subst evs0.
  - exists ([Log "Starting migration process..."; Log "Configuring Appwrite CLI..."]
              ++ cevs ++ [Log ("Found " +:+ pretty (length (discover w)) +:+ " versions.")]).
    split; [|split; [right|intros _ _]]; simpl; rewrite <- ?app_assoc; try done.
    repeat constructor. rewrite Forall_app. split; [done|by repeat constructor].
  - destruct (applyVersions _ _ _ _ _ _ _) as [[o segs] store']. simpl.
    exists ([Log "Starting migration process..."; Log "Configuring Appwrite CLI..."]
              ++ cevs ++ [Log ("Found " +:+ pretty (length (discover w)) +:+ " versions.")]).
    split; [|split; [right|intros _ _]]; simpl; rewrite <- ?app_assoc; try done.
    repeat constructor. rewrite Forall_app. split; [done|by repeat constructor].
Qed.

Lemma runMigrations_epilogue store :
  Forall (λ e, isConsole e = true) (epilogue (runMigrations fuel w config store)).
Proof.
  unfold runMigrations.
  destruct (Cli.configureClient _ _) as [cevs [|cmsg]]; [|constructor].
  destruct (negb _); [constructor|].
  destruct (getAppliedMigrations config store) as [evs0 [message|ids]]; [constructor|].
  destruct (applyVersions _ _ _ _ _ _ _) as [[o segs] store']. simpl.
  destruct o; by repeat constructor.
Qed.

(** When every version that loads is among the fetched identifiers, no
    version's part of the run holds a user action or a write, and the
    tracking collection is left as it was. *)
Lemma runMigrations_all_applied store ids :
  fetched config store = Some ids →
  (∀ version file m i,
     version ∈ discover w → definition w version = Some (file, m, i) → i ∈ ids) →
  Forall (λ e, isQuiet e = true) (concat (versions (runMigrations fuel w config store)).*2) ∧
  final (runMigrations fuel w config store) = store.
Proof.
  intros Hids Hall. unfold runMigrations.
  destruct (Cli.configureClient _ _) as [cevs [|cmsg]]; [|by split; [constructor|]].
  destruct (negb _); [by split; [constructor|]|].
  rewrite (fetched_Some _ _ Hids).
  destruct (applyVersions_all_applied (list_to_set ids) (discover w) 0%nat store)
    as (o & segs & -> & Hsegs).
  { intros version file m i Hd Hdef. apply elem_of_list_to_set. by eapply Hall. }
  done.
Qed.

(** *** The fetch of the applied identifiers *)

Lemma upStage_no_fetch version m :
  Forall (λ e, isFetch e = false) (upStage version m).1.
Proof.
  destruct (up m) as [action|] eqn:Hup.
  - rewrite (upStage_Some _ _ _ Hup).
    assert (Forall (λ e, isFetch e = false) (call action (context version)).1) as Hcall.
    { eapply Forall_impl; [apply call_context_console|]. by intros []. }
    destruct (settles action); simpl; repeat constructor; try done.
    apply Forall_app. split; [done|by repeat constructor].
  - rewrite (upStage_None _ _ Hup). by repeat constructor.
Qed.

Lemma pipeline_no_fetch version m i calls store :
  Forall (λ e, isFetch e = false) (pipeline fuel w config version m i calls store).2.1.
Proof.
  unfold pipeline.
  assert (Forall (λ e, isFetch e = false) (prepare fuel w config version m calls).2.1)
    as Hprep.
  { eapply Forall_impl; [apply prepare_preparing|]. by intros []. }
  pose proof (upStage_no_fetch version m) as Hup.
  destruct (prepare fuel w config version m calls) as [calls' [e [o|]]]; simpl in *; [done|].
  destruct (upStage version m) as [e6 [o|]]; simpl in *; [by apply Forall_app|].
  destruct (recordStage_events version i store) as (after & Hrec & Hafter).
  destruct (recordStage config version i store) as [store' [e7 o]]; simpl in *.
  subst e7. rewrite !Forall_app. repeat split; try done. repeat constructor.
  eapply Forall_impl; [exact Hafter|]. by intros [].
Qed.

Lemma applyVersion_no_fetch appliedSet version calls store :
  Forall (λ e, isFetch e = false)
    (applyVersion fuel w config appliedSet version calls store).2.1.
Proof.
  unfold applyVersion, invalidMigration.
  destruct (validIndexFile w version) as [file|]; [|by repeat constructor].
  destruct (jitiImport w file) as [|[m|]]; try by repeat constructor.
  destruct (truthy (id m)) as [i|]; [|by repeat constructor].
  case_bool_decide; [by repeat constructor|].
  pose proof (pipeline_no_fetch version m i calls store) as Hpipe.
  destruct (pipeline fuel w config version m i calls store) as [[c s] [evs o]].
  simpl in *. by repeat constructor.
Qed.

Lemma filter_isFetch_preparing evs :
  Forall (λ e, isPreparing e = true) evs → List.filter isFetch evs = [].
Proof.
  induction 1 as [|e evs He _ IH]; [done|]. simpl. rewrite IH. by destruct e.
Qed.

(** C9. The applied identifiers are fetched once, before the loop over
    the versions: no version's part of the run and nothing after the
    loop holds a fetch.  The skip check of every version is made against
    that first answer, whatever has been recorded since: a definition
    whose id was not fetched enters the pipeline, and where no backup is
    required, no snapshot exists and an up action is defined, that
    action is called, also when another directory with the same id was
    applied earlier in the same run. *)
Theorem applied_set_is_fetched_once store :
  (length (List.filter isFetch (prologue (runMigrations fuel w config store))) ≤ 1)%nat ∧
  ((Cli.configureClient (execClient w) config).2 = Returned →
   existsSync w (migrationsDir w) = true →
   List.filter isFetch (prologue (runMigrations fuel w config store))
   = [ListDocuments (database config) (migrationCollectionId config)]) ∧
  Forall (λ e, isFetch e = false)
    (concat (versions (runMigrations fuel w config store)).*2
       ++ epilogue (runMigrations fuel w config store)) ∧
  (∀ ids version evs file m i,
     fetched config store = Some ids →
     (version, evs) ∈ versions (runMigrations fuel w config store) →
     definition w version = Some (file, m, i) →
     (i ∈ ids → evs = [Import file; skippingLog version i]) ∧
     (i ∉ ids →
        (∃ calls s,
           evs = Import file :: applyingLog version i
                   :: (pipeline fuel w config version m i calls s).2.1) ∧
        (∀ action,
           requiresBackup m ≠ Some true →
           existsSync w (snapshotPath w version) = false →
           up m = Some action →
           ∃ rest,
             evs = [Import file; applyingLog version i; noSnapshotWarning version;
                    Log "Executing migration script..."; Up version] ++ rest))).
Proof.
  destruct (runMigrations_prologue store) as (before & Hbefore & Hshape & Hone).
  pose proof (filter_isFetch_preparing _ Hbefore) as Hnone.
  split; [|split; [|split]].
  - destruct Hshape as [-> | ->]; rewrite ?List.filter_app, Hnone; simpl; lia.
  - intros Hconf Hdir. by rewrite (Hone Hconf Hdir), List.filter_app, Hnone.
  - apply Forall_app. split.
    + apply Forall_concat, Forall_fmap, Forall_forall. intros [version evs] Hseg.
      apply runMigrations_segments in Hseg
        as (ids & _ & _ & c & s & c' & s' & r & Hbody & _).
      pose proof (applyVersion_no_fetch (list_to_set ids) version c s) as Hno.
      by rewrite Hbody in Hno.
    + eapply Forall_impl; [apply runMigrations_epilogue|]. by intros [].
  - intros ids version evs file m i Hids Hseg Hdef.
    destruct (fetched_segments _ _ _ _ Hids Hseg) as (c & s & c' & s' & r & Hbody & _).
    split.
    + intros Hin.
      rewrite (applyVersion_applied _ _ _ _ _ _ _ Hdef) in Hbody
        by by apply elem_of_list_to_set.
      by simplify_eq.
    + intros Hin.
      rewrite (applyVersion_pending _ _ _ _ _ _ _ Hdef (not_elem_of_fetched _ _ Hin))
        in Hbody.
      assert (evs = Import file :: applyingLog version i
                      :: (pipeline fuel w config version m i c s).2.1) as Hevs.
      { destruct (pipeline fuel w config version m i c s) as [[c1 s1] [e1 o1]].
        by simplify_eq. }
      split; [by eexists _, _|].
      intros action Hbackup Hsnap Hup. rewrite Hevs.
      unfold pipeline, prepare, backupStage, pushStage, pollStage.
      assert (truthyBool (requiresBackup m) = false) as ->.
      { destruct (requiresBackup m) as [[]|]; simpl; congruence. }
      rewrite Hsnap, (upStage_Some _ _ _ Hup). simpl.
      destruct (settles action); simpl; [|by eexists].
      destruct (recordStage config version i s) as [store' [e7 o7]]. simpl. by eexists.
Qed.
End RunnerFacts.

(** ** The runner on sample projects *)


Lemma backup_gating_witness :
  (∃ rest,
     Runner.segment 0 (Runner.runMigrations 1 Sample.backupFails Sample.config
                         (Sample.applied []))
     = Import Sample.v1_index :: Runner.applyingLog "v1" "A" :: Runner.backupWarning
         :: (Runner.pushStage Sample.backupFails "v1").1 ++ rest) ∧
  Runner.ending (Runner.runMigrations 1 Sample.backupFails Sample.withBackup
                   (Sample.applied [])) = Runner.Exited 1.
Proof.
  pose (m := Sample.migration (Some "A") true (Some Sample.seed)).
  assert (Runner.definition Sample.backupFails "v1" = Some (Sample.v1_index, m, "A")) as Hdef
    by (vm_compute; reflexivity).
  assert (∀ config, Runner.fetched config (Sample.applied []) = Some []) as Hids by done.
  split.
  - refine (proj1 (backup_gating 1 Sample.backupFails Sample.config (Sample.applied [])
                     [] "v1" _ Sample.v1_index m "A" (Hids _) _ Hdef _ eq_refl) eq_refl).
    + vm_compute. left.
    + apply not_elem_of_nil.
  - refine (proj2 (proj2 (proj2 (backup_gating 1 Sample.backupFails Sample.withBackup
              (Sample.applied []) [] "v1"
              (Runner.segment 0 (Runner.runMigrations 1 Sample.backupFails Sample.withBackup
                                   (Sample.applied [])))
              Sample.v1_index m "A" (Hids _) _ Hdef _ eq_refl)
            "pg_dump app" "Command failed: pg_dump app" eq_refl eq_refl))).
    + vm_compute. left.
    + apply not_elem_of_nil.
Defined.

(** C7 as it is worded fails: a definition with an id and no up action is
    recorded as applied although no action was called. *)
Lemma record_without_up :
  ¬ (∀ fuel w config store version evs,
       (version, evs) ∈ Runner.versions (Runner.runMigrations fuel w config store) →
       (∃ d c j n, CreateDocument d c j n ∈ evs) →
       Up version ∈ evs).
Proof.
  intros H.
  specialize (H 1%nat Sample.withoutUp Sample.config (Sample.applied []) "v1"
                (Runner.segment 0 (Runner.runMigrations 1 Sample.withoutUp Sample.config
                                     (Sample.applied [])))).
  assert (Up "v1" ∈ [Import Sample.v1_index; Runner.applyingLog "v1" "A";
                     Runner.noSnapshotWarning "v1"; Log "Executing migration script...";
                     Log "Finalizing..."; CreateDocument "system" "migrations" "A" "v1";
                     Runner.appliedLog "v1"]) as Hup.
  { apply H.
    - vm_compute. left.
    - exists "system", "migrations", "A", "v1". vm_compute. do 5 right. left. }
  not_among Hup.
Qed.

Lemma invalid_definition_aborts_witness :
  Runner.ending (Runner.runMigrations 1 Sample.withoutDefault Sample.config (Sample.applied []))
  = Runner.Exited 1 ∧
  Runner.final (Runner.runMigrations 1 Sample.withoutDefault Sample.config (Sample.applied []))
  = Sample.applied [].
Proof.
  split; [|vm_compute; reflexivity].
  destruct (invalid_definition_aborts 1 Sample.withoutDefault Sample.config
              (Sample.applied []) "v1" Sample.v1_index) as [Hseg _].
  - vm_compute; reflexivity.
  - left. vm_compute; reflexivity.
  - apply (Hseg (Runner.segment 0 (Runner.runMigrations 1 Sample.withoutDefault
                                     Sample.config (Sample.applied [])))).
    vm_compute. left.
Defined.

Lemma applied_set_is_fetched_once_witness :
  ∃ rest,
    Runner.segment 1 (Runner.runMigrations 1 Sample.sameId Sample.config (Sample.applied []))
    = [Import Sample.v2_index; Runner.applyingLog "v2" "A"; Runner.noSnapshotWarning "v2";
       Log "Executing migration script..."; Up "v2"] ++ rest.
Proof.
  pose (m := Sample.migration (Some "A") false (Some Sample.seed)).
  destruct (applied_set_is_fetched_once 1 Sample.sameId Sample.config (Sample.applied []))
    as (_ & _ & _ & Hcheck).
  destruct (Hcheck [] "v2"
              (Runner.segment 1 (Runner.runMigrations 1 Sample.sameId Sample.config
                                   (Sample.applied [])))
              Sample.v2_index m "A") as [_ Hpending].
  - reflexivity.
  - vm_compute. right; left.
  - vm_compute; reflexivity.
  - destruct (Hpending (not_elem_of_nil _)) as [_ Hup].
    apply (Hup Sample.seed); [discriminate | vm_compute; reflexivity | reflexivity].
Defined.

(** ** A second run *)

Section SecondRun.
Import Appwrite Poller Runner.
Variable w : World.
Variable config : AppConfig.

Lemma fetched_documentIds store ids :
  fetched config store = Some ids → ids = take 5000 (documentIds store).
Proof.
  unfold fetched, getAppliedMigrations.
  destruct store as [|e|docs]; simpl.
  - by intros [= <-].
  - destruct (bool_decide (code e = Some 404)); simpl; [|done]. by intros [= <-].
  - intros [= <-]. by rewrite fmap_take.
Qed.

Lemma recordStage_documentIds version i store store' evs r :
  recordStage config version i store = (store', (evs, r)) →
  (r = None → documentIds store' = documentIds store ++ [i]) ∧
  (r ≠ None → store' = store).
Proof.
  unfold recordStage, recordMigration, createDocument.
  destruct store as [|e|docs]; simpl; try (intros [= <- <- <-]; by split).
  case_bool_decide; simpl; intros [= <- <- <-]; (split; [|done]); [done|].
  intros _. simpl. by rewrite fmap_app.
Qed.

Lemma pipeline_documentIds fuel version m i calls store c' s' evs r :
  pipeline fuel w config version m i calls store = (c', s', (evs, r)) →
  (r = None → documentIds s' = documentIds store ++ [i]) ∧
  (r ≠ None → s' = store).
Proof.
  unfold pipeline.
  destruct (prepare fuel w config version m calls) as [calls' [e [o|]]];
    [intros [= <- <- <- <-]; by split|].
  destruct (upStage version m) as [e6 [o|]]; [intros [= <- <- <- <-]; by split|].
  destruct (recordStage config version i store) as [store' [e7 o]] eqn:Hrec.
  intros [= <- <- <- <-]. by eapply recordStage_documentIds.
Qed.

(** The body of the loop only adds to the tracking collection, and a
    version it lets the loop go on from is fetched or on record. *)
Lemma applyVersion_documentIds fuel appliedSet version calls store c' s' evs r :
  applyVersion fuel w config appliedSet version calls store = (c', s', (evs, r)) →
  documentIds store ⊆ documentIds s' ∧
  (r = None → ∀ file m i,
     definition w version = Some (file, m, i) → i ∈ appliedSet ∨ i ∈ documentIds s').
Proof.
  unfold applyVersion, invalidMigration. intros Hbody.
  destruct (validIndexFile w version) as [file|] eqn:Hf.
  2: { simplify_eq. split; [done|]. intros _ file m i (Hf' & _)%definition_Some. congruence. }
  destruct (jitiImport w file) as [|[m|]] eqn:Hm; try by simplify_eq.
  destruct (truthy (id m)) as [i|] eqn:Hi; [|by simplify_eq].
  assert (definition w version = Some (file, m, i)) as Hdef by by apply definition_Some.
  case_bool_decide as Hin.
  - simplify_eq. split; [done|]. intros _ file' m' i' Hdef'. left. congruence.
  - destruct (pipeline fuel w config version m i calls store) as [[c1 s1] [e1 o1]] eqn:Hpipe.
    simplify_eq. apply pipeline_documentIds in Hpipe as [Hok Hfail].
    destruct r as [o|].
    + rewrite Hfail by done. by split.
    + rewrite Hok by done. split; [set_solver|].
      intros _ file' m' i' Hdef'. right. simplify_eq. set_solver.
Qed.

Lemma applyVersions_documentIds fuel appliedSet dirs calls store o segs store' :
  applyVersions fuel w config appliedSet dirs calls store = (o, segs, store') →
  documentIds store ⊆ documentIds store' ∧
  (o = Completed → ∀ version file m i,
     version ∈ dirs → definition w version = Some (file, m, i) →
     i ∈ appliedSet ∨ i ∈ documentIds store').
Proof.
  revert calls store o segs store'.
  induction dirs as [|dir rest IH]; intros calls store o segs store' Hrun;
    cbn [applyVersions] in Hrun.
  - simplify_eq. split; [done|]. intros _ version file m i Hin. by apply elem_of_nil in Hin.
  - destruct (applyVersion fuel w config appliedSet dir calls store)
      as [[c1 s1] [evs1 [o1|]]] eqn:Hbody.
    + simplify_eq.
      destruct (applyVersion_documentIds _ _ _ _ _ _ _ _ _ Hbody) as [Hsub _].
      split; [done|]. intros ->. by apply applyVersion_not_Completed in Hbody.
    + destruct (applyVersions fuel w config appliedSet rest c1 s1)
        as [[o2 segs2] s2] eqn:Hrest.
      simplify_eq. apply applyVersion_documentIds in Hbody as [Hsub Hdir].
      apply IH in Hrest as [Hsub' Hrest]. split; [by etrans|].
      intros -> version file m i [->|Hin]%elem_of_cons Hdef.
      * destruct (Hdir eq_refl _ _ _ Hdef); [by left|right; by apply Hsub'].
      * by eapply Hrest.
Qed.

(** After a run that completed, every version that loads is on record. *)
Lemma runMigrations_Completed_recorded fuel store version file m i :
  ending (runMigrations fuel w config store) = Completed →
  version ∈ discover w → definition w version = Some (file, m, i) →
  i ∈ documentIds (final (runMigrations fuel w config store)).
Proof.
  unfold runMigrations.
  destruct (Cli.configureClient _ _) as [cevs [|cmsg]]; [|done].
  destruct (negb _); [done|].
  destruct (getAppliedMigrations config store) as [evs0 [message|ids]] eqn:Hget; [done|].
  assert (ids = take 5000 (documentIds store)) as Hids.
  { apply fetched_documentIds. unfold fetched. by rewrite Hget. }
  destruct (applyVersions _ _ _ _ _ _ _) as [[o segs] store'] eqn:Hrun. simpl.
  intros -> Hin Hdef. apply applyVersions_documentIds in Hrun as [Hsub Hall].
  destruct (Hall eq_refl _ _ _ _ Hin Hdef) as [Hfetched|Hrec]; [|done].
  apply elem_of_list_to_set in Hfetched. subst ids.
  apply Hsub. by eapply subseteq_take.
Qed.

(** X25. Idempotence over two runs: after a run that completed, and as long as
    the tracking collection holds no more documents than one fetch
    returns (5000), a second run over the same directories calls no user
    action, writes no record and leaves the collection as it is. *)
Theorem second_run_is_quiet fuel fuel' store :
  ending (runMigrations fuel w config store) = Completed →
  (length (documentIds (final (runMigrations fuel w config store))) ≤ 5000)%nat →
  Forall (λ e, isQuiet e = true)
    (trace (runMigrations fuel' w config (final (runMigrations fuel w config store)))) ∧
  final (runMigrations fuel' w config (final (runMigrations fuel w config store)))
  = final (runMigrations fuel w config store).
Proof.
  intros Hdone Hsize.
  set (store1 := final (runMigrations fuel w config store)) in *.
  assert (Forall (λ e, isQuiet e = true)
            (concat (versions (runMigrations fuel' w config store1)).*2) ∧
          final (runMigrations fuel' w config store1) = store1) as [Hsegs Hfinal].
  { destruct (fetched config store1) as [ids|] eqn:Hids.
    - apply (runMigrations_all_applied fuel' w config store1 ids Hids).
      intros version file m i Hin Hdef.
      rewrite (fetched_documentIds _ _ Hids), take_ge by done.
      by eapply runMigrations_Completed_recorded.
    - unfold fetched in Hids. unfold runMigrations.
      destruct (Cli.configureClient _ _) as [cevs [|cmsg]]; [|by split; [constructor|]].
      destruct (negb _); [by split; [constructor|]|].
      by destruct (getAppliedMigrations config store1) as [evs0 [message|ids]]. }
  split; [|done]. unfold trace. rewrite !Forall_app. split; [|split; [done|]].
  - destruct (runMigrations_prologue fuel' w config store1)
      as (before & Hbefore & [-> | ->] & _);
      rewrite ?Forall_app; repeat split;
      try (eapply Forall_impl; [exact Hbefore|apply preparing_quiet]).
    by repeat constructor.
  - eapply Forall_impl; [apply runMigrations_epilogue|apply console_quiet].
Qed.
End SecondRun.

(** ** Versions on record are taken up at most once *)

Section AtMostOnce.
Import Appwrite Poller Runner.
Variable w : World.
Variable config : AppConfig.

(** Once the tool is configured and the migrations directory is there,
    a run is its loop over the discovered directories. *)
Lemma runMigrations_loop fuel store ids :
  (Cli.configureClient (execClient w) config).2 = Returned →
  existsSync w (migrationsDir w) = true →
  fetched config store = Some ids →
  ∀ o segs store',
    applyVersions fuel w config (list_to_set ids) (discover w) 0%nat store = (o, segs, store') →
    ending (runMigrations fuel w config store) = o ∧
    versions (runMigrations fuel w config store) = segs ∧
    final (runMigrations fuel w config store) = store'.
Proof.
  intros Hconf Hdir Hids o segs store' Hloop. unfold runMigrations.
  destruct (Cli.configureClient _ _) as [cevs result]; simpl in Hconf; subst result.
  rewrite Hdir. simpl. rewrite (fetched_Some config _ _ Hids), Hloop. done.
Qed.

(** What a run prints and asks around its loop is quiet. *)
Lemma quiet_around_the_loop fuel store :
  Forall (λ e, isQuiet e = true) (concat (versions (runMigrations fuel w config store)).*2) →
  Forall (λ e, isQuiet e = true) (trace (runMigrations fuel w config store)).
Proof.
  intros Hsegs. unfold trace. rewrite !Forall_app. split; [|split; [done|]].
  - destruct (runMigrations_prologue fuel w config store) as (before & Hbefore & [-> | ->] & _);
      rewrite ?Forall_app; repeat split;
      try (eapply Forall_impl; [exact Hbefore|apply preparing_quiet]).
    by repeat constructor.
  - eapply Forall_impl; [apply runMigrations_epilogue|apply console_quiet].
Qed.

(** A run whose fetch fails takes up no version. *)
Lemma unfetched_run fuel store :
  fetched config store = None →
  versions (runMigrations fuel w config store) = [] ∧
  final (runMigrations fuel w config store) = store.
Proof.
  unfold fetched, runMigrations. intros Hids.
  destruct (Cli.configureClient _ _) as [cevs [|cmsg]]; [|done].
  destruct (negb _); [done|].
  by destruct (getAppliedMigrations config store) as [evs0 [message|ids]].
Qed.

(** As long as the tracking collection fits the one page of the fetch,
    a run over versions that are all on record is quiet and leaves the
    collection as it was. *)
Lemma fully_applied_quiet fuel store :
  (∀ version file m i,
     version ∈ discover w → definition w version = Some (file, m, i) →
     i ∈ documentIds store) →
  (length (documentIds store) ≤ 5000)%nat →
  Forall (λ e, isQuiet e = true) (trace (runMigrations fuel w config store)) ∧
  final (runMigrations fuel w config store) = store.
Proof.
  intros Hall Hsize. destruct (fetched config store) as [ids|] eqn:Hids.
  - destruct (runMigrations_all_applied fuel w config store ids Hids) as [Hsegs Hfinal].
    + intros version file m i Hin Hdef.
      rewrite (fetched_documentIds _ _ _ Hids), take_ge by done. by eapply Hall.
    + split; [by apply quiet_around_the_loop|done].
  - destruct (unfetched_run fuel store Hids) as [Hnone Hfinal].
    split; [|done]. apply quiet_around_the_loop. rewrite Hnone. constructor.
Qed.

(** C1, amended. A version whose definition's id is among the identifiers
    fetched at the start of the run is passed over: its part of the run
    is the import and the line that says so, without a user action and
    without a write of an applied record.  The fetch is one page of at
    most 5000 documents; as long as the tracking collection holds no more
    than that, a run over a fully applied set of versions (every id that
    loads is on record, or the run follows one that completed) calls no
    user action, writes no record and leaves the collection as it was. *)
Theorem applied_versions_are_skipped fuel fuel' store :
  (∀ ids version evs file m i,
     fetched config store = Some ids →
     (version, evs) ∈ versions (runMigrations fuel w config store) →
     definition w version = Some (file, m, i) → i ∈ ids →
     evs = [Import file; skippingLog version i] ∧
     Forall (λ e, isQuiet e = true) evs) ∧
  ((∀ version file m i,
      version ∈ discover w → definition w version = Some (file, m, i) →
      i ∈ documentIds store) →
   (length (documentIds store) ≤ 5000)%nat →
   Forall (λ e, isQuiet e = true) (trace (runMigrations fuel w config store)) ∧
   final (runMigrations fuel w config store) = store) ∧
  (ending (runMigrations fuel w config store) = Completed →
   (length (documentIds (final (runMigrations fuel w config store))) ≤ 5000)%nat →
   Forall (λ e, isQuiet e = true)
     (trace (runMigrations fuel' w config (final (runMigrations fuel w config store)))) ∧
   final (runMigrations fuel' w config (final (runMigrations fuel w config store)))
   = final (runMigrations fuel w config store)).
Proof.
  split; [|split].
  - intros ids version evs file m i Hids Hseg Hdef Hin.
    destruct (fetched_segments _ _ _ _ _ _ _ Hids Hseg) as (c & s & c' & s' & r & Hbody & _).
    rewrite (applyVersion_applied _ _ _ _ _ _ _ _ _ _ Hdef) in Hbody
      by by apply elem_of_list_to_set.
    simplify_eq. split; [done|by repeat constructor].
  - apply fully_applied_quiet.
  - intros Hdone Hsize. apply fully_applied_quiet; [|done].
    intros version file m i Hin Hdef. by eapply runMigrations_Completed_recorded.
Qed.
End AtMostOnce.

Lemma applied_versions_are_skipped_witness :
  Forall (λ e, Runner.isQuiet e = true)
    (Runner.trace (Runner.runMigrations 1 Sample.bothApplied Sample.config
                     (Sample.applied ["A"; "B"]))) ∧
  Runner.final (Runner.runMigrations 1 Sample.bothApplied Sample.config (Sample.applied ["A"; "B"]))
  = Sample.applied ["A"; "B"].
Proof.
  apply (proj1 (proj2 (applied_versions_are_skipped Sample.bothApplied Sample.config 1 1
                         (Sample.applied ["A"; "B"])))).
  - intros version file m i Hin Hdef.
    assert (Runner.discover Sample.bothApplied = ["v1"; "v2"]) as Hd
      by (vm_compute; reflexivity).
    rewrite Hd in Hin.
    apply elem_of_cons in Hin as [->|Hin]; [|apply elem_of_cons in Hin as [->|Hin]].
    + vm_compute in Hdef. injection Hdef as _ _ <-. left.
    + vm_compute in Hdef. injection Hdef as _ _ <-. right; left.
    + by apply elem_of_nil in Hin.
  - simpl. lia.
Defined.

(** ** The script stage *)

Section ScriptStage.
Import Appwrite Poller Runner.
Variable fuel : nat.
Variable w : World.
Variable config : AppConfig.

Local Abbreviation run := (runMigrations fuel w config).

(** Every segment of the loop is the body run on that directory; what
    the body left on record is on record when the loop is left. *)
Lemma applyVersions_segments_final appliedSet dirs calls store o segs store' :
  applyVersions fuel w config appliedSet dirs calls store = (o, segs, store') →
  ∀ version evs, (version, evs) ∈ segs →
    ∃ c s c' s' r,
      applyVersion fuel w config appliedSet version c s = (c', s', (evs, r)) ∧
      (∀ o', r = Some o' → o = o') ∧
      documentIds s' ⊆ documentIds store'.
Proof.
  revert calls store o segs store'.
  induction dirs as [|dir rest IH]; intros calls store o segs store' Hrun version evs Hin;
    cbn [applyVersions] in Hrun.
  - simplify_eq. by apply elem_of_nil in Hin.
  - destruct (applyVersion fuel w config appliedSet dir calls store)
      as [[c1 s1] [evs1 [o1|]]] eqn:Hbody.
    + simplify_eq. apply list_elem_of_singleton in Hin. simplify_eq.
      eexists _, _, _, _, _. split; [exact Hbody|]. split; [by intros ? [= <-]|done].
    + destruct (applyVersions fuel w config appliedSet rest c1 s1)
        as [[o2 segs2] s2] eqn:Hrest.
      simplify_eq. apply elem_of_cons in Hin as [Heq|Hin].
      * simplify_eq. eexists _, _, _, _, _. split; [exact Hbody|]. split; [done|].
        by destruct (applyVersions_documentIds w config _ _ _ _ _ _ _ _ Hrest) as [? _].
      * by eapply IH.
Qed.

Lemma fetched_segments_final store ids version evs :
  fetched config store = Some ids →
  (version, evs) ∈ versions (run store) →
  ∃ c s c' s' r,
    applyVersion fuel w config (list_to_set ids) version c s = (c', s', (evs, r)) ∧
    (∀ o', r = Some o' → ending (run store) = o') ∧
    documentIds s' ⊆ documentIds (final (run store)).
Proof.
  intros Hids. unfold runMigrations.
  destruct (Cli.configureClient _ _) as [cevs [|cmsg]]; [|by intros ?%elem_of_nil].
  destruct (negb _); [by intros ?%elem_of_nil|].
  rewrite (fetched_Some _ _ _ Hids).
  destruct (applyVersions _ _ _ _ _ _ _) as [[o segs] store'] eqn:Hrun.
  cbn. intros Hin. by eapply applyVersions_segments_final.
Qed.

Lemma filter_isUp_none evs :
  Forall (λ e, isUp e = false) evs → List.filter isUp evs = [].
Proof.
  induction 1 as [|e evs He _ IH]; [done|]. simpl. by rewrite He.
Qed.

Lemma quiet_no_up e : isQuiet e = true → isUp e = false.
Proof. by destruct e. Qed.

Lemma console_no_up e : isConsole e = true → isUp e = false.
Proof. by destruct e. Qed.

Lemma filter_isUp_once before said tail version :
  Forall (λ e, isQuiet e = true) before →
  Forall (λ e, isConsole e = true) said →
  Forall (λ e, isUp e = false) tail →
  List.filter isUp
    (before ++ Log "Executing migration script..." :: Up version :: said ++ tail)
  = [Up version].
Proof.
  intros Hb Hs Ht. rewrite List.filter_app, (filter_isUp_none before). 2: {
    eapply Forall_impl; [exact Hb|apply quiet_no_up]. }
  simpl. rewrite List.filter_app, (filter_isUp_none said), (filter_isUp_none tail); [done..|].
  eapply Forall_impl; [exact Hs|apply console_no_up].
Qed.

(** C7, amended. For a pending version the part of the run up to the
    script stage is quiet, and a stage before the script that fails
    ends the version's part there.  When the script stage is reached and
    the definition has an up action, that action is called exactly
    once, with the context built for this version, and before the write
    of the applied record: when the action returns, the write follows
    what it printed; when it throws, the part ends with the failure
    line, no write is issued and the run exits with code 1.  A
    definition without an up action has no action called, and the write
    of its applied record is issued all the same.  After a write the id
    is on record at the end of the run, unless the remote refused the
    write and the run was rejected. *)
Theorem up_once_before_record store ids version evs file m i :
  fetched config store = Some ids →
  (version, evs) ∈ versions (run store) →
  definition w version = Some (file, m, i) → i ∉ ids →
  ∃ calls,
    let reached := (prepare fuel w config version m calls).2 in
    let before := Import file :: applyingLog version i :: reached.1 in
    let script := Log "Executing migration script..." in
    let write :=
      [Log "Finalizing...";
       CreateDocument (database config) (migrationCollectionId config) i version] in
    let recorded (after : list event) :=
      Forall (λ e, isConsole e = true) after ∧
      (i ∈ documentIds (final (run store)) ∨
       ∃ message, ending (run store) = Rejected message) in
    Forall (λ e, isQuiet e = true) before ∧
    match reached.2, up m with
    | Some o, _ => evs = before ∧ ending (run store) = o
    | None, Some action =>
        let said := (call action (context version)).1 in
        Forall (λ e, isConsole e = true) said ∧
        List.filter isUp evs = [Up version] ∧
        match settles action with
        | Returned =>
            ∃ after,
              evs = before ++ script :: Up version :: said ++ write ++ after ∧
              recorded after
        | Thrown _ =>
            evs = before ++ script :: Up version :: said ++ [Error "Migration script failed:"] ∧
            ending (run store) = Exited 1
        end
    | None, None =>
        List.filter isUp evs = [] ∧
        ∃ after, evs = before ++ script :: write ++ after ∧ recorded after
    end.
Proof.
  intros Hids Hseg Hdef Hpending.
  destruct (fetched_segments_final _ _ _ _ Hids Hseg)
    as (c & s & c' & s' & r & Hbody & Hend & Hfinal).
  rewrite (applyVersion_pending _ _ _ _ _ _ _ _ _ _ Hdef (not_elem_of_fetched _ _ Hpending))
    in Hbody.
  exists c. cbv zeta.
  pose proof (prepare_preparing fuel w config version m c) as Hprep.
  assert (Forall (λ e, isQuiet e = true)
            (Import file :: applyingLog version i
               :: (prepare fuel w config version m c).2.1)) as Hbefore.
  { repeat constructor. eapply Forall_impl; [exact Hprep|apply preparing_quiet]. }
  split; [done|].
  assert (∀ after r' s'',
            recordStage config version i s = (s'', (after, r')) →
            documentIds s'' ⊆ documentIds (final (run store)) →
            (∀ o', r' = Some o' → ending (run store) = o') →
            ∃ after',
              after = [Log "Finalizing...";
                       CreateDocument (database config) (migrationCollectionId config)
                         i version] ++ after' ∧
              Forall (λ e, isConsole e = true) after' ∧
              (i ∈ documentIds (final (run store)) ∨
               ∃ message, ending (run store) = Rejected message)) as Hrecord.
  { unfold recordStage, recordMigration, createDocument.
    intros after r' s'' Hrec Hsub Hr'.
    destruct s as [|e|docs]; simpl in Hrec; simplify_eq;
      try (exists []; split; [done|]; split; [constructor|right; eexists; by apply Hr']).
    case_bool_decide; simpl in Hrec; simplify_eq.
    - exists []. split; [done|]. split; [constructor|right; eexists; by apply Hr'].
    - exists [appliedLog version]. split; [done|]. split; [by repeat constructor|].
      left. apply Hsub. simpl. rewrite fmap_app. apply elem_of_app. right. left. }
  unfold pipeline in Hbody.
  destruct (prepare fuel w config version m c) as [calls' [e [o|]]]; cbn [fst snd] in *.
  { simplify_eq. split; [done|by apply Hend]. }
  destruct (up m) as [action|] eqn:Hup.
  - rewrite (upStage_Some _ _ _ Hup) in Hbody.
    pose proof (call_context_console action version) as Hsaid.
    split; [done|].
    set (said := (call action (context version)).1) in *.
    destruct (settles action) eqn:Hsettles.
    + destruct (recordStage config version i s) as [s'' [after r']] eqn:Hrec.
      simplify_eq.
      destruct (Hrecord _ _ _ eq_refl Hfinal Hend) as (after' & -> & Hafter & Hdone).
      split.
      * refine (filter_isUp_once (Import file :: applyingLog version i :: e) said
                  ([Log "Finalizing...";
                    CreateDocument (database config) (migrationCollectionId config)
                      i version] ++ after') version Hbefore Hsaid _).
        repeat constructor. eapply Forall_impl; [exact Hafter|apply console_no_up].
      * by exists after'.
    + simplify_eq. split; [|split; [done|by apply Hend]].
      refine (filter_isUp_once (Import file :: applyingLog version i :: e) said
                [Error "Migration script failed:"] version Hbefore Hsaid _).
      by repeat constructor.
  - rewrite (upStage_None _ _ Hup) in Hbody.
    destruct (recordStage config version i s) as [s'' [after r']] eqn:Hrec.
    simplify_eq.
    destruct (Hrecord _ _ _ eq_refl Hfinal Hend) as (after' & -> & Hafter & Hdone).
    split; [|by exists after'].
    apply filter_isUp_none.
    change (Forall (λ e, isUp e = false)
              ((Import file :: applyingLog version i :: e)
                 ++ Log "Executing migration script..." :: Log "Finalizing..."
                 :: CreateDocument (database config) (migrationCollectionId config) i version
                 :: after')).
    apply Forall_app. split; [eapply Forall_impl; [exact Hbefore|apply quiet_no_up]|].
    repeat constructor. eapply Forall_impl; [exact Hafter|apply console_no_up].
Qed.
End ScriptStage.

Lemma up_once_before_record_witness :
  List.filter Runner.isUp
    (Runner.segment 0 (Runner.runMigrations 1 Sample.sameId Sample.config (Sample.applied [])))
  = [Up "v1"] ∧
  ∃ after,
    Runner.segment 0 (Runner.runMigrations 1 Sample.withoutUp Sample.config (Sample.applied []))
    = [Import Sample.v1_index; Runner.applyingLog "v1" "A"; Runner.noSnapshotWarning "v1";
       Log "Executing migration script..."; Log "Finalizing...";
       CreateDocument "system" "migrations" "A" "v1"] ++ after.
Proof.
  split.
  - pose (m := Sample.migration (Some "A") false (Some Sample.seed)).
    destruct (up_once_before_record 1 Sample.sameId Sample.config (Sample.applied []) []
                "v1"
                (Runner.segment 0 (Runner.runMigrations 1 Sample.sameId Sample.config
                                     (Sample.applied [])))
                Sample.v1_index m "A") as (calls & _ & Hstage).
    + reflexivity.
    + vm_compute. left.
    + vm_compute; reflexivity.
    + apply not_elem_of_nil.
    + exact (proj1 (proj2 Hstage)).
  - pose (m := Sample.migration (Some "A") false None).
    destruct (up_once_before_record 1 Sample.withoutUp Sample.config (Sample.applied []) []
                "v1"
                (Runner.segment 0 (Runner.runMigrations 1 Sample.withoutUp Sample.config
                                     (Sample.applied [])))
                Sample.v1_index m "A") as (calls & _ & _ & after & Hevs & _).
    + reflexivity.
    + vm_compute. left.
    + vm_compute; reflexivity.
    + apply not_elem_of_nil.
    + exists after. exact Hevs.
Defined.

(** ** The scenario of two pending versions, end to end *)

(** v1 is applied without backup, push or polling; v2 is backed up, pushed,
    polled until its attribute is available, run and recorded; A and B are
    on record afterwards. *)
Example two_versions_end_to_end :
  let run := Runner.runMigrations 2 Sample.twoVersions Sample.withBackup (Sample.applied []) in
  Runner.ending run = Runner.Completed ∧
  Appwrite.documentIds (Runner.final run) = ["A"; "B"] ∧
  List.filter Runner.isSideEffect (Runner.trace run)
  = [Exec "appwrite client --endpoint https://cloud.appwrite.io/v1 --project-id prod --key secret";
     ListDocuments "system" "migrations";
     Up "v1"; CreateDocument "system" "migrations" "A" "v1";
     Exec "pg_dump app"; PushSnapshot Sample.v2_snapshot;
     ListAttributes "main" "users"; Sleep 2000; ListAttributes "main" "users";
     Up "v2"; CreateDocument "system" "migrations" "B" "v2"].
Proof. vm_compute. by repeat split. Qed.

(** ** The schema sync adapter, further *)

Section SnapshotFacts.
Import Cli.
Context {J : Type}.
Variable JSON_parse : string → option J.
Variable set_projectId : J → string → option J.
Variable JSON_stringify : J → string.
Variable execAsync : string → FS → FS * option string.
Variable rootDir : string.

Local Abbreviation root := (rootConfig rootDir).
Local Abbreviation backup := (backupPath rootDir).
Local Abbreviation push :=
  (pushSnapshot JSON_parse set_projectId JSON_stringify execAsync rootDir).
Local Abbreviation pull := (pullSnapshot execAsync rootDir).

Lemma pushResources_execs resources (fs : FS) :
  execs (pushResources execAsync resources fs).1.2 `prefix_of` (pushCommand <$> resources) ∧
  ((pushResources execAsync resources fs).2 = None →
   execs (pushResources execAsync resources fs).1.2 = pushCommand <$> resources).
Proof.
  revert fs. induction resources as [|resource rest IH]; intros fs; simpl.
  { split; [apply prefix_nil|done]. }
  destruct (execAsync (pushCommand resource) fs) as [fs' [message|]]; simpl.
  - split; [|done]. apply prefix_cons, prefix_nil.
  - specialize (IH fs').
    destruct (pushResources execAsync rest fs') as [[fs'' evs] err]; simpl in *.
    destruct IH as [IH1 IH2]. split.
    + by apply prefix_cons.
    + intros Herr. f_equal. by apply IH2.
Qed.

Lemma pushCommands :
  pushCommand <$> RESOURCES =
    ["appwrite push tables --all --force --attempts 60";
     "appwrite push buckets --all --force";
     "appwrite push teams --all --force";
     "appwrite push topics --all --force"].
Proof. vm_compute; reflexivity. Qed.

Lemma execs_app evs evs' : execs (evs ++ evs') = execs evs ++ execs evs'.
Proof. apply omap_app. Qed.

Local Arguments pushResources : simpl never.

Lemma pushSnapshot_execs snapshotPath config (fs : FS) :
  execs (push snapshotPath config fs).1.2 `prefix_of`
    ["appwrite push tables --all --force --attempts 60";
     "appwrite push buckets --all --force";
     "appwrite push teams --all --force";
     "appwrite push topics --all --force"] ∧
  ((push snapshotPath config fs).2 = Returned →
   execs (push snapshotPath config fs).1.2 =
     ["appwrite push tables --all --force --attempts 60";
      "appwrite push buckets --all --force";
      "appwrite push teams --all --force";
      "appwrite push topics --all --force"]).
Proof.
  rewrite <- pushCommands. unfold pushSnapshot.
  destruct (existsSync fs snapshotPath); simpl; [|split; [apply prefix_nil|done]].
  destruct (JSON_parse _) as [data|]; simpl; [|split; [apply prefix_nil|done]].
  destruct (set_projectId _ _) as [data'|]; simpl; [|split; [apply prefix_nil|done]].
  match goal with |- context [pushResources _ _ ?fs2] =>
    pose proof (pushResources_execs RESOURCES fs2) as [Hpre Hall];
    destruct (pushResources execAsync RESOURCES fs2) as [[fs3 evs] [message|]]
  end; simpl in *.
  - assert (execs (restoreOnFailure rootDir (existsSync fs root) fs3).2 = []) as Hr
      by (unfold restoreOnFailure; by destruct (_ && _)).
    destruct (restoreOnFailure rootDir (existsSync fs root) fs3) as [fs4 evs']; simpl in *.
    split; [|done].
    change (execs (evs ++ evs') `prefix_of` pushCommand <$> RESOURCES).
    by rewrite execs_app, Hr, app_nil_r.
  - split; [done|]. intros _. by apply Hall.
Qed.

(** X1. The command lines [pushSnapshot] hands to the tool are a prefix
    of the four pushes, tables first and with the retry flag on the tables
    only; when it returns, all four were run, in that order.  When the
    snapshot is missing, or its text does not decode to a value that
    takes the project id, nothing is run or printed and the call
    throws. *)
Theorem pushSnapshot_commands snapshotPath config (fs : FS) :
  execs (push snapshotPath config fs).1.2 `prefix_of`
    ["appwrite push tables --all --force --attempts 60";
     "appwrite push buckets --all --force";
     "appwrite push teams --all --force";
     "appwrite push topics --all --force"] ∧
  ((push snapshotPath config fs).2 = Returned →
   execs (push snapshotPath config fs).1.2 =
     ["appwrite push tables --all --force --attempts 60";
      "appwrite push buckets --all --force";
      "appwrite push teams --all --force";
      "appwrite push topics --all --force"]) ∧
  (existsSync fs snapshotPath = false →
   (push snapshotPath config fs).1.2 = [] ∧
   (push snapshotPath config fs).2 = Thrown ("Snapshot not found: " +:+ snapshotPath)) ∧
  (snapshotPath ≠ backup →
   (text ← fs !! snapshotPath; data ← JSON_parse text;
    set_projectId data (projectId config)) = None →
   (push snapshotPath config fs).1.2 = [] ∧
   ∃ message, (push snapshotPath config fs).2 = Thrown message).
Proof.
  split; [|split; [|split]]; try apply pushSnapshot_execs.
  - unfold pushSnapshot. by intros ->.
  - intros Hne Hdecode. unfold pushSnapshot.
    destruct (existsSync fs snapshotPath) eqn:Hthere; simpl; [|eauto].
    assert ((if existsSync fs root then copyFileSync root backup fs else fs) !! snapshotPath
            = fs !! snapshotPath) as ->.
    { destruct (existsSync fs root); [|done]. unfold copyFileSync.
      destruct (fs !! root); [|done]. by rewrite lookup_insert_ne. }
    unfold existsSync in Hthere.
    destruct (fs !! snapshotPath) as [text|]; simpl in *; [|done].
    destruct (JSON_parse text) as [data|]; simpl in *; [|eauto].
    rewrite Hdecode. eauto.
Qed.

Lemma pushResources_frame resources (fs : FS) p :
  (∀ cmd (fs' : FS), (execAsync cmd fs').1 !! p = fs' !! p) →
  (pushResources execAsync resources fs).1.1 !! p = fs !! p.
Proof.
  intros Hkeep. revert fs.
  induction resources as [|resource rest IH]; intros fs; [done|].
  change (pushResources execAsync (resource :: rest) fs) with
    (match execAsync (pushCommand resource) fs with
     | (fs', None) =>
         let '(fs'', evs, err) := pushResources execAsync rest fs' in
         (fs'',
          Log ("Pushing " +:+ resource +:+ "...") :: Exec (pushCommand resource)
            :: Log ("  " +:+ resource) :: evs,
          err)
     | (fs', Some message) =>
         (fs',
          [Log ("Pushing " +:+ resource +:+ "..."); Exec (pushCommand resource);
           Error ("  Failed to push " +:+ resource +:+ ": " +:+ message)],
          Some message)
     end).
  specialize (Hkeep (pushCommand resource) fs).
  destruct (execAsync (pushCommand resource) fs) as [fs' [message|]]; simpl in *; [done|].
  specialize (IH fs').
  destruct (pushResources execAsync rest fs') as [[fs'' evs] err]; simpl in *.
  congruence.
Qed.

Lemma restoreOnFailure_frame originalExists (fs : FS) p :
  p ≠ root → (restoreOnFailure rootDir originalExists fs).1 !! p = fs !! p.
Proof.
  intros Hp. unfold restoreOnFailure, copyFileSync.
  destruct (originalExists && existsSync fs backup); [|done].
  destruct (fs !! backup) eqn:Hb; simpl; [|done]. by simplify_map_eq.
Qed.

Lemma restoreOriginal_frame originalExists (fs : FS) p :
  p ≠ root → p ≠ backup → restoreOriginal rootDir originalExists fs !! p = fs !! p.
Proof.
  intros Hp Hp'. unfold restoreOriginal, unlinkSync, copyFileSync.
  destruct originalExists.
  - destruct (existsSync fs backup); [|done].
    destruct (fs !! backup) eqn:Hb; by simplify_map_eq.
  - destruct (existsSync fs root); [|done]. by simplify_map_eq.
Qed.

(** X2. [pushSnapshot] writes to two paths only, the root snapshot and
    its backup: a file elsewhere that the tool leaves alone holds after
    the call, however it ends, what it held before. *)
Theorem pushSnapshot_frame snapshotPath config (fs : FS) p :
  p ≠ root → p ≠ backup →
  (∀ cmd (fs' : FS), (execAsync cmd fs').1 !! p = fs' !! p) →
  (push snapshotPath config fs).1.1 !! p = fs !! p.
Proof.
  intros Hp Hp' Hkeep. unfold pushSnapshot.
  destruct (existsSync fs snapshotPath); simpl; [|done].
  set (fs1 := if existsSync fs root then copyFileSync root backup fs else fs).
  assert (fs1 !! p = fs !! p) as H1.
  { subst fs1. unfold copyFileSync. destruct (existsSync fs root); [|done].
    destruct (fs !! root); by simplify_map_eq. }
  destruct (JSON_parse _) as [data|]; simpl; [|done].
  destruct (set_projectId _ _) as [data'|]; simpl; [|done].
  set (fs2 := writeFileSync root (JSON_stringify data') fs1).
  assert (fs2 !! p = fs !! p) as H2.
  { subst fs2. unfold writeFileSync. by simplify_map_eq. }
  pose proof (pushResources_frame RESOURCES fs2 p Hkeep) as H3.
  destruct (pushResources execAsync RESOURCES fs2) as [[fs3 evs] [message|]]; simpl in *.
  - pose proof (restoreOnFailure_frame (existsSync fs root) fs3 p Hp) as H4.
    destruct (restoreOnFailure rootDir (existsSync fs root) fs3) as [fs4 evs']; simpl in *.
    rewrite restoreOriginal_frame by done. congruence.
  - rewrite restoreOriginal_frame by done. congruence.
Qed.

Lemma pullResources_execs resources (fs : FS) :
  execs (pullResources execAsync resources fs).2 = pullCommand <$> resources.
Proof.
  revert fs. induction resources as [|resource rest IH]; intros fs; simpl; [done|].
  destruct (execAsync (pullCommand resource) fs) as [fs' [message|]]; simpl;
    specialize (IH fs'); destruct (pullResources execAsync rest fs') as [fs'' evs];
    simpl in *; by f_equal.
Qed.

Local Arguments pullResources : simpl never.

(** X3. [pullSnapshot] runs the four pulls, in the order tables,
    buckets, teams, topics, whatever the tool answers: a rejected pull
    does not stop the ones after it. *)
Theorem pullSnapshot_commands targetDir (fs : FS) :
  execs (pull targetDir fs).1.2 =
    ["appwrite pull tables"; "appwrite pull buckets"; "appwrite pull teams";
     "appwrite pull topics"].
Proof.
  unfold pullSnapshot.
  pose proof (pullResources_execs RESOURCES fs) as H.
  destruct (pullResources execAsync RESOURCES fs) as [fs1 evs]; simpl in *.
  destruct (existsSync fs1 root); simpl; [|done].
  rewrite execs_app, H. reflexivity.
Qed.

(** X4. When [pullSnapshot] returns a path, it is the snapshot file
    of the target directory; that file holds what the pulls left at the
    project root, and the root file itself is gone.  It throws exactly
    when the pulls leave no root file. *)
Theorem pullSnapshot_moves_root targetDir (fs : FS) :
  path_join targetDir SNAPSHOT_FILENAME ≠ root →
  let after := (pullResources execAsync RESOURCES fs).1 in
  match (pull targetDir fs).2 with
  | inr targetPath =>
      targetPath = path_join targetDir SNAPSHOT_FILENAME ∧
      is_Some (after !! root) ∧
      (pull targetDir fs).1.1 !! targetPath = after !! root ∧
      (pull targetDir fs).1.1 !! root = None
  | inl _ => after !! root = None ∧ (pull targetDir fs).1.1 = after
  end.
Proof.
  intros Hne. unfold pullSnapshot. simpl.
  destruct (pullResources execAsync RESOURCES fs) as [fs1 evs]; simpl.
  destruct (existsSync fs1 root) eqn:Hroot; simpl.
  - apply existsSync_true in Hroot as [content Hc].
    rewrite (copyFileSync_Some _ _ _ _ Hc).
    assert (existsSync (<[path_join targetDir SNAPSHOT_FILENAME := content]> fs1) root = true)
      as -> by (apply existsSync_true; by simplify_map_eq).
    unfold unlinkSync. split; [done|]. split; [by eauto|]. by simplify_map_eq.
  - by apply existsSync_false in Hroot.
Qed.

(** X5. A pull that fails altogether goes unnoticed when a root
    snapshot was on disk before: the four rejections are only warned
    about, [pullSnapshot] returns, the stale root file becomes the
    snapshot of the target directory and is removed from the root. *)
Theorem pullSnapshot_stale_root targetDir (fs : FS) content :
  (∀ cmd, ∃ message, execAsync cmd fs = (fs, Some message)) →
  fs !! root = Some content →
  (pull targetDir fs).2 = inr (path_join targetDir SNAPSHOT_FILENAME) ∧
  (pull targetDir fs).1.1 =
    delete root (<[path_join targetDir SNAPSHOT_FILENAME := content]> fs).
Proof.
  intros Hfail Hroot.
  assert (∀ resources, (pullResources execAsync resources fs).1 = fs) as Hsame.
  { induction resources as [|resource rest IH]; [done|].
    change (pullResources execAsync (resource :: rest) fs) with
      (match execAsync (pullCommand resource) fs with
       | (fs', None) =>
           let '(fs'', evs) := pullResources execAsync rest fs' in
           (fs'',
            Log ("Pulling " +:+ resource +:+ "...") :: Exec (pullCommand resource)
              :: Log ("  " +:+ resource) :: evs)
       | (fs', Some message) =>
           let '(fs'', evs) := pullResources execAsync rest fs' in
           (fs'',
            Log ("Pulling " +:+ resource +:+ "...") :: Exec (pullCommand resource)
              :: Warn ("  Failed to pull " +:+ resource +:+ ": " +:+ message) :: evs)
       end).
    destruct (Hfail (pullCommand resource)) as [message ->].
    by destruct (pullResources execAsync rest fs) as [fs'' evs]. }
  unfold pullSnapshot. specialize (Hsame RESOURCES).
  destruct (pullResources execAsync RESOURCES fs) as [fs1 evs]; simpl in *. subst fs1.
  assert (existsSync fs root = true) as -> by (apply existsSync_true; eauto).
  simpl. rewrite (copyFileSync_Some _ _ _ _ Hroot).
  assert (existsSync (<[path_join targetDir SNAPSHOT_FILENAME := content]> fs) root = true)
    as ->; [|done].
  apply existsSync_true.
  destruct (decide (path_join targetDir SNAPSHOT_FILENAME = root)) as [->|];
    by simplify_map_eq.
Qed.
End SnapshotFacts.

Lemma pushSnapshot_frame_witness :
  (Cli.pushSnapshot Sample.parse Sample.setProjectId Sample.stringify Fixture.bucketsFail
     Sample.rootDir Sample.snapshotPath Sample.config Fixture.healthy).1.1
    !! "/srv/app/package.json" = Some "{name}".
Proof.
  refine (eq_trans (pushSnapshot_frame Sample.parse Sample.setProjectId Sample.stringify
    Fixture.bucketsFail Sample.rootDir Sample.snapshotPath Sample.config Fixture.healthy
    "/srv/app/package.json" _ _ _) _).
  - vm_compute. discriminate.
  - vm_compute. discriminate.
  - intros cmd fs'. reflexivity.
  - vm_compute; reflexivity.
Defined.

Lemma pullSnapshot_moves_root_witness :
  let after := (Cli.pullResources Fixture.pulling Cli.RESOURCES Fixture.healthy).1 in
  match (Cli.pullSnapshot Fixture.pulling Sample.rootDir Fixture.v3 Fixture.healthy).2 with
  | inr targetPath =>
      targetPath = Cli.path_join Fixture.v3 Cli.SNAPSHOT_FILENAME ∧
      is_Some (after !! Cli.rootConfig Sample.rootDir) ∧
      (Cli.pullSnapshot Fixture.pulling Sample.rootDir Fixture.v3 Fixture.healthy).1.1
        !! targetPath = after !! Cli.rootConfig Sample.rootDir ∧
      (Cli.pullSnapshot Fixture.pulling Sample.rootDir Fixture.v3 Fixture.healthy).1.1
        !! Cli.rootConfig Sample.rootDir = None
  | inl _ =>
      after !! Cli.rootConfig Sample.rootDir = None ∧
      (Cli.pullSnapshot Fixture.pulling Sample.rootDir Fixture.v3 Fixture.healthy).1.1 = after
  end.
Proof.
  apply (pullSnapshot_moves_root Fixture.pulling Sample.rootDir Fixture.v3 Fixture.healthy).
  vm_compute. discriminate.
Defined.

Lemma pullSnapshot_stale_root_witness :
  (Cli.pullSnapshot Fixture.offline Sample.rootDir Fixture.v3 Fixture.healthy).1.1
    !! "/srv/app/appwrite/migration/v3/appwrite.config.json" = Some "{}" ∧
  (Cli.pullSnapshot Fixture.offline Sample.rootDir Fixture.v3 Fixture.healthy).1.1
    !! "/srv/app/appwrite.config.json" = None.
Proof.
  destruct (pullSnapshot_stale_root Fixture.offline Sample.rootDir Fixture.v3
              Fixture.healthy "{}") as [_ ->].
  - intros cmd. exists "fetch failed". reflexivity.
  - vm_compute; reflexivity.
  - split; vm_compute; reflexivity.
Defined.

Lemma pushSnapshot_restores_root_witness :
  (Cli.pushSnapshot Sample.parse Sample.setProjectId Sample.stringify Fixture.bucketsFail
     Sample.rootDir Sample.snapshotPath Sample.config Fixture.healthy).1.1
    !! "/srv/app/appwrite.config.json" = Some "{}".
Proof.
  refine (eq_trans (pushSnapshot_restores_root Sample.parse Sample.setProjectId
    Sample.stringify Fixture.bucketsFail Sample.rootDir Sample.snapshotPath Sample.config
    Fixture.healthy _) _).
  - intros cmd fs'. reflexivity.
  - vm_compute; reflexivity.
Defined.

Lemma pushSnapshot_removes_backup_witness :
  (Cli.pushSnapshot Sample.parse Sample.setProjectId Sample.stringify Fixture.bucketsFail
     Sample.rootDir Sample.snapshotPath Sample.config Fixture.healthy).1.1
    !! "/srv/app/appwrite.config.json.bak" = None.
Proof.
  refine (pushSnapshot_removes_backup Sample.parse Sample.setProjectId Sample.stringify
    Fixture.bucketsFail Sample.rootDir Sample.snapshotPath Sample.config Fixture.healthy
    "{}" "{tables}" "{tables}" _ _ _ _ _).
  - intros cmd fs'. reflexivity.
  - vm_compute; reflexivity.
  - exists "{tables}". vm_compute; reflexivity.
  - vm_compute; reflexivity.
  - reflexivity.
Defined.

Lemma pushSnapshot_without_root_witness :
  (Cli.pushSnapshot Sample.parse Sample.setProjectId Sample.stringify Fixture.bucketsFail
     Sample.rootDir Sample.snapshotPath Sample.config Fixture.rootless).1.1
    !! "/srv/app/appwrite.config.json.bak" = None.
Proof.
  refine (eq_trans (pushSnapshot_without_root Sample.parse Sample.setProjectId
    Sample.stringify Fixture.bucketsFail Sample.rootDir Sample.snapshotPath Sample.config
    Fixture.rootless _ _) _).
  - intros cmd fs'. reflexivity.
  - vm_compute; reflexivity.
  - vm_compute; reflexivity.
Defined.

(** ** The poller, further *)

Section PollerAccounting.
Import Appwrite Poller.
Variable listAttributes : nat → string → string → RemoteError + list Attribute.

Local Abbreviation pollTable := (Poller.pollTable listAttributes).
Local Abbreviation pollTables := (Poller.pollTables listAttributes).
Local Abbreviation waitForAttributes := (Poller.waitForAttributes listAttributes).

Lemma pollTable_accounted fuel calls db col :
  accounted calls 1 (pollTable fuel calls db col).
Proof.
  revert calls. induction fuel as [|fuel IH]; intros calls; simpl.
  { repeat split; [lia|constructor|lia|done]. }
  specialize (IH (S calls)).
  destruct (listAttributes calls db col) as [e|attributes].
  - case_bool_decide; simpl; [repeat split; (lia || constructor)|].
    destruct (Poller.pollTable _ fuel (S calls) db col) as [[f c] evs]; simpl in *.
    destruct IH as (-> & Hs & Hle & Heq). repeat split; [lia|by constructor|lia|].
    intros Hf. specialize (Heq Hf). lia.
  - destruct (length (pendingOf attributes) =? 0)%nat; simpl;
      [repeat split; (lia || constructor)|].
    destruct (Poller.pollTable _ fuel (S calls) db col) as [[f c] evs]; simpl in *.
    destruct IH as (-> & Hs & Hle & Heq). repeat split; [lia|by constructor|lia|].
    intros Hf. specialize (Heq Hf). lia.
Qed.

Lemma pollTables_accounted fuel calls tbls :
  accounted calls (length (polled tbls)) (pollTables fuel calls tbls).
Proof.
  revert calls. induction tbls as [|table rest IH]; intros calls; simpl.
  { repeat split; try lia; constructor. }
  unfold polled; simpl. fold (polled rest).
  destruct (truthy (databaseId table)) as [db|] eqn:Hdb; simpl.
  - pose proof (pollTable_accounted fuel calls db (table_id table)) as H1.
    destruct (Poller.pollTable _ fuel calls db (table_id table)) as [[[] calls'] evs];
      simpl in *; destruct H1 as (-> & Hs & Hle & Heq).
    + specialize (IH (calls + length (queries evs))%nat). specialize (Heq eq_refl).
      destruct (Poller.pollTables _ fuel _ rest) as [[f c] evs']; simpl in *.
      destruct IH as (-> & Hs' & Hle' & Heq').
      rewrite queries_app, sleeps_app, !length_app.
      repeat split; [lia|by apply Forall_app|lia|].
      intros Hf. specialize (Heq' Hf). lia.
    + split; [done|]. split; [done|]. split; [lia|done].
  - specialize (IH calls).
    destruct (Poller.pollTables _ fuel calls rest) as [[f c] evs']; simpl in *. done.
Qed.

(** X9. The poller waits 2000 ms each time and nothing else; when it
    returns, the number of its queries is the number of its waits plus
    the number of polled tables, so one query per table when nothing is
    pending; and without a readable snapshot it returns at once, with
    no query and no wait. *)
Theorem waitForAttributes_accounting fuel calls schema :
  let '(finished, _, evs) := waitForAttributes fuel calls schema in
  Forall (λ ms, ms = 2000) (sleeps evs) ∧
  (finished = true →
   length (queries evs)
   = (length (sleeps evs) + length (polled (from_option tablesOf [] schema)))%nat) ∧
  (schema = None → finished = true ∧ queries evs = [] ∧ sleeps evs = []).
Proof.
  destruct schema as [schema|]; simpl.
  - pose proof (pollTables_accounted fuel calls (tablesOf schema)) as H.
    destruct (Poller.pollTables _ fuel calls (tablesOf schema)) as [[f c] evs]; simpl in *.
    destruct H as (-> & Hs & _ & Heq). by repeat split.
  - split; [constructor|]. by split.
Qed.

Lemma pollTable_stuck fuel calls db col :
  (∀ n, match listAttributes n db col with
        | inr attributes => pendingOf attributes ≠ []
        | inl e => code e ≠ Some 500
        end) →
  ∃ evs,
    pollTable fuel calls db col = (false, (calls + fuel)%nat, evs) ∧
    sleeps evs = replicate fuel 2000 ∧ queries evs = replicate fuel (db, col).
Proof.
  intros Hstuck. revert calls. induction fuel as [|fuel IH]; intros calls; simpl.
  { exists []. by rewrite Nat.add_0_r. }
  destruct (IH (S calls)) as (evs & -> & Hs & Hq).
  specialize (Hstuck calls).
  destruct (listAttributes calls db col) as [e|attributes].
  - rewrite bool_decide_eq_false_2 by done. eexists. split; [|split].
    + by rewrite Nat.add_succ_r.
    + simpl. by f_equal.
    + simpl. by f_equal.
  - destruct (pendingOf attributes) as [|a pending] eqn:Hp; [done|]. simpl.
    eexists. split; [|split].
    + by rewrite Nat.add_succ_r.
    + simpl. by f_equal.
    + simpl. by f_equal.
Qed.

(** X10. The poller has no limit of its own: as long as the first polled
    table of a snapshot is answered with an attribute that is not
    [available] (be it [failed] for good) or with an error other than 500,
    it queries and waits again, however many times, and never moves on to
    the next table. *)
Theorem waitForAttributes_no_timeout fuel calls table rest db :
  truthy (databaseId table) = Some db →
  (∀ n, match listAttributes n db (table_id table) with
        | inr attributes => pendingOf attributes ≠ []
        | inl e => code e ≠ Some 500
        end) →
  let '(finished, calls', evs) :=
    waitForAttributes fuel calls (Some {| tables := Some (table :: rest) |}) in
  finished = false ∧ calls' = (calls + fuel)%nat ∧
  sleeps evs = replicate fuel 2000 ∧
  queries evs = replicate fuel (db, table_id table).
Proof.
  intros Hdb Hstuck. simpl. unfold tablesOf. simpl. rewrite Hdb.
  destruct (pollTable_stuck fuel calls db (table_id table) Hstuck) as (evs & -> & Hs & Hq).
  by repeat split.
Qed.
End PollerAccounting.

Lemma waitForAttributes_no_timeout_witness :
  (Poller.waitForAttributes Fixture.stuck 1000 0
     (Some {| Poller.tables := Some [Sample.users; Sample.legacy] |})).1
  = (false, 1000%nat).
Proof.
  pose proof (waitForAttributes_no_timeout Fixture.stuck 1000 0 Sample.users [Sample.legacy]
                "main") as H.
  destruct (Poller.waitForAttributes Fixture.stuck 1000 0 _) as [[f c] evs].
  destruct H as (-> & -> & _); [reflexivity|intros n; discriminate|reflexivity].
Defined.

(** ** The runner, further *)

(** An event that is written out in a list of events. *)
Ltac among :=
  repeat first
    [ apply list_elem_of_here
    | apply list_elem_of_further
    | apply elem_of_app; right ].

Section RunnerFurther.
Import Appwrite Poller Runner.
Variable fuel : nat.
Variable w : World.
Variable config : AppConfig.

Local Abbreviation run := (runMigrations fuel w config).

(** X11. The versions are taken up in the order of discovery, from its
    start and without a gap, and a run that completes has taken up every
    discovered directory. *)
Theorem runMigrations_processing_order store :
  (versions (run store)).*1 `prefix_of` discover w ∧
  (ending (run store) = Completed → (versions (run store)).*1 = discover w).
Proof.
  unfold runMigrations.
  destruct (Cli.configureClient _ _) as [cevs [|cmsg]]; [|split; [apply prefix_nil|done]].
  destruct (negb _); [split; [apply prefix_nil|done]|].
  destruct (getAppliedMigrations config store) as [evs0 [message|ids]];
    [split; [apply prefix_nil|done]|].
  destruct (applyVersions _ _ _ _ _ _ _) as [[o segs] store'] eqn:Hrun. cbn.
  split; [by eapply applyVersions_order|]. intros ->. by eapply applyVersions_Completed.
Qed.

Lemma prepare_outcome version m calls o :
  (prepare fuel w config version m calls).2.2 = Some o → o = Exited 1 ∨ o = Waiting.
Proof.
  unfold prepare, backupStage, pushStage, pollStage.
  repeat case_match; simplify_eq; simpl; intros; simplify_eq; auto.
Qed.

(** X12. A schema push that is rejected ends the run with exit code 1:
    for that version there is no query of the poller, no wait, no user
    action and no write of an applied record. *)
Theorem failed_push_stops_run store ids version evs file m i message :
  fetched config store = Some ids →
  (version, evs) ∈ versions (run store) →
  definition w version = Some (file, m, i) → i ∉ ids →
  existsSync w (snapshotPath w version) = true →
  pushSnapshot w (snapshotPath w version) = Thrown message →
  ending (run store) = Exited 1 ∧
  Forall (λ e, isQuiet e = true) evs ∧ queries evs = [] ∧ sleeps evs = [].
Proof.
  intros Hids Hseg Hdef Hpending Hex Hpush.
  destruct (fetched_segments _ _ _ _ _ _ _ Hids Hseg) as (c & s & c' & s' & r & Hbody & Hend).
  rewrite (applyVersion_pending _ _ _ _ _ _ _ _ _ _ Hdef (not_elem_of_fetched _ _ Hpending))
    in Hbody.
  unfold pipeline, prepare, pushStage in Hbody. rewrite Hex, Hpush in Hbody.
  unfold backupStage in Hbody.
  repeat case_match; simplify_eq; (split; [by apply Hend|]); by repeat constructor.
Qed.

(** X13. A user action that rejects ends the run with exit code 1 (if
    the run gets that far), and no applied record is written or
    attempted in its version's part of the run. *)
Theorem failed_up_is_not_recorded store ids version evs file m i action message :
  fetched config store = Some ids →
  (version, evs) ∈ versions (run store) →
  definition w version = Some (file, m, i) → i ∉ ids →
  up m = Some action → settles action = Thrown message →
  Forall (λ e, isRecord e = false) evs ∧
  (ending (run store) = Exited 1 ∨ ending (run store) = Waiting).
Proof.
  intros Hids Hseg Hdef Hpending Hup Hsettles.
  destruct (fetched_segments _ _ _ _ _ _ _ Hids Hseg) as (c & s & c' & s' & r & Hbody & Hend).
  rewrite (applyVersion_pending _ _ _ _ _ _ _ _ _ _ Hdef (not_elem_of_fetched _ _ Hpending))
    in Hbody.
  unfold pipeline in Hbody. rewrite (upStage_Some _ _ _ Hup), Hsettles in Hbody.
  pose proof (prepare_preparing fuel w config version m c) as Hprep.
  pose proof (prepare_outcome version m c) as Hout.
  assert (Forall (λ e, isRecord e = false) (prepare fuel w config version m c).2.1) as Hq.
  { eapply Forall_impl; [exact Hprep|]. by intros []. }
  pose proof (call_context_console action version) as Hcall.
  assert (Forall (λ e, isRecord e = false) (call action (context version)).1) as Hrec.
  { eapply Forall_impl; [exact Hcall|]. by intros []. }
  destruct (prepare fuel w config version m c) as [calls' [e [o|]]]; simpl in *; simplify_eq.
  - split; [by repeat constructor|]. rewrite (Hend o eq_refl). by apply Hout.
  - split; [|left; by apply Hend].
    repeat constructor. rewrite !Forall_app. split; [done|].
    repeat constructor. apply Forall_app. split; [done|by repeat constructor].
Qed.

Lemma appended_refl (P : string → Prop) store : appended P store store.
Proof.
  exists []. rewrite app_nil_r. split; [done|]. split; [constructor|].
  by intros j ?%elem_of_nil.
Qed.

Lemma appended_trans (P : string → Prop) store s1 s2 :
  appended P store s1 → appended P s1 s2 → appended P store s2.
Proof.
  intros (a1 & H1 & Hnd1 & HP1) (a2 & H2 & Hnd2 & HP2).
  exists (a1 ++ a2). rewrite H2, H1, <- app_assoc. split; [done|]. split.
  - apply NoDup_app. split; [done|]. split; [|done].
    intros j Hj1 Hj2. destruct (HP2 j Hj2) as [Hnot _].
    apply Hnot. rewrite H1. apply elem_of_app. by right.
  - intros j [Hj|Hj]%elem_of_app; [by apply HP1|].
    destruct (HP2 j Hj) as [Hnot HP]. split; [|done].
    intros Hin. apply Hnot. rewrite H1. apply elem_of_app. by left.
Qed.

Lemma appended_weaken (P Q : string → Prop) store store' :
  (∀ j, P j → Q j) → appended P store store' → appended Q store store'.
Proof.
  intros HPQ (added & H & Hnd & HP). exists added. split; [done|]. split; [done|].
  intros j Hj. destruct (HP j Hj). auto.
Qed.

Lemma recordStage_appended version i store :
  appended (λ j, j = i) store (recordStage config version i store).1.
Proof.
  unfold recordStage, recordMigration, createDocument.
  destruct store as [|e|docs]; simpl; try apply appended_refl.
  case_bool_decide as Hin; simpl; [apply appended_refl|].
  exists [i]. simpl. rewrite fmap_app. split; [done|]. split; [apply NoDup_singleton|].
  by intros j ->%list_elem_of_singleton.
Qed.

Lemma pipeline_appended version m i calls store :
  appended (λ j, j = i) store (pipeline fuel w config version m i calls store).1.2.
Proof.
  unfold pipeline.
  destruct (prepare fuel w config version m calls) as [calls' [e [o|]]];
    [apply appended_refl|].
  destruct (upStage version m) as [e6 [o|]]; [apply appended_refl|].
  pose proof (recordStage_appended version i store) as Hrec.
  by destruct (recordStage config version i store) as [store' [e7 o]].
Qed.

Lemma applyVersion_appended appliedSet version calls store :
  appended (λ j, ∃ file m, definition w version = Some (file, m, j)) store
    (applyVersion fuel w config appliedSet version calls store).1.2.
Proof.
  unfold applyVersion, invalidMigration.
  destruct (validIndexFile w version) as [file|] eqn:Hf; [|apply appended_refl].
  destruct (jitiImport w file) as [|[m|]] eqn:Hm; try apply appended_refl.
  destruct (truthy (id m)) as [i|] eqn:Hi; [|apply appended_refl].
  assert (definition w version = Some (file, m, i)) as Hdef by by apply definition_Some.
  case_bool_decide; [apply appended_refl|].
  pose proof (pipeline_appended version m i calls store) as Hpipe.
  destruct (pipeline fuel w config version m i calls store) as [[c1 s1] [e1 o1]]; simpl in *.
  eapply appended_weaken; [|exact Hpipe]. intros j ->. by exists file, m.
Qed.

Lemma applyVersions_appended appliedSet dirs calls store :
  appended (λ j, ∃ version file m, version ∈ dirs ∧ definition w version = Some (file, m, j))
    store (applyVersions fuel w config appliedSet dirs calls store).2.
Proof.
  revert calls store. induction dirs as [|dir rest IH]; intros calls store;
    cbn [applyVersions]; [apply appended_refl|].
  pose proof (applyVersion_appended appliedSet dir calls store) as Hbody.
  destruct (applyVersion fuel w config appliedSet dir calls store)
    as [[c1 s1] [evs1 [o1|]]]; simpl in *.
  - eapply appended_weaken; [|exact Hbody].
    intros j (file & m & Hdef). exists dir, file, m. split; [left|done].
  - specialize (IH c1 s1).
    destruct (applyVersions fuel w config appliedSet rest c1 s1) as [[o2 segs2] s2];
      simpl in *.
    eapply appended_trans.
    + eapply appended_weaken; [|exact Hbody].
      intros j (file & m & Hdef). exists dir, file, m. split; [left|done].
    + eapply appended_weaken; [|exact IH].
      intros j (version & file & m & Hin & Hdef). exists version, file, m.
      split; [by right|done].
Qed.

(** X14. A run only ever adds to the tracking collection: the
    identifiers on record before are on record afterwards, in the same
    order and before the new ones, and every new one is the identifier of
    the definition of a discovered version, was not on record, and is
    added once. *)
Theorem runMigrations_appends store :
  ∃ added,
    documentIds (final (run store)) = documentIds store ++ added ∧
    NoDup added ∧
    ∀ j, j ∈ added →
      (j ∉ documentIds store) ∧
      ∃ version file m, version ∈ discover w ∧ definition w version = Some (file, m, j).
Proof.
  change (appended
            (λ j, ∃ version file m,
                version ∈ discover w ∧ definition w version = Some (file, m, j))
            store (final (run store))).
  unfold runMigrations.
  destruct (Cli.configureClient _ _) as [cevs [|cmsg]]; [|apply appended_refl].
  destruct (negb _); [apply appended_refl|].
  destruct (getAppliedMigrations config store) as [evs0 [message|ids]];
    [apply appended_refl|].
  pose proof (applyVersions_appended (list_to_set ids) (discover w) 0%nat store) as H.
  by destruct (applyVersions _ _ _ _ _ _ _) as [[o segs] store'].
Qed.

Lemma applyVersion_Missing appliedSet version calls :
  (applyVersion fuel w config appliedSet version calls Missing).1.2 = Missing.
Proof.
  unfold applyVersion, invalidMigration, pipeline.
  repeat case_match; simplify_eq; try done.
  unfold recordStage, recordMigration in *. simpl in *. by simplify_eq.
Qed.

Lemma applyVersions_Missing appliedSet dirs calls o segs store' :
  applyVersions fuel w config appliedSet dirs calls Missing = (o, segs, store') →
  store' = Missing ∧
  ∀ version evs, (version, evs) ∈ segs →
    ∃ c c' r,
      applyVersion fuel w config appliedSet version c Missing = (c', Missing, (evs, r)) ∧
      (∀ o', r = Some o' → o = o').
Proof.
  revert calls o segs store'.
  induction dirs as [|dir rest IH]; intros calls o segs store' Hrun;
    cbn [applyVersions] in Hrun.
  - simplify_eq. split; [done|]. by intros version evs ?%elem_of_nil.
  - pose proof (applyVersion_Missing appliedSet dir calls) as Hm.
    destruct (applyVersion fuel w config appliedSet dir calls Missing)
      as [[c1 s1] [evs1 [o1|]]] eqn:Hbody; simpl in Hm; subst s1.
    + simplify_eq. split; [done|]. intros version evs Hin.
      apply list_elem_of_singleton in Hin. simplify_eq.
      eexists _, _, _. split; [exact Hbody|]. by intros ? [= <-].
    + destruct (applyVersions fuel w config appliedSet rest c1 Missing)
        as [[o2 segs2] s2] eqn:Hrest.
      simplify_eq. destruct (IH _ _ _ _ Hrest) as [-> Hsegs]. split; [done|].
      intros version evs [Heq|Hin]%elem_of_cons.
      * simplify_eq. eexists _, _, _. split; [exact Hbody|done].
      * by apply Hsegs.
Qed.

(** X15. A run against a project whose tracking collection was never set
    up does not stop at the fetch, which takes the 404 for an empty
    collection.  Every version that loads is taken for pending, and the
    missing collection only shows when its record is to be written:
    unless an earlier stage ends the run, the user action has then been
    called and has returned, the run is rejected, and nothing is on
    record. *)
Theorem missing_collection_is_found_late version evs file m i :
  (version, evs) ∈ versions (run Missing) →
  definition w version = Some (file, m, i) →
  final (run Missing) = Missing ∧
  (ending (run Missing) = Exited 1 ∨ ending (run Missing) = Waiting ∨
   ending (run Missing) = Rejected "not found" ∧
   CreateDocument (database config) (migrationCollectionId config) i version ∈ evs ∧
   ∀ action, up m = Some action → Up version ∈ evs ∧ settles action = Returned).
Proof.
  unfold runMigrations.
  destruct (Cli.configureClient _ _) as [cevs [|cmsg]]; [|by intros ?%elem_of_nil].
  destruct (negb _); [by intros ?%elem_of_nil|].
  change (getAppliedMigrations config Missing)
    with ([ListDocuments (database config) (migrationCollectionId config)],
          inr [] : string + list string).
  cbv iota beta.
  destruct (applyVersions _ _ _ _ _ _ _) as [[o segs] store'] eqn:Hrun. cbn.
  intros Hin Hdef.
  destruct (applyVersions_Missing _ _ _ _ _ _ Hrun) as [-> Hsegs]. split; [done|].
  destruct (Hsegs _ _ Hin) as (c & c' & r & Hbody & Hend).
  rewrite (applyVersion_pending _ _ _ _ _ _ _ _ _ _ Hdef) in Hbody by set_solver.
  unfold pipeline in Hbody.
  pose proof (prepare_outcome version m c) as Hout.
  destruct (prepare fuel w config version m c) as [calls' [e [o0|]]]; simpl in *.
  { simplify_eq. rewrite (Hend o0 eq_refl).
    destruct (Hout o0 eq_refl) as [->| ->]; auto. }
  destruct (up m) as [action|] eqn:Hup.
  - rewrite (upStage_Some _ _ _ Hup) in Hbody.
    destruct (settles action) eqn:Hsettles; simpl in Hbody; simplify_eq.
    + right; right. split; [by apply Hend|]. split; [among|].
      intros action' [= <-]. split; [among|done].
    + left. by apply Hend.
  - rewrite (upStage_None _ _ Hup) in Hbody. simpl in Hbody. simplify_eq.
    right; right. split; [by apply Hend|]. split; [among|done].
Qed.
End RunnerFurther.

Lemma failed_push_stops_run_witness :
  Runner.ending
    (Runner.runMigrations 2 Fixture.pushRejected Sample.withBackup (Sample.applied []))
  = Runner.Exited 1 ∧
  Appwrite.documentIds
    (Runner.final
       (Runner.runMigrations 2 Fixture.pushRejected Sample.withBackup (Sample.applied [])))
  = ["A"].
Proof.
  split; [|vm_compute; reflexivity].
  refine (proj1 (failed_push_stops_run 2 Fixture.pushRejected Sample.withBackup
    (Sample.applied []) [] "v2"
    (Runner.segment 1
       (Runner.runMigrations 2 Fixture.pushRejected Sample.withBackup (Sample.applied [])))
    Sample.v2_index (Sample.migration (Some "B") true (Some Sample.seed)) "B"
    "exit code 1" _ _ _ _ _ _)).
  - reflexivity.
  - vm_compute. right; left.
  - vm_compute; reflexivity.
  - apply not_elem_of_nil.
  - vm_compute; reflexivity.
  - reflexivity.
Defined.

Lemma failed_up_is_not_recorded_witness :
  Forall (λ e, Runner.isRecord e = false)
    (Runner.segment 1
       (Runner.runMigrations 1 Fixture.upRejected Sample.config (Sample.applied []))).
Proof.
  refine (proj1 (failed_up_is_not_recorded 1 Fixture.upRejected Sample.config
    (Sample.applied []) [] "v2" _ Sample.v2_index
    (Sample.migration (Some "B") false (Some Fixture.failing)) "B" Fixture.failing
    "no such table" _ _ _ _ _ _)).
  - reflexivity.
  - vm_compute. right; left.
  - vm_compute; reflexivity.
  - apply not_elem_of_nil.
  - reflexivity.
  - reflexivity.
Defined.

Lemma missing_collection_is_found_late_witness :
  Up "v1" ∈
    Runner.segment 0
      (Runner.runMigrations 1 Sample.bothApplied Sample.config Appwrite.Missing) ∧
  Runner.ending (Runner.runMigrations 1 Sample.bothApplied Sample.config Appwrite.Missing)
  = Runner.Rejected "not found".
Proof.
  destruct (missing_collection_is_found_late 1 Sample.bothApplied Sample.config "v1"
              (Runner.segment 0
                 (Runner.runMigrations 1 Sample.bothApplied Sample.config Appwrite.Missing))
              Sample.v1_index (Sample.migration (Some "A") false (Some Sample.seed)) "A")
    as [_ [H|[H|(Hend & _ & Hup)]]].
  - vm_compute. left.
  - vm_compute; reflexivity.
  - vm_compute in H. discriminate H.
  - vm_compute in H. discriminate H.
  - split; [|exact Hend]. by destruct (Hup Sample.seed eq_refl).
Defined.

Lemma second_run_is_quiet_witness :
  Runner.final
    (Runner.runMigrations 2 Sample.twoVersions Sample.withBackup
       (Runner.final
          (Runner.runMigrations 2 Sample.twoVersions Sample.withBackup (Sample.applied []))))
  = Runner.final
      (Runner.runMigrations 2 Sample.twoVersions Sample.withBackup (Sample.applied [])).
Proof.
  refine (proj2 (second_run_is_quiet Sample.twoVersions Sample.withBackup 2 2
                   (Sample.applied []) _ _)).
  - vm_compute; reflexivity.
  - vm_compute. lia.
Defined.

(** ** Setup of the tracking collection *)

Section SetupFacts.
Import Appwrite Setup.
Variable config : AppConfig.

Local Abbreviation db := (database config).
Local Abbreviation coll := (migrationCollectionId config).

(** Writes under a key that held nothing keep what the map held. *)
Ltac fresh_key :=
  repeat match goal with
  | H : bool_decide _ = false |- _ =>
      apply bool_decide_eq_false in H; rewrite <- eq_None_not_Some in H
  end;
  apply map_subseteq_spec; intros k v Hk;
  repeat (rewrite lookup_insert_ne; [|by intros <-; simplify_eq]);
  done.

(** Every branch of the setup, with the answers of the remote as
    hypotheses. *)
Ltac setup_cases :=
  repeat (case_match; simplify_eq/=); intros; simplify_eq/=;
  repeat match goal with
  | H : bool_decide _ = true |- _ => apply bool_decide_eq_true in H
  | H : bool_decide _ = false |- _ => apply bool_decide_eq_false in H
  end;
  simplify_map_eq; try done.

(** A second look at a remote that holds the database and the collection. *)
Lemma setup_settled r :
  is_Some (databases r !! db) → is_Some (collections r !! (db, coll)) →
  ensureMigrationCollection reliable config r
  = (r, [inr (GetDatabase db); inr (GetCollection db coll)], Returned).
Proof.
  intros Hdb Hcoll. unfold ensureMigrationCollection, ensure, perform, reliable. simpl.
  rewrite !bool_decide_eq_true_2 by done. done.
Qed.

(** X16. On a remote that works the setup returns, whatever was there
    before: afterwards the tracking collection exists, with the documents
    it held or empty when it was missing, and a second setup only looks
    (two reads, no write) and changes nothing. *)
Theorem ensureMigrationCollection_reliable r :
  let '(r', steps, result) := ensureMigrationCollection reliable config r in
  result = Returned ∧
  (∃ docs, storeOf config r' = Collection docs ∧
     (storeOf config r = Collection docs ∨ storeOf config r = Missing ∧ docs = [])) ∧
  ensureMigrationCollection reliable config r'
  = (r', [inr (GetDatabase db); inr (GetCollection db coll)], Returned).
Proof.
  destruct (ensureMigrationCollection reliable config r) as [[r' steps] result] eqn:Hrun.
  assert (result = Returned ∧ is_Some (databases r' !! db) ∧
          is_Some (collections r' !! (db, coll)) ∧
          ∃ docs, storeOf config r' = Collection docs ∧
            (storeOf config r = Collection docs ∨ storeOf config r = Missing ∧ docs = []))
    as (Hres & Hdb & Hcoll & Hdocs).
  { revert Hrun.
    unfold ensureMigrationCollection, ensure, performAll, perform, respond, addAttribute,
      reliable, storeOf.
    setup_cases.
    all: try by (repeat split; eauto).
    all: try (exfalso; by eauto).
    all: exfalso; match goal with H : _ ∈ _ |- _ => not_among H end. }
  split; [done|]. split; [done|]. by apply setup_settled.
Qed.

(** X17. Whichever of its calls the remote rejects, and with whatever
    error, the setup leaves every database and every collection that was
    there as it was, documents and attributes included: it only ever
    adds. *)
Theorem ensureMigrationCollection_keeps_data faults r :
  databases r ⊆ databases (ensureMigrationCollection faults config r).1.1 ∧
  collections r ⊆ collections (ensureMigrationCollection faults config r).1.1.
Proof.
  unfold ensureMigrationCollection, ensure, performAll, perform, respond, addAttribute.
  repeat (case_match; simplify_eq/=); (split; [try done|try done]); fresh_key.
Qed.

(** X18. A setup that is cut short is not made up for.  When the
    collection is created and the creation of its attributes is rejected,
    the setup throws; the collection is there without attributes, and a
    later setup on a remote that works finds it, returns and leaves it
    without them. *)
Theorem partial_setup_is_not_repaired r e :
  collections r !! (db, coll) = None →
  let '(r1, steps, result) := ensureMigrationCollection (attributesRejected e) config r in
  result = Thrown (message e) ∧
  attributes <$> collections r1 !! (db, coll) = Some [] ∧
  ensureMigrationCollection reliable config r1
  = (r1, [inr (GetDatabase db); inr (GetCollection db coll)], Returned).
Proof.
  intros Hnone.
  destruct (ensureMigrationCollection (attributesRejected e) config r)
    as [[r1 steps] result] eqn:Hrun.
  assert (result = Thrown (message e) ∧ is_Some (databases r1 !! db) ∧
          attributes <$> collections r1 !! (db, coll) = Some []) as (Hres & Hdb & Hcoll).
  { revert Hrun.
    unfold ensureMigrationCollection, ensure, performAll, perform, respond, addAttribute,
      attributesRejected.
    setup_cases.
    all: try by (repeat split; eauto).
    all: try (exfalso; by eauto).
    all: exfalso;
      match goal with H : is_Some (collections _ !! _) |- _ =>
        rewrite Hnone in H; by apply is_Some_None in H
      end. }
  split; [done|]. split; [done|]. apply setup_settled; [done|].
  by destruct (collections r1 !! (db, coll)).
Qed.

(** X19. A record goes round: an identifier that is not on record is
    written, comes after the ones that were there, and is among the
    applied identifiers the next fetch returns exactly when the
    collection held fewer than 5000 documents, the size of the one page
    that is fetched. *)
Theorem recordMigration_round_trip i name docs :
  i ∉ doc_id <$> docs →
  ∃ store' ids,
    (recordMigration config i name (Collection docs)).2 = inr store' ∧
    documentIds store' = (doc_id <$> docs) ++ [i] ∧
    (getAppliedMigrations config store').2 = inr ids ∧
    (length ids ≤ 5000)%nat ∧
    (i ∈ ids ↔ (length docs < 5000)%nat).
Proof.
  intros Hnew. unfold recordMigration, getAppliedMigrations, createDocument, listDocuments.
  rewrite bool_decide_eq_false_2 by done. simpl.
  exists (Collection (docs ++ [{| doc_id := i; doc_name := name |}])),
    (doc_id <$> take 5000 (docs ++ [{| doc_id := i; doc_name := name |}])).
  split; [done|]. simpl. split; [by rewrite fmap_app|]. split; [done|].
  split; [rewrite length_fmap, length_take; lia|].
  rewrite fmap_take, fmap_app. simpl. split.
  - intros Hin. destruct (decide (length docs < 5000)%nat) as [|Hge]; [done|].
    rewrite take_app_le in Hin by (rewrite length_fmap; lia).
    exfalso. apply Hnew. by eapply subseteq_take.
  - intros Hlt. rewrite take_ge by (rewrite length_app, length_fmap; simpl; lia).
    apply elem_of_app. right. apply list_elem_of_here.
Qed.
End SetupFacts.

Lemma partial_setup_is_not_repaired_witness :
  Setup.attributes <$>
    Setup.collections
      (Setup.ensureMigrationCollection (Setup.attributesRejected Fixture.quota)
         Sample.config Fixture.bare).1.1
      !! ("system", "migrations") = Some [].
Proof.
  pose proof (partial_setup_is_not_repaired Sample.config Fixture.bare Fixture.quota) as H.
  destruct (Setup.ensureMigrationCollection _ Sample.config Fixture.bare)
    as [[r1 steps] result].
  destruct H as (_ & H & _); [vm_compute; reflexivity|exact H].
Defined.

Lemma recordMigration_round_trip_witness :
  ∃ store' ids,
    (Appwrite.recordMigration Sample.config "B" "v2"
       (Appwrite.Collection [{| Appwrite.doc_id := "A"; Appwrite.doc_name := "v1" |}])).2
    = inr store' ∧
    (Appwrite.getAppliedMigrations Sample.config store').2 = inr ids ∧ "B" ∈ ids.
Proof.
  destruct (recordMigration_round_trip Sample.config "B" "v2"
              [{| Appwrite.doc_id := "A"; Appwrite.doc_name := "v1" |}])
    as (store' & ids & Hrec & _ & Hget & _ & Hin).
  - intros Hin. not_among Hin.
  - exists store', ids. split; [exact Hrec|]. split; [exact Hget|].
    apply Hin. simpl. lia.
Defined.

(** ** Configuration resolver *)

Section ConfigFacts.
Import Poller Config.

(** X20. [loadConfig] returns exactly when the three credentials are set
    and not empty.  The configuration it returns carries them, and
    the backup command as it is set; its collection and database
    identifiers are never empty, are [migrations] and [system] without a
    readable [config.json], and the [database] key of the file wins over
    its [databaseId] key. *)
Theorem loadConfig_result env configFile :
  match (loadConfig env configFile).2 with
  | inr config =>
      env !! "APPWRITE_ENDPOINT" = Some (endpoint config) ∧
      env !! "APPWRITE_PROJECT_ID" = Some (projectId config) ∧
      env !! "APPWRITE_API_KEY" = Some (apiKey config) ∧
      backupCommand config = env !! "BACKUP_COMMAND" ∧
      endpoint config ≠ "" ∧ projectId config ≠ "" ∧ apiKey config ≠ "" ∧
      migrationCollectionId config ≠ "" ∧ database config ≠ "" ∧
      (configFile = None ∨ configFile = Some None →
       migrationCollectionId config = "migrations" ∧ database config = "system") ∧
      (∀ fileConfig d,
         configFile = Some (Some fileConfig) →
         truthy (file_database fileConfig) = Some d → database config = d)
  | inl _ =>
      truthy (env !! "APPWRITE_ENDPOINT") = None ∨
      truthy (env !! "APPWRITE_PROJECT_ID") = None ∨
      truthy (env !! "APPWRITE_API_KEY") = None
  end.
Proof.
  unfold loadConfig.
  destruct (truthy (env !! "APPWRITE_ENDPOINT")) as [e|] eqn:He; [|by left].
  destruct (truthy (env !! "APPWRITE_PROJECT_ID")) as [p|] eqn:Hp; [|by right; left].
  destruct (truthy (env !! "APPWRITE_API_KEY")) as [k|] eqn:Hk; [|by right; right].
  apply truthy_Some in He as [He He'], Hp as [Hp Hp'], Hk as [Hk Hk'].
  destruct configFile as [[fileConfig|]|]; simpl; do 7 (split; [done|]).
  - split; [|split; [|split]].
    + destruct (truthy (file_collection fileConfig)) as [c|] eqn:Hc; simpl; [|done].
      by apply truthy_Some in Hc as [_ ?].
    + destruct (truthy (file_database fileConfig)) as [d|] eqn:Hd.
      { by apply truthy_Some in Hd as [_ ?]. }
      destruct (truthy (file_databaseId fileConfig)) as [d|] eqn:Hd'; simpl; [|done].
      by apply truthy_Some in Hd' as [_ ?].
    + by intros [|].
    + intros fc d [= <-] Hd. by rewrite Hd.
  - by split; [|split; [|split]].
  - by split; [|split; [|split]].
Qed.
End ConfigFacts.

(** ** The [migrations create] command *)

Section SortLast.
Context {A : Type} (comparefn : A → A → JS.number).

Lemma insert_sorted_last x m :
  (∀ y, y ∈ m → 0 < JS.SortCompare comparefn x y) →
  JS.insert_sorted comparefn x m = m ++ [x].
Proof.
  induction m as [|y m IH]; intros Hgt; simpl; [done|].
  pose proof (Hgt y ltac:(left)) as Hy.
  destruct (Z.leb_spec (JS.SortCompare comparefn x y) 0); [lia|].
  f_equal. apply IH. intros z Hz. apply Hgt. by right.
Qed.

Lemma insert_sorted_snoc a m x :
  JS.SortCompare comparefn a x ≤ 0 →
  JS.insert_sorted comparefn a (m ++ [x]) = JS.insert_sorted comparefn a m ++ [x].
Proof.
  intros Hle. induction m as [|y m IH]; simpl.
  - by destruct (Z.leb_spec (JS.SortCompare comparefn a x) 0); [|lia].
  - destruct (JS.SortCompare comparefn a y <=? 0); [done|]. simpl. by f_equal.
Qed.

(** An element that the comparator puts after every other one comes out
    last, wherever it stood, and the others come out as without it. *)
Lemma sort_greatest l1 l2 x :
  (∀ y, y ∈ l1 ++ l2 →
     JS.SortCompare comparefn y x ≤ 0 ∧ 0 < JS.SortCompare comparefn x y) →
  JS.sort comparefn (l1 ++ x :: l2) = JS.sort comparefn (l1 ++ l2) ++ [x].
Proof.
  intros Hx. induction l1 as [|a l1 IH]; simpl.
  - apply insert_sorted_last. intros y Hy. rewrite sort_Permutation in Hy. by apply Hx.
  - rewrite IH.
    + apply insert_sorted_snoc. apply Hx. by left.
    + intros y Hy. apply Hx. by right.
Qed.

Lemma last_sorted (key : A → Z) l m :
  StronglySorted (λ a b, key a ≤ key b) l → last l = Some m →
  ∀ y, y ∈ l → key y ≤ key m.
Proof.
  induction 1 as [|a l Hs IH Ha]; [done|].
  destruct l as [|b l].
  - intros [= <-] y Hy. apply list_elem_of_singleton in Hy. by subst.
  - intros Hlast y [->|Hy]%elem_of_cons.
    + rewrite Forall_forall in Ha. apply Ha. by eapply last_Some_elem_of.
    + by apply IH.
Qed.
End SortLast.

Section CreateFacts.
Import JS Discovery Cli Create.

Lemma seqNum_versionName z : seqNum (versionName (Int z)) = Int z.
Proof. apply parseInt_toString. Qed.

Lemma kept_ext isDirectory isDirectory' l :
  (∀ dir, dir ∈ l → isDirectory' dir = isDirectory dir) →
  kept isDirectory' l = kept isDirectory l.
Proof.
  intros Hext. unfold kept. apply List.filter_ext_in.
  intros dir Hin. rewrite Hext; [done|]. by apply list_elem_of_In.
Qed.

Lemma versionNumbers_last isDirectory entries :
  Forall (λ dir, isSafeInteger (seqNum dir) = true) (kept isDirectory entries) →
  match last (versionNumbers isDirectory entries) with
  | Some n =>
      ∃ dir, dir ∈ kept isDirectory entries ∧ n = Int (seqZ dir) ∧
        ∀ other, other ∈ kept isDirectory entries → seqZ other ≤ seqZ dir
  | None => kept isDirectory entries = []
  end.
Proof.
  intros Hsafe. rewrite Forall_forall in Hsafe.
  assert (StronglySorted (λ a b, asInteger a ≤ asInteger b)
            (versionNumbers isDirectory entries)) as Hsorted.
  { apply sort_keyed. intros x y [a [-> Ha]]%list_elem_of_fmap [b [-> Hb]]%list_elem_of_fmap.
    destruct (isSafeInteger_Int _ (Hsafe a Ha)) as [za Hza].
    destruct (isSafeInteger_Int _ (Hsafe b Hb)) as [zb Hzb].
    unfold SortCompare. by rewrite Hza, Hzb. }
  pose proof (sort_Permutation JS.sub (seqNum <$> kept isDirectory entries)) as Hperm.
  fold (versionNumbers isDirectory entries) in Hperm.
  destruct (last (versionNumbers isDirectory entries)) as [n|] eqn:Hlast.
  - assert (n ∈ seqNum <$> kept isDirectory entries) as [dir [-> Hdir]]%list_elem_of_fmap.
    { rewrite <- Hperm. by eapply last_Some_elem_of. }
    exists dir. split; [done|].
    destruct (isSafeInteger_Int _ (Hsafe dir Hdir)) as [z Hz].
    split; [unfold seqZ; by rewrite Hz|].
    intros other Hother.
    apply (last_sorted asInteger _ _ Hsorted Hlast (seqNum other)).
    rewrite Hperm. by apply list_elem_of_fmap_2.
  - apply last_None in Hlast. rewrite Hlast in Hperm.
    apply Permutation_nil_l in Hperm. symmetry in Hperm. by apply fmap_nil_inv in Hperm.
Qed.

(** X21. Among version directories that all carry a number, [create]
    numbers the new version one above the highest (1 when there is none).
    The name it makes reads back as that number, is the name of no
    version directory, and once the directory is there discovery takes it
    last and the others as before, wherever the new entry stands in the
    listing. *)
Theorem nextVersion_is_new isDirectory entries :
  Forall (λ dir, isSafeInteger (seqNum dir) = true) (kept isDirectory entries) →
  ∃ z,
    nextVersion (versionNumbers isDirectory entries) = Int z ∧
    (kept isDirectory entries = [] → z = 1) ∧
    (∀ dir, dir ∈ kept isDirectory entries → seqZ dir < z) ∧
    (kept isDirectory entries ≠ [] →
     ∃ dir, dir ∈ kept isDirectory entries ∧ z = seqZ dir + 1) ∧
    seqNum (versionName (Int z)) = Int z ∧
    (versionName (Int z) ∉ kept isDirectory entries) ∧
    ∀ isDirectory' before after,
      entries = before ++ after →
      (∀ dir, dir ∈ entries → isDirectory' dir = isDirectory dir) →
      isDirectory' (versionName (Int z)) = true →
      versionDirs isDirectory' (before ++ versionName (Int z) :: after)
      = versionDirs isDirectory entries ++ [versionName (Int z)].
Proof.
  intros Hsafe. pose proof (versionNumbers_last isDirectory entries Hsafe) as Hlast.
  unfold nextVersion.
  assert (∃ z, default (Int 0) (last (versionNumbers isDirectory entries)) = Int (z - 1) ∧
            (kept isDirectory entries = [] → z = 1) ∧
            (∀ dir, dir ∈ kept isDirectory entries → seqZ dir < z) ∧
            (kept isDirectory entries ≠ [] →
             ∃ dir, dir ∈ kept isDirectory entries ∧ z = seqZ dir + 1))
    as (z & -> & Hempty & Hmax & Hsucc).
  { destruct (last (versionNumbers isDirectory entries)) as [n|].
    - destruct Hlast as (dir & Hdir & -> & Hle). exists (seqZ dir + 1).
      split; [simpl; f_equal; lia|]. split; [intros Hnil; rewrite Hnil in Hdir; by apply elem_of_nil in Hdir|].
      split; [intros other Hother; specialize (Hle other Hother); lia|].
      intros _. by exists dir.
    - exists 1. split; [done|]. split; [done|]. rewrite Hlast.
      split; [by intros dir ?%elem_of_nil|done]. }
  exists z. split; [simpl; f_equal; lia|].
  split; [done|]. split; [done|]. split; [done|].
  pose proof (seqNum_versionName z) as Hnew.
  split; [done|].
  assert (versionName (Int z) ∉ kept isDirectory entries) as Hfresh.
  { intros Hin. specialize (Hmax _ Hin). unfold seqZ in Hmax. rewrite Hnew in Hmax. lia. }
  split; [done|].
  intros isDirectory' before after -> Hext Hdir.
  unfold versionDirs.
  pose proof (kept_ext isDirectory isDirectory' (before ++ after) Hext) as Hkept.
  assert (kept isDirectory' (before ++ versionName (Int z) :: after)
          = kept isDirectory' before ++ versionName (Int z) :: kept isDirectory' after) as ->.
  { unfold kept. rewrite List.filter_app. simpl. by rewrite Hdir. }
  assert (kept isDirectory' (before ++ after)
          = kept isDirectory' before ++ kept isDirectory' after) as Happ
    by (unfold kept; by rewrite List.filter_app).
  rewrite <- Hkept, Happ in *.
  apply sort_greatest. intros y Hy.
  rewrite Forall_forall in Hsafe.
  destruct (isSafeInteger_Int _ (Hsafe y Hy)) as [zy Hzy].
  specialize (Hmax y Hy). unfold seqZ in Hmax. rewrite Hzy in Hmax.
  unfold SortCompare, compareDirs. rewrite Hnew, Hzy. simpl. lia.
Qed.

Lemma string_app_assoc (s1 s2 s3 : string) : (s1 +:+ s2) +:+ s3 = s1 +:+ (s2 +:+ s3).
Proof.
  induction s1 as [|c s1 IH]; [done|].
  change (String c ((s1 +:+ s2) +:+ s3) = String c (s1 +:+ (s2 +:+ s3))). by f_equal.
Qed.

Lemma version_snapshot_ne_root rootDir name :
  path_join (path_join (migrationsDir rootDir) name) SNAPSHOT_FILENAME ≠ rootConfig rootDir.
Proof.
  unfold migrationsDir, rootConfig, path_join. rewrite !string_app_assoc.
  intros H. apply String.app_inj in H. vm_compute in H. discriminate H.
Qed.

Section Command.
Variable env : gmap string string.
Variable configFile : option (option Config.FileConfig).
Variable execClient : string → option string.
Variable execAsync : string → FS → FS * option string.
Variable rootDir : string.
Variable uuid : string.

Local Abbreviation create := (Create.create env configFile execClient execAsync rootDir uuid).

Lemma snapshotSource_exists numbers (fs : FS) source :
  snapshotSource rootDir numbers fs = Some source → is_Some (fs !! source).
Proof.
  unfold snapshotSource. intros H. apply existsSync_true.
  repeat case_match; by simplify_eq.
Qed.

Lemma pullInto_pulled versionPath (fs fs' : FS) evs :
  pullInto env configFile execClient execAsync rootDir versionPath fs = (fs', evs, None) →
  path_join versionPath SNAPSHOT_FILENAME ≠ rootConfig rootDir →
  is_Some (fs' !! path_join versionPath SNAPSHOT_FILENAME).
Proof.
  unfold pullInto, pullSnapshot. intros H Hne.
  destruct (Config.loadConfig env configFile) as [evs0 [message|config]]; [done|].
  destruct (configureClient execClient config) as [evs1 [|message]]; [|done].
  destruct (pullResources execAsync RESOURCES fs) as [fs1 evs2].
  destruct (existsSync fs1 (rootConfig rootDir)) eqn:Hroot; simpl in H; [|done].
  apply existsSync_true in Hroot as [content Hc].
  rewrite (copyFileSync_Some _ _ _ _ Hc) in H.
  assert (existsSync (<[path_join versionPath SNAPSHOT_FILENAME := content]> fs1)
            (rootConfig rootDir) = true) as Hstill
    by (apply existsSync_true; by simplify_map_eq).
  rewrite Hstill in H. simplify_eq. unfold unlinkSync. by simplify_map_eq.
Qed.

(** X22. [create] throws only when an entry of the new name is in the
    way, and has written nothing then.  When it returns, the new version
    directory holds a snapshot file, be it copied from the last version or
    the project root, pulled, or the empty placeholder written after a
    pull that failed. *)
Theorem create_leaves_a_snapshot isDirectory entries (fs : FS) :
  let next := nextVersion (versionNumbers isDirectory entries) in
  let versionPath := path_join (migrationsDir rootDir) (versionName next) in
  match create isDirectory entries fs with
  | (fs', evs, Returned) =>
      (versionName next ∉ entries) ∧
      is_Some (fs' !! path_join versionPath SNAPSHOT_FILENAME)
  | (fs', evs, Thrown _) => versionName next ∈ entries ∧ fs' = fs ∧ evs = []
  end.
Proof.
  simpl. unfold Create.create.
  set (next := nextVersion (versionNumbers isDirectory entries)).
  set (versionPath := path_join (migrationsDir rootDir) (versionName next)).
  case_bool_decide as Hin; [done|].
  set (fs1 := writeFileSync _ _ fs).
  destruct (snapshotSource rootDir (versionNumbers isDirectory entries) fs1)
    as [source|] eqn:Hsource.
  - split; [done|]. apply snapshotSource_exists in Hsource as [content Hc].
    rewrite (copyFileSync_Some _ _ _ _ Hc). unfold getSnapshotFilename.
    by simplify_map_eq.
  - destruct (pullInto env configFile execClient execAsync rootDir versionPath fs1)
      as [[fs2 evs] [message|]] eqn:Hpull.
    + split; [done|]. unfold writeFileSync, getSnapshotFilename. by simplify_map_eq.
    + split; [done|]. eapply pullInto_pulled; [exact Hpull|].
      apply version_snapshot_ne_root.
Qed.

(** X23. Among version directories of which none carries a number, the
    new version is named [vNaN]: the first [create] makes that directory,
    and every later one throws on it. *)
Theorem create_among_unnumbered isDirectory entries (fs : FS) :
  kept isDirectory entries ≠ [] →
  Forall (λ dir, seqNum dir = NaN) (kept isDirectory entries) →
  versionName (nextVersion (versionNumbers isDirectory entries)) = "vNaN" ∧
  ((create isDirectory entries fs).2 = Returned ↔ "vNaN" ∉ entries).
Proof.
  intros Hsome Hnan.
  assert (nextVersion (versionNumbers isDirectory entries) = NaN) as Hnext.
  { unfold nextVersion.
    pose proof (sort_Permutation JS.sub (seqNum <$> kept isDirectory entries)) as Hperm.
    fold (versionNumbers isDirectory entries) in Hperm.
    destruct (last (versionNumbers isDirectory entries)) as [n|] eqn:Hlast.
    - assert (n ∈ seqNum <$> kept isDirectory entries) as [dir [-> Hdir]]%list_elem_of_fmap.
      { rewrite <- Hperm. by eapply last_Some_elem_of. }
      rewrite Forall_forall in Hnan. by rewrite (Hnan dir Hdir).
    - apply last_None in Hlast. rewrite Hlast in Hperm.
      apply Permutation_nil_l in Hperm. symmetry in Hperm.
      by apply fmap_nil_inv in Hperm. }
  unfold Create.create. rewrite Hnext.
  change (versionName NaN) with "vNaN". split; [done|].
  case_bool_decide as Hin; [by split|].
  split; [done|]. intros _.
  destruct (snapshotSource rootDir _ _) as [source|]; [done|].
  by destruct (pullInto _ _ _ _ _ _ _) as [[fs2 evs] [message|]].
Qed.
End Command.
End CreateFacts.

(** ** Export of the project schema *)

Section ExportFacts.
Import Appwrite SchemaExport.
Variable config : AppConfig.
Variable remote : Remote.

Local Abbreviation nonSystem := (λ db : string, negb (String.eqb db "system")).

Lemma fetchCollections_result dbs allCollections :
  asked (fetchCollections remote dbs allCollections).1
    `prefix_of` List.filter nonSystem dbs ∧
  match (fetchCollections remote dbs allCollections).2 with
  | inr collections =>
      asked (fetchCollections remote dbs allCollections).1 = List.filter nonSystem dbs ∧
      collections = allCollections ++ (List.filter nonSystem dbs ≫= collectionsFor remote)
  | inl err =>
      ∃ db, db ∈ asked (fetchCollections remote dbs allCollections).1 ∧
        collectionsOf remote db = inl err
  end.
Proof.
  revert allCollections. induction dbs as [|db rest IH]; intros allCollections; simpl.
  { split; [done|]. split; [done|]. by rewrite app_nil_r. }
  destruct (String.eqb db "system") eqn:Hsys; simpl; [apply IH|].
  unfold collectionsFor at 1. unfold listCollections.
  destruct (collectionsOf remote db) as [err|cols] eqn:Hcols; simpl.
  - split; [apply prefix_cons, prefix_nil|]. exists db. split; [left|done].
  - specialize (IH (allCollections ++ (collectionData db <$> take 100 cols))).
    destruct (fetchCollections remote rest _) as [steps [err|collections]]; simpl in *.
    + destruct IH as [Hpre (db' & Hin & Herr)]. split; [by apply prefix_cons|].
      exists db'. split; [by right|done].
    + destruct IH as [Hpre [Hall ->]]. split; [by apply prefix_cons|].
      split; [by f_equal|]. by rewrite <- app_assoc.
Qed.

(** X24. The export never asks for the collections of a database named
    [system], whatever the tracking database is configured to be, and
    asks for those of every other database among the first hundred
    listed.  It returns all or nothing: when one database cannot be
    listed the error is thrown and no schema is returned.  Every
    collection it returns carries the identifier of the database it was
    listed under as its [databaseId], whatever the field held before. *)
Theorem fetchProjectSchema_result :
  ("system" ∉ asked (fetchProjectSchema config remote).1) ∧
  match (fetchProjectSchema config remote).2 with
  | inr schema =>
      ∃ dbs,
        listing remote = inr dbs ∧
        asked (fetchProjectSchema config remote).1 = exported dbs ∧
        schema_collections schema = exported dbs ≫= collectionsFor remote ∧
        ∀ col, col ∈ schema_collections schema →
          ∃ db, db ∈ take 100 dbs ∧ db ≠ "system" ∧ col !! "databaseId" = Some db
  | inl err =>
      listing remote = inl err ∨
      ∃ db, db ∈ asked (fetchProjectSchema config remote).1 ∧
        collectionsOf remote db = inl err
  end.
Proof.
  unfold fetchProjectSchema, listDatabases.
  destruct (listing remote) as [err|dbs] eqn:Hlist; simpl.
  { split; [by intros ?%elem_of_nil|by left]. }
  pose proof (fetchCollections_result (take 100 dbs) []) as [Hpre Hres].
  destruct (fetchCollections remote (take 100 dbs) []) as [steps result]; simpl in *.
  split.
  - intros Hin. destruct Hpre as [more Hmore].
    assert ("system" ∈ List.filter nonSystem (take 100 dbs)) as Hsys
      by (rewrite Hmore; apply elem_of_app; by left).
    by apply list_elem_of_In, List.filter_In in Hsys as [_ Hsys].
  - destruct result as [err|collections].
    + right. done.
    + destruct Hres as [Hasked ->]. exists dbs. split; [done|]. split; [done|].
      split; [done|]. simpl. intros col Hcol.
      apply list_elem_of_bind in Hcol as (db & Hcol & Hdb).
      apply list_elem_of_In, List.filter_In in Hdb as [Hdb Hsys].
      exists db. split; [by apply list_elem_of_In|].
      split; [intros ->; done|].
      unfold collectionsFor in Hcol. destruct (listCollections db 100 remote); [by apply elem_of_nil in Hcol|].
      apply list_elem_of_fmap in Hcol as (col0 & -> & _).
      unfold collectionData. by simplify_map_eq.
Qed.
End ExportFacts.

Lemma nextVersion_is_new_witness :
  ∃ z,
    Create.nextVersion (Create.versionNumbers Fixture.isDirectory Fixture.listing) = JS.Int z ∧
    Discovery.seqNum (Create.versionName (JS.Int z)) = JS.Int z ∧
    Discovery.seqZ "v10" < z.
Proof.
  destruct (nextVersion_is_new Fixture.isDirectory Fixture.listing)
    as (z & Hz & _ & Hmax & _ & Hback & _).
  - assert (Discovery.kept Fixture.isDirectory Fixture.listing = ["v2"; "v10"; "v1"]) as ->
      by (vm_compute; reflexivity).
    repeat (constructor; [vm_compute; reflexivity|]). constructor.
  - exists z. split; [exact Hz|]. split; [exact Hback|].
    apply Hmax. vm_compute. right; left.
Defined.

Lemma create_among_unnumbered_witness :
  Create.versionName
    (Create.nextVersion (Create.versionNumbers Fixture.isDirectory Fixture.unnumbered))
  = "vNaN".
Proof.
  refine (proj1 (create_among_unnumbered Fixture.env None (λ _, None) Fixture.offline
                   Sample.rootDir "0c2a" Fixture.isDirectory Fixture.unnumbered
                   Fixture.rootless _ _)).
  - vm_compute. discriminate.
  - assert (Discovery.kept Fixture.isDirectory Fixture.unnumbered = ["vnext"]) as ->
      by (vm_compute; reflexivity).
    repeat (constructor; [vm_compute; reflexivity|]). constructor.
Defined.

Lemma versionDirs_unique_witness :
  ["v1"; "v2"; "v10"] = Discovery.versionDirs Fixture.isDirectory Fixture.listing.
Proof.
  assert (Discovery.kept Fixture.isDirectory Fixture.listing = ["v2"; "v10"; "v1"]) as Hkept
    by (vm_compute; reflexivity).
  apply versionDirs_unique; rewrite ?Hkept.
  - repeat (constructor; [vm_compute; reflexivity|]). constructor.
  - assert (Discovery.seqZ <$> ["v2"; "v10"; "v1"] = [2; 10; 1]) as ->
      by (vm_compute; reflexivity).
    apply (bool_decide_unpack _). vm_compute. exact I.
  - apply perm_trans with (l' := ["v2"; "v1"; "v10"]).
    + apply perm_swap.
    + apply perm_skip, perm_swap.
  - repeat (apply SSorted_cons || apply SSorted_nil || constructor);
      vm_compute; discriminate.
Defined.

(** ** The runner before the loop, and on its good path *)

Section Preflight.
Import Appwrite Poller Runner.
Variable fuel : nat.
Variable w : World.
Variable config : AppConfig.

Local Abbreviation run := (runMigrations fuel w config).

(** X27. The loop is only reached when the command line tool was
    configured, the migrations directory is there and the applied
    identifiers were fetched.  When one of the three fails the run ends
    with exit code 1 or rejected; no version is loaded, the tracking
    collection is not written, and all that reached outside the process
    is the configuration command and at most the one fetch. *)
Theorem preflight_failure_touches_nothing store :
  (Cli.configureClient (execClient w) config).2 ≠ Returned ∨
  existsSync w (migrationsDir w) = false ∨
  fetched config store = None →
  versions (run store) = [] ∧ final (run store) = store ∧
  (ending (run store) = Exited 1 ∨ ∃ message, ending (run store) = Rejected message) ∧
  ∃ cmd,
    List.filter isSideEffect (trace (run store))
      `prefix_of` [Exec cmd; ListDocuments (database config) (migrationCollectionId config)].
Proof.
  unfold runMigrations, fetched, trace, Cli.configureClient.
  destruct (execClient w _) as [message|]; simpl.
  { intros _. split; [done|]. split; [done|]. split; [right; by eexists|].
    eexists. apply prefix_cons, prefix_nil. }
  destruct (existsSync w (migrationsDir w)); simpl.
  2: { intros _. split; [done|]. split; [done|]. split; [by left|].
       eexists. apply prefix_cons, prefix_nil. }
  intros [H|[H|H]]; [done|done|].
  unfold getAppliedMigrations in *.
  destruct (listDocuments 5000 store) as [e|docs]; [|done].
  destruct (bool_decide (code e = Some 404)); [done|]. simpl.
  split; [done|]. split; [done|]. split; [right; by eexists|].
  by eexists.
Qed.
End Preflight.

Section FirstReady.
Import Appwrite Poller Runner.

(** X28. The loop of one table is left at the first answer without a
    pending attribute: when the answers before it held a pending
    attribute or an error other than 500, the loop has then waited once
    per earlier answer, 2000 ms each, and asked once more than it has
    waited, whatever budget above that number it was given. *)
Theorem pollTable_first_ready listAttributes n :
  ∀ fuel calls db col attributes,
  (∀ k, (k < n)%nat →
     match listAttributes (calls + k)%nat db col with
     | inr attrs => pendingOf attrs ≠ []
     | inl e => code e ≠ Some 500
     end) →
  listAttributes (calls + n)%nat db col = inr attributes →
  pendingOf attributes = [] →
  (n < fuel)%nat →
  ∃ evs,
    pollTable listAttributes fuel calls db col = (true, (calls + n + 1)%nat, evs) ∧
    sleeps evs = replicate n 2000 ∧
    queries evs = replicate (S n) (db, col).
Proof.
  induction n as [|n IH]; intros fuel calls db col attributes Hbefore Hready Hnone Hfuel;
    (destruct fuel as [|fuel]; [lia|]); simpl.
  - rewrite Nat.add_0_r in Hready. rewrite Hready, Hnone. simpl.
    exists [ListAttributes db col]. split; [|done]. do 2 f_equal. lia.
  - destruct (IH fuel (S calls) db col attributes) as (evs & -> & Hs & Hq).
    + intros k Hk. specialize (Hbefore (S k) ltac:(lia)).
      by rewrite Nat.add_succ_r in Hbefore.
    + by rewrite Nat.add_succ_r in Hready.
    + done.
    + lia.
    + specialize (Hbefore 0%nat ltac:(lia)). rewrite Nat.add_0_r in Hbefore.
      destruct (listAttributes calls db col) as [e|attrs].
      * rewrite bool_decide_eq_false_2 by done. eexists. split; [|split].
        -- do 2 f_equal. lia.
        -- simpl. by f_equal.
        -- simpl. by f_equal.
      * destruct (pendingOf attrs) eqn:Hp; [done|]. simpl. eexists. split; [|split].
        -- do 2 f_equal. lia.
        -- simpl. by f_equal.
        -- simpl. by f_equal.
Qed.
End FirstReady.

Section Budget.
Import Appwrite Poller Runner.
Variable w : World.
Variable config : AppConfig.

Lemma pollTable_budget listAttributes fuel fuel' calls db col calls' evs :
  pollTable listAttributes fuel calls db col = (true, calls', evs) → (fuel ≤ fuel')%nat →
  pollTable listAttributes fuel' calls db col = (true, calls', evs).
Proof.
  revert fuel' calls evs.
  induction fuel as [|fuel IH]; intros fuel' calls evs; simpl; [done|].
  intros Hrun Hle. destruct fuel' as [|fuel']; [lia|]. simpl.
  destruct (listAttributes calls db col) as [e|attributes].
  - destruct (bool_decide (code e = Some 500)); [done|].
    destruct (pollTable listAttributes fuel (S calls) db col) as [[f c] evs0] eqn:Hrest.
    simplify_eq. by rewrite (IH fuel' (S calls) evs0) by (done || lia).
  - destruct (length (pendingOf attributes) =? 0)%nat; [done|].
    destruct (pollTable listAttributes fuel (S calls) db col) as [[f c] evs0] eqn:Hrest.
    simplify_eq. by rewrite (IH fuel' (S calls) evs0) by (done || lia).
Qed.

Lemma pollTables_budget listAttributes fuel fuel' calls tbls calls' evs :
  pollTables listAttributes fuel calls tbls = (true, calls', evs) → (fuel ≤ fuel')%nat →
  pollTables listAttributes fuel' calls tbls = (true, calls', evs).
Proof.
  intros Hrun Hle. revert calls evs Hrun.
  induction tbls as [|table rest IH]; intros calls evs; simpl; [done|].
  destruct (truthy (databaseId table)) as [db|].
  - destruct (pollTable listAttributes fuel calls db (table_id table))
      as [[[] c] evs0] eqn:Htable; [|done].
    rewrite (pollTable_budget _ _ _ _ _ _ _ _ Htable Hle).
    destruct (pollTables listAttributes fuel c rest) as [[f c'] evs1] eqn:Hrest.
    intros ?; simplify_eq. by rewrite (IH _ _ Hrest).
  - destruct (pollTables listAttributes fuel calls rest) as [[f c'] evs1] eqn:Hrest.
    intros ?; simplify_eq. by rewrite (IH _ _ Hrest).
Qed.

Lemma waitForAttributes_budget listAttributes fuel fuel' calls schema calls' evs :
  waitForAttributes listAttributes fuel calls schema = (true, calls', evs) →
  (fuel ≤ fuel')%nat →
  waitForAttributes listAttributes fuel' calls schema = (true, calls', evs).
Proof.
  intros Hrun Hle. destruct schema as [schema|]; simpl in *; [|done].
  destruct (pollTables listAttributes fuel calls (tablesOf schema)) as [[f c] evs0] eqn:Hp.
  simplify_eq. by rewrite (pollTables_budget _ _ _ _ _ _ _ Hp Hle).
Qed.

Lemma pollStage_budget fuel fuel' version calls :
  (pollStage fuel w version calls).2.2 ≠ Some Waiting → (fuel ≤ fuel')%nat →
  pollStage fuel' w version calls = pollStage fuel w version calls.
Proof.
  unfold pollStage. intros Hrun Hle. destruct (existsSync w _); [|done].
  destruct (waitForAttributes (listAttributes w) fuel calls _) as [[[] c] evs] eqn:Hwait;
    [|done].
  by rewrite (waitForAttributes_budget _ _ _ _ _ _ _ Hwait Hle).
Qed.

Lemma prepare_budget fuel fuel' version m calls :
  (prepare fuel w config version m calls).2.2 ≠ Some Waiting → (fuel ≤ fuel')%nat →
  prepare fuel' w config version m calls = prepare fuel w config version m calls.
Proof.
  unfold prepare. intros Hrun Hle.
  destruct (backupStage w config version m) as [e3 [o|]]; [done|].
  destruct (pushStage w version) as [e4 [o|]]; [done|].
  rewrite (pollStage_budget fuel fuel'); [done| |done].
  by destruct (pollStage fuel w version calls) as [c [e5 o]].
Qed.

Lemma pipeline_budget fuel fuel' version m i calls store :
  (pipeline fuel w config version m i calls store).2.2 ≠ Some Waiting → (fuel ≤ fuel')%nat →
  pipeline fuel' w config version m i calls store
  = pipeline fuel w config version m i calls store.
Proof.
  unfold pipeline. intros Hrun Hle.
  rewrite (prepare_budget fuel fuel'); [done| |done].
  destruct (prepare fuel w config version m calls) as [c [e [o|]]]; [done|].
  simpl. discriminate.
Qed.

Lemma applyVersion_budget fuel fuel' appliedSet version calls store :
  (applyVersion fuel w config appliedSet version calls store).2.2 ≠ Some Waiting →
  (fuel ≤ fuel')%nat →
  applyVersion fuel' w config appliedSet version calls store
  = applyVersion fuel w config appliedSet version calls store.
Proof.
  unfold applyVersion. intros Hrun Hle.
  destruct (validIndexFile w version) as [file|]; [|done].
  destruct (jitiImport w file) as [|[m|]]; [done| |done].
  destruct (truthy (id m)) as [i|]; [|done].
  destruct (bool_decide (i ∈ appliedSet)); [done|].
  rewrite (pipeline_budget fuel fuel'); [done| |done].
  by destruct (pipeline fuel w config version m i calls store) as [[c s] [e o]].
Qed.

Lemma applyVersions_budget fuel fuel' appliedSet dirs calls store :
  (applyVersions fuel w config appliedSet dirs calls store).1.1 ≠ Waiting →
  (fuel ≤ fuel')%nat →
  applyVersions fuel' w config appliedSet dirs calls store
  = applyVersions fuel w config appliedSet dirs calls store.
Proof.
  intros Hrun Hle. revert calls store Hrun.
  induction dirs as [|dir rest IH]; intros calls store; cbn [applyVersions]; [done|].
  intros Hrun. rewrite (applyVersion_budget fuel fuel'); [| |done].
  - destruct (applyVersion fuel w config appliedSet dir calls store)
      as [[c s] [evs [o|]]]; [done|].
    rewrite IH; [done|].
    by destruct (applyVersions fuel w config appliedSet rest c s) as [[o segs] s'].
  - destruct (applyVersion fuel w config appliedSet dir calls store)
      as [[c s] [evs [o|]]]; simpl in *; [congruence|done].
Qed.

(** X29. A run that comes to an end is the same under every larger
    budget of poller queries: the bound that makes the polling loop a
    total function shapes a run only when the run is still waiting at
    the bound. *)
Theorem run_does_not_depend_on_budget fuel fuel' store :
  ending (runMigrations fuel w config store) ≠ Waiting → (fuel ≤ fuel')%nat →
  runMigrations fuel' w config store = runMigrations fuel w config store.
Proof.
  unfold runMigrations. intros Hrun Hle.
  destruct (Cli.configureClient _ _) as [cevs [|cmsg]]; [|done].
  destruct (negb _); [done|].
  destruct (getAppliedMigrations config store) as [evs0 [message|ids]]; [done|].
  rewrite (applyVersions_budget fuel fuel'); [done| |done].
  by destruct (applyVersions fuel w config _ _ _ _) as [[o segs] store'].
Qed.
End Budget.

Section HappyPath.
Import Appwrite Poller Runner.
Variable fuel : nat.
Variable w : World.
Variable config : AppConfig.

Local Abbreviation run := (runMigrations fuel w config).

Lemma pipeline_passes version m i calls docs :
  (prepare fuel w config version m calls).2.2 = None →
  (upStage version m).2 = None →
  i ∉ doc_id <$> docs →
  ∃ calls' evs,
    pipeline fuel w config version m i calls (Collection docs)
    = (calls', Collection (docs ++ [{| doc_id := i; doc_name := version |}]), (evs, None)).
Proof.
  intros H5 H6 Hnew. unfold pipeline.
  destruct (prepare fuel w config version m calls) as [calls' [e5 o5]]; simpl in H5; subst o5.
  destruct (upStage version m) as [e6 o6]; simpl in H6; subst o6.
  unfold recordStage, recordMigration, createDocument.
  rewrite bool_decide_eq_false_2 by done. by eexists _, _.
Qed.

Lemma applyVersions_all_pass applied dirs calls docs :
  (∀ version, version ∈ dirs →
     validIndexFile w version = None ∨ is_Some (definition w version)) →
  (∀ version file m i calls, version ∈ dirs →
     definition w version = Some (file, m, i) → i ∉ applied →
     (prepare fuel w config version m calls).2.2 = None ∧ (upStage version m).2 = None) →
  NoDup (pendingIds w applied dirs) →
  (∀ i, i ∈ pendingIds w applied dirs → i ∉ doc_id <$> docs) →
  ∃ segs docs',
    applyVersions fuel w config (list_to_set applied) dirs calls (Collection docs)
    = (Completed, segs, Collection docs') ∧
    doc_id <$> docs' = (doc_id <$> docs) ++ pendingIds w applied dirs ∧
    segs.*1 = dirs.
Proof.
  revert calls docs.
  induction dirs as [|dir rest IH]; intros calls docs Hvalid Hpass Hnd Hnew.
  { exists [], docs. by rewrite app_nil_r. }
  cbn [applyVersions]. unfold pendingIds in Hnd, Hnew |- *. cbn [omap list_omap] in Hnd, Hnew |- *.
  fold (pendingIds w applied rest) in Hnd, Hnew |- *.
  assert (∀ version, version ∈ rest →
            validIndexFile w version = None ∨ is_Some (definition w version)) as Hrest
    by (intros version Hin; apply Hvalid; by right).
  assert (∀ version file m i calls, version ∈ rest →
            definition w version = Some (file, m, i) → i ∉ applied →
            (prepare fuel w config version m calls).2.2 = None ∧
            (upStage version m).2 = None) as Hpass'
    by (intros version file m i c Hin; apply Hpass; by right).
  destruct (Hvalid dir ltac:(left)) as [Hnone|[[[file m] i] Hdef]].
  - assert (definition w dir = None) as Hdef by (unfold definition; by rewrite Hnone).
    rewrite Hdef in Hnd, Hnew |- *. unfold applyVersion. rewrite Hnone.
    destruct (IH calls docs Hrest Hpass' Hnd Hnew) as (segs & docs' & -> & Hids & Hsegs).
    eexists _, docs'. split; [done|]. split; [done|]. cbn. by f_equal.
  - rewrite Hdef in Hnd, Hnew |- *.
    destruct (decide (i ∈ applied)) as [Hin|Hout].
    + rewrite bool_decide_eq_true_2 in Hnd, Hnew |- * by done.
      rewrite (applyVersion_applied fuel w config _ _ _ _ _ _ _ Hdef)
        by by apply elem_of_list_to_set.
      destruct (IH calls docs Hrest Hpass' Hnd Hnew) as (segs & docs' & -> & Hids & Hsegs).
      eexists _, docs'. split; [done|]. split; [done|]. cbn. by f_equal.
    + rewrite bool_decide_eq_false_2 in Hnd, Hnew |- * by done.
      rewrite (applyVersion_pending fuel w config _ _ _ _ _ _ _ Hdef)
        by by rewrite elem_of_list_to_set.
      apply NoDup_cons in Hnd as [Hi Hnd].
      destruct (Hpass dir file m i calls ltac:(left) Hdef Hout) as [H5 H6].
      destruct (pipeline_passes dir m i calls docs H5 H6) as (calls' & evs & ->).
      { apply Hnew. left. }
      destruct (IH calls' (docs ++ [{| doc_id := i; doc_name := dir |}]) Hrest Hpass' Hnd)
        as (segs & docs' & -> & Hids & Hsegs).
      { intros j Hj. rewrite fmap_app. intros [Hin|Hin]%elem_of_app.
        - by apply (Hnew j); [right|].
        - apply list_elem_of_singleton in Hin. simpl in Hin. by subst. }
      eexists _, docs'. split; [done|]. split; [|cbn; by f_equal].
      rewrite Hids, fmap_app. simpl. by rewrite <- app_assoc.
Qed.

(** X30. The run on its good path.  When the command line tool is
    configured, the migrations directory is there, the tracking
    collection holds at most 5000 documents, every discovered directory
    with an index file loads a definition with an id, the pending
    identifiers are pairwise different, and for every pending version the
    stages before the script and the script itself pass, then the run
    completes, takes up every discovered version in discovery order, and
    leaves on record the identifiers that were there followed by the
    pending ones in discovery order. *)
Theorem run_applies_all_pending docs :
  (length docs ≤ 5000)%nat →
  (Cli.configureClient (execClient w) config).2 = Returned →
  existsSync w (migrationsDir w) = true →
  (∀ version, version ∈ discover w →
     validIndexFile w version = None ∨ is_Some (definition w version)) →
  (∀ version file m i calls, version ∈ discover w →
     definition w version = Some (file, m, i) → i ∉ doc_id <$> docs →
     (prepare fuel w config version m calls).2.2 = None ∧ (upStage version m).2 = None) →
  NoDup (pendingIds w (doc_id <$> docs) (discover w)) →
  ending (run (Collection docs)) = Completed ∧
  (versions (run (Collection docs))).*1 = discover w ∧
  documentIds (final (run (Collection docs)))
  = (doc_id <$> docs) ++ pendingIds w (doc_id <$> docs) (discover w).
Proof.
  intros Hsize Hconf Hdir Hvalid Hpass Hnd. unfold runMigrations.
  destruct (Cli.configureClient _ _) as [cevs result]; simpl in Hconf; subst result.
  rewrite Hdir. simpl. rewrite take_ge by done.
  destruct (applyVersions_all_pass (doc_id <$> docs) (discover w) 0%nat docs Hvalid Hpass
              Hnd)
    as (segs & docs' & -> & Hids & Hsegs).
  { intros i Hi Hin. unfold pendingIds in Hi.
    apply list_elem_of_omap in Hi as (version & _ & Hi).
    destruct (definition w version) as [[[file m] j]|]; [|done].
    case_bool_decide; by simplify_eq. }
  by simpl.
Qed.
End HappyPath.

(** ** A second run past the one page of the fetch *)

Lemma older_ids n i : i ∈ Appwrite.doc_id <$> Fixture.older n → ∃ t, i = String "m" t.
Proof.
  unfold Fixture.older. rewrite <- list_fmap_compose.
  intros (k & -> & _)%list_elem_of_fmap. simpl. eauto.
Qed.


(** Both versions of the sample project are pending over a collection of
    5000 records of other migrations; the first run records them as
    documents 5001 and 5002, which the fetch of the second run, one
    page of 5000, does not return. *)
Lemma run_past_the_page docs :
  length docs = 5000%nat →
  (∀ i, i = "A" ∨ i = "B" → i ∉ Appwrite.doc_id <$> docs) →
  let first :=
    Runner.runMigrations 1 Sample.bothApplied Sample.config (Appwrite.Collection docs) in
  let second :=
    Runner.runMigrations 1 Sample.bothApplied Sample.config (Runner.final first) in
  Runner.ending first = Runner.Completed ∧
  Appwrite.documentIds (Runner.final first) = (Appwrite.doc_id <$> docs) ++ ["A"; "B"] ∧
  Runner.versions second
  = [("v1", [Import Sample.v1_index; Runner.applyingLog "v1" "A";
             Runner.noSnapshotWarning "v1"; Log "Executing migration script...";
             Up "v1"; Log "[v1] seeding"; Log "Finalizing...";
             CreateDocument "system" "migrations" "A" "v1"])] ∧
  Up "v1" ∈ Runner.trace second ∧
  Runner.ending second = Runner.Rejected "document already exists".
Proof.
  intros Hlen Hnew.
  pose (w := Sample.bothApplied).
  assert (Runner.discover w = ["v1"; "v2"]) as Hdirs by (vm_compute; reflexivity).
  pose (m1 := Sample.migration (Some "A") false (Some Sample.seed)).
  pose (m2 := Sample.migration (Some "B") true (Some Sample.seed)).
  assert (Runner.definition w "v1" = Some (Sample.v1_index, m1, "A")) as Hv1
    by (vm_compute; reflexivity).
  assert (Runner.definition w "v2" = Some (Sample.v2_index, m2, "B")) as Hv2
    by (vm_compute; reflexivity).
  assert (∀ store, Runner.fetched Sample.config (Appwrite.Collection store)
                   = Some (take 5000 (Appwrite.doc_id <$> store))) as Hfetch.
  { intros store. unfold Runner.fetched, Appwrite.getAppliedMigrations. simpl.
    by rewrite fmap_take. }
  assert (Runner.pendingIds w (Appwrite.doc_id <$> docs) ["v1"; "v2"] = ["A"; "B"])
    as Hpending.
  { unfold Runner.pendingIds. cbn [omap list_omap]. rewrite Hv1, Hv2.
    rewrite !bool_decide_eq_false_2 by (apply Hnew; auto). done. }
  destruct (applyVersions_all_pass 1 w Sample.config (Appwrite.doc_id <$> docs)
              ["v1"; "v2"] 0%nat docs) as (segs & docs' & Hloop & Hids' & _).
  { intros version Hin. right.
    apply elem_of_cons in Hin as [->|Hin];
      [|apply elem_of_cons in Hin as [->|Hin]; [|by apply elem_of_nil in Hin]]; eauto. }
  { intros version file m i calls Hin Hdef _.
    apply elem_of_cons in Hin as [->|Hin];
      [|apply elem_of_cons in Hin as [->|Hin]; [|by apply elem_of_nil in Hin]];
      rewrite ?Hv1, ?Hv2 in Hdef; injection Hdef as <- <- <-; by split. }
  { rewrite Hpending. apply (bool_decide_unpack _). vm_compute. exact I. }
  { rewrite Hpending. intros i Hi. apply Hnew.
    apply elem_of_cons in Hi as [->|Hi]; [by left|].
    apply elem_of_cons in Hi as [->|Hi]; [by right|]. by apply elem_of_nil in Hi. }
  rewrite Hpending in Hids'. rewrite <- Hdirs in Hloop.
  assert (Runner.fetched Sample.config (Appwrite.Collection docs)
          = Some (Appwrite.doc_id <$> docs)) as Hids.
  { rewrite Hfetch, take_ge; [done|]. rewrite length_fmap. lia. }
  destruct (runMigrations_loop w Sample.config 1 (Appwrite.Collection docs)
              (Appwrite.doc_id <$> docs) eq_refl eq_refl Hids _ _ _ Hloop)
    as (Hend & _ & Hfinal).
  fold w. cbv zeta. rewrite Hend, Hfinal. split; [done|]. split; [done|].
  assert (Runner.fetched Sample.config (Appwrite.Collection docs')
          = Some (Appwrite.doc_id <$> docs)) as Hids2.
  { rewrite Hfetch, Hids'. f_equal. apply take_app_length'. by rewrite length_fmap. }
  destruct (Runner.applyVersions 1 w Sample.config
              (list_to_set (Appwrite.doc_id <$> docs)) (Runner.discover w) 0%nat
              (Appwrite.Collection docs')) as [[o2 segs2] store2] eqn:Hloop2.
  destruct (runMigrations_loop w Sample.config 1 (Appwrite.Collection docs')
              (Appwrite.doc_id <$> docs) eq_refl eq_refl Hids2 _ _ _ Hloop2)
    as (Hend2 & Hsegs2 & _).
  rewrite Hdirs in Hloop2. cbn [Runner.applyVersions] in Hloop2.
  rewrite (applyVersion_pending 1 w Sample.config _ _ _ _ _ _ _ Hv1) in Hloop2
    by (rewrite elem_of_list_to_set; apply Hnew; auto).
  unfold Runner.pipeline in Hloop2.
  assert (Runner.prepare 1 w Sample.config "v1" m1 0
          = (0%nat, ([Runner.noSnapshotWarning "v1"], None))) as Hprep
    by (vm_compute; reflexivity).
  assert (Runner.upStage "v1" m1
          = ([Log "Executing migration script..."; Up "v1"; Log "[v1] seeding"], None)) as Hup
    by (vm_compute; reflexivity).
  rewrite Hprep, Hup in Hloop2.
  unfold Runner.recordStage, Appwrite.recordMigration, Appwrite.createDocument in Hloop2.
  rewrite bool_decide_eq_true_2 in Hloop2
    by (rewrite Hids'; apply elem_of_app; right; left).
  injection Hloop2 as <- <- <-.
  split; [exact Hsegs2|]. split; [|exact Hend2].
  unfold Runner.trace. rewrite Hsegs2. apply elem_of_app. right. apply elem_of_app. left.
  simpl. do 4 right. left.
Qed.

(** C1 as it is worded fails: over a tracking collection that already
    holds 5000 records, a first run completes and records A and B, and
    the second run over the unchanged directories calls the action of
    v1 again and issues a second write for A, which the remote refuses. *)
Lemma second_run_past_the_page :
  let first :=
    Runner.runMigrations 1 Sample.bothApplied Sample.config
      (Appwrite.Collection (Fixture.older 5000)) in
  let second :=
    Runner.runMigrations 1 Sample.bothApplied Sample.config (Runner.final first) in
  Runner.ending first = Runner.Completed ∧
  Appwrite.documentIds (Runner.final first)
  = (Appwrite.doc_id <$> Fixture.older 5000) ++ ["A"; "B"] ∧
  Runner.versions second
  = [("v1", [Import Sample.v1_index; Runner.applyingLog "v1" "A";
             Runner.noSnapshotWarning "v1"; Log "Executing migration script...";
             Up "v1"; Log "[v1] seeding"; Log "Finalizing...";
             CreateDocument "system" "migrations" "A" "v1"])] ∧
  Up "v1" ∈ Runner.trace second ∧
  Runner.ending second = Runner.Rejected "document already exists".
Proof.
  apply run_past_the_page.
  - unfold Fixture.older. by rewrite length_fmap, length_seq.
  - intros i Hi [t ->]%older_ids. by destruct Hi.
Qed.

Lemma preflight_failure_touches_nothing_witness :
  Runner.versions
    (Runner.runMigrations 1 Sample.bothApplied Sample.config
       (Appwrite.Failing Sample.timeout)) = [].
Proof.
  refine (proj1 (preflight_failure_touches_nothing 1 Sample.bothApplied Sample.config
                   (Appwrite.Failing Sample.timeout) _)).
  right; right. reflexivity.
Defined.

Lemma pollTable_first_ready_witness :
  ∃ evs,
    Poller.pollTable (Sample.remoteAfter (inr [Sample.email "processing"])) 5 0 "main" "users"
    = (true, 2%nat, evs) ∧
    Poller.sleeps evs = [2000].
Proof.
  destruct (pollTable_first_ready (Sample.remoteAfter (inr [Sample.email "processing"])) 1
              5 0 "main" "users" [Sample.email "available"])
    as (evs & Hrun & Hsleeps & _).
  - intros k Hk. assert (k = 0%nat) as -> by lia. vm_compute. discriminate.
  - reflexivity.
  - reflexivity.
  - lia.
  - exists evs. split; [exact Hrun|exact Hsleeps].
Defined.

Lemma run_does_not_depend_on_budget_witness :
  Runner.runMigrations 7 Sample.twoVersions Sample.withBackup (Sample.applied [])
  = Runner.runMigrations 2 Sample.twoVersions Sample.withBackup (Sample.applied []).
Proof.
  apply run_does_not_depend_on_budget.
  - vm_compute. discriminate.
  - lia.
Defined.

Lemma run_applies_all_pending_witness :
  Appwrite.documentIds
    (Runner.final
       (Runner.runMigrations 1 Sample.bothApplied Sample.config (Appwrite.Collection [])))
  = ["A"; "B"].
Proof.
  assert (Runner.discover Sample.bothApplied = ["v1"; "v2"]) as Hdirs
    by (vm_compute; reflexivity).
  refine (eq_trans (proj2 (proj2 (run_applies_all_pending 1 Sample.bothApplied Sample.config
                                    [] _ _ _ _ _ _))) _).
  - simpl. lia.
  - reflexivity.
  - reflexivity.
  - rewrite Hdirs. intros version Hin. right.
    apply elem_of_cons in Hin as [->|Hin];
      [|apply elem_of_cons in Hin as [->|Hin]; [|by apply elem_of_nil in Hin]];
      vm_compute; eauto.
  - rewrite Hdirs. intros version file m i calls Hin Hdef _.
    apply elem_of_cons in Hin as [->|Hin];
      [|apply elem_of_cons in Hin as [->|Hin]; [|by apply elem_of_nil in Hin]];
      vm_compute in Hdef; injection Hdef as <- <- <-; by split.
  - rewrite Hdirs.
    assert (Runner.pendingIds Sample.bothApplied (Appwrite.doc_id <$> []) ["v1"; "v2"]
            = ["A"; "B"]) as -> by (vm_compute; reflexivity).
    apply (bool_decide_unpack _). vm_compute. exact I.
  - vm_compute; reflexivity.
Defined.
